(** * twmap: the processor pipeline (src/processor.ts) and its collaborators

    The development embeds [TwmapProcessor] of src/processor.ts: file
    discovery, the merge of class-strings into one mapping, the per-file
    update step, and the de-duplication of stylesheet rules.  JavaScript's
    [Map<string,string>] and [Set<string>] iterate in insertion order, and the
    code depends on that order, so both are lists here (an association list
    with unique keys, a duplicate-free list).

    The name generator (./generator), the file parser and rewriter (./parser)
    and the stylesheet writer (./css-generator) are imported by processor.ts
    but their sources are not part of the tree; they are modelled from the
    design document and every such definition says so.

    The command line of src/index.ts, [main] with its options and
    [createSampleConfig], follows the processor. *)

From Stdlib Require Import Ascii String.
From stdpp Require Import base list gmap strings pretty sorting.

#[local] Set Warnings "-clear-no-such-hyp".

(** ** JavaScript strings, [Set<string>] and [Map<string,string>] *)

(** [\s] of a JavaScript regular expression, on code units below 256:
    TAB, LF, VT, FF, CR, SPACE and NO-BREAK SPACE. *)
Definition js_space (c : ascii) : bool :=
  match c with
  | "009" | "010" | "011" | "012" | "013" | " " | "160" => true
  | _ => false
  end%char.

(** [s.split(/\s+/)]: the pieces between maximal runs of white space; a run at
    either end leaves an empty piece there, and the empty string splits into
    one empty piece. [cur] is the current piece, reversed. *)
Fixpoint split_go (cur : string) (in_run : bool) (s : string) : list string :=
  match s with
  | "" => [String.rev cur]
  | String c s' =>
      if js_space c
      then if in_run then split_go cur true s'
           else String.rev cur :: split_go "" true s'
      else split_go (String c cur) false s'
  end.

Definition split_ws (s : string) : list string := split_go "" false s.

Fixpoint drop_space (s : string) : string :=
  match s with
  | String c s' => if js_space c then drop_space s' else s
  | "" => ""
  end.

(** [s.trim()] *)
Definition trim (s : string) : string :=
  String.rev (drop_space (String.rev (drop_space s))).

(** A piece of a split string has no white space in it. *)
Fixpoint no_space (s : string) : Prop :=
  match s with
  | "" => True
  | String c s' => js_space c = false ∧ no_space s'
  end.

(** [a.join(sep)] *)
Fixpoint join (sep : string) (l : list string) : string :=
  match l with
  | [] => ""
  | [x] => x
  | x :: l' => x +:+ sep +:+ join sep l'
  end.

(** [a.sort()] on strings: ascending by code units. *)
Definition js_sort (l : list string) : list string := merge_sort String.le l.

(** [Set.prototype.add]: a new element goes last, a present one stays put. *)
Definition set_add (x : string) (s : list string) : list string :=
  if decide (x ∈ s) then s else s ++ [x].

(** The elements of a list, each once, in the order of first occurrence. *)
Fixpoint first_seen (l : list string) : list string :=
  match l with
  | [] => []
  | x :: l' => x :: filter (λ y, y ≠ x) (first_seen l')
  end.

Abbreviation JsMap := (list (string * string)).

Fixpoint map_get (k : string) (m : JsMap) : option string :=
  match m with
  | [] => None
  | (k', v) :: m' => if decide (k' = k) then Some v else map_get k m'
  end.

Definition map_has (k : string) (m : JsMap) : bool :=
  bool_decide (is_Some (map_get k m)).

(** [Map.prototype.set]: a present key keeps its position. *)
Fixpoint map_set (k v : string) (m : JsMap) : JsMap :=
  match m with
  | [] => [(k, v)]
  | (k', v') :: m' => if decide (k' = k) then (k, v) :: m' else (k', v') :: map_set k v m'
  end.

(** ** Configuration and results (./types) *)

Inductive Mode := hash | incremental | readable.

Record Config := {
  input : list string;
  output : string;
  mode : Mode;
  prefix : string;
  ignore : list string;
  cssCompressor : bool
}.

Record ParseResult := {
  filePath : string;
  success : bool;
  classNames : list string;
  error : option string
}.

Record ClassMapping := { original : string; generated : string }.

Inductive FileKind := Markup | ComponentMarkup | TypedComponent.

(** Half-open byte range [start, stop) of an attribute value in its file. *)
Record ClassOccurrence := {
  file_path : string;
  start : nat;
  stop : nat;
  raw_value : option string;
  safe : bool
}.

Inductive ParseOutcome :=
| ParseOk (occs : list ClassOccurrence)
| ParseErr (reason : string).

(** Exceptions that cross a function boundary in the pipeline. *)
Inductive Exn :=
| FileReadError (path : string)
| ParseError (path reason : string)
| WriteError (path : string)
| ConfigurationError (reason : string).

(** What the run shows to its environment: log lines, progress marks on
    standard output, and the calls made to the absent collaborators. *)
Inductive Event :=
| WarnGlobFailed (pattern : string)
| WarnParseFailures (n : nat)
| ErrorParseFailed (path reason : string)
| CallReplace (path : string) (mappings : JsMap) (dry : bool)
| ErrorUpdateFailed (path : string) (e : Exn)
| Stdout (mark : string)
| PlanReport (path : string) (replaced skipped : nat)
| InfoDryRunCSS (out : string)
| CallGenerateCSS (rules : list ClassMapping) (out : string) (compress : bool)
| InfoDryRunSummary (paths : list string)
| InfoCompleted (out : string)
| ErrorProcess (e : Exn)
| ErrorMain (e : Exn).

(** The file system as the run sees it: contents by path, the paths whose
    write fails, and the events so far. *)
Record World := {
  files : gmap string (list ascii);
  unwritable : gset string;
  trace : list Event
}.

Definition replace_calls (tr : list Event) : list (string * JsMap * bool) :=
  omap (λ e, match e with CallReplace f m d => Some (f, m, d) | _ => None end) tr.

Definition css_calls (tr : list Event) : list (list ClassMapping * string * bool) :=
  omap (λ e, match e with CallGenerateCSS r o c => Some (r, o, c) | _ => None end) tr.

Definition emit (e : Event) (w : World) : World :=
  {| files := files w; unwritable := unwritable w; trace := trace w ++ [e] |}.

Definition write_file (path : string) (data : list ascii) (w : World) : Exn + World :=
  if decide (path ∈ unwritable w) then inl (WriteError path)
  else inr {| files := <[path := data]> (files w);
              unwritable := unwritable w; trace := trace w |}.

(** The facts that hold of a step from [w] to [w']: the set of unwritable
    paths stays, the trace grows at its end, and the calls recorded in it
    grow by [rc] and [cc]. *)
Definition steps (w w' : World) (rc : list (string * JsMap * bool))
    (cc : list (list ClassMapping * string * bool)) : Prop :=
  unwritable w' = unwritable w ∧
  trace w `prefix_of` trace w' ∧
  replace_calls (trace w') = replace_calls (trace w) ++ rc ∧
  css_calls (trace w') = css_calls (trace w) ++ cc.

(** Two worlds that differ in their traces only. *)
Definition same_disk (w1 w2 : World) : Prop :=
  files w1 = files w2 ∧ unwritable w1 = unwritable w2.

(** The collaborators outside the tree: the digest behind hash names, the
    bound on a readable slug, the directory walker, the syntax-specific
    parsers, the file kind read off a path, the quoting of a replaced value
    (from the original bytes of the value and the short name), the
    stylesheet compressor and the validation of a configuration. *)
Record Collaborators := {
  digest : string → string;
  slug_width : nat;
  glob : string → list string → option (list string);
  parse : FileKind → list ascii → ParseOutcome;
  file_kind : string → FileKind;
  rewrap : list ascii → string → list ascii;
  compressor : string → string;
  validateConfig : Config → option string
}.

Section Model.

Variable env : Collaborators.

(** ** Name generator (./generator) *)

(** Modelled from the spec: the width to which a digest is cut in [hash]
    mode. *)
Definition hash_width : nat := 6.

Definition is_alnum (c : ascii) : bool :=
  let n := nat_of_ascii c in
  bool_decide (48 ≤ n ≤ 57) || bool_decide (65 ≤ n ≤ 90) || bool_decide (97 ≤ n ≤ 122).

(** Modelled from the spec: the slug of [readable] mode, the class-string
    without what is not a letter or a digit. *)
Fixpoint slug (s : string) : string :=
  match s with
  | "" => ""
  | String c s' => if is_alnum c then String c (slug s') else slug s'
  end.

(** Allocation state: the append-only counter, the names given so far by
    class-string, and the set of names in use. *)
Record GenState := {
  counter : nat;
  allocated : gmap string string;
  used : gset string
}.

Definition gen_init : GenState :=
  {| counter := 0; allocated := ∅; used := ∅ |}.

Definition suffixed (base : string) (k : nat) : string :=
  base +:+ "-" +:+ pretty k.

Fixpoint first_unused (taken : gset string) (base : string) (k fuel : nat) : string :=
  match fuel with
  | 0 => suffixed base k
  | S fuel' =>
      if decide (suffixed base k ∈ taken)
      then first_unused taken base (S k) fuel'
      else suffixed base k
  end.

(** Modelled from the spec: the disambiguation of [hash] and [readable]
    names.  A name that collides with one in use takes the first free
    numeric suffix; among [size taken + 1] suffixes one is free. *)
Definition disambiguate (taken : gset string) (base : string) : string :=
  if decide (base ∈ taken) then first_unused taken base 0 (size taken) else base.

(** Modelled from the spec: the three modes of the generator. *)
Definition fresh_name (cfg : Config) (g : GenState) (s : string) : string :=
  match mode cfg with
  | hash =>
      disambiguate (used g)
        (prefix cfg +:+ String.substring 0 hash_width (digest env s))
  | incremental => prefix cfg +:+ pretty (counter g)
  | readable =>
      disambiguate (used g)
        (prefix cfg +:+ String.substring 0 (slug_width env) (slug s))
  end.

(** Modelled from the spec: [ClassNameGenerator.generateClassName] of
    ./generator, which is not in the tree.  A class-string seen before gets
    the name it was given; a new one gets a name by the configured mode
    (the truncated digest, the next integer, or the truncated slug, each
    after the prefix), made distinct from every name in use. *)
Definition generateClassName (cfg : Config) (g : GenState) (s : string)
  : string * GenState :=
  match allocated g !! s with
  | Some n => (n, g)
  | None =>
      let n := fresh_name cfg g s in
      (n, {| counter := S (counter g);
             allocated := <[s := n]> (allocated g);
             used := {[n]} ∪ used g |})
  end.

(** What every reachable allocation state satisfies: a name given out is in
    use, no name was given twice, in incremental mode the names in use are
    the numbers below the counter, and the counter counts the names. *)
Definition gen_inv (cfg : Config) (g : GenState) : Prop :=
  (∀ s n, allocated g !! s = Some n → n ∈ used g) ∧
  (∀ s1 s2 n, allocated g !! s1 = Some n → allocated g !! s2 = Some n → s1 = s2) ∧
  (mode cfg = incremental →
     ∀ n, n ∈ used g → ∃ k, k < counter g ∧ n = prefix cfg +:+ pretty k) ∧
  size (allocated g) = counter g ∧
  size (used g) = counter g.

(** ** Rewriter (./parser, [replaceClassNamesInFile]) *)

(** The tokens of a class-string: its pieces between white space. *)
Definition tokens (s : string) : list string :=
  filter (λ t, 0 < String.length t) (split_ws s).

Definition squeeze (s : string) : string := join " " (tokens s).

(** Modelled from the spec: the lookup of a value in the mapping, which
    compares after squeezing every run of white space to one space. *)
Fixpoint lookup_ws (m : JsMap) (v : string) : option string :=
  match m with
  | [] => None
  | (k, n) :: m' => if decide (squeeze k = squeeze v) then Some n else lookup_ws m' v
  end.

Record Replacement := {
  r_start : nat;
  r_stop : nat;
  r_text : list ascii
}.

Definition slice (a b : nat) (content : list ascii) : list ascii :=
  take (b - a) (drop a content).

Definition plan_one (content : list ascii) (m : JsMap) (o : ClassOccurrence)
  : option Replacement :=
  if safe o then
    v ← raw_value o;
    n ← lookup_ws m v;
    Some {| r_start := start o; r_stop := stop o;
            r_text := rewrap env (slice (start o) (stop o) content) n |}
  else None.

Definition by_start (a b : ClassOccurrence) : Prop := start a ≤ start b.

#[global] Instance by_start_dec : RelDecision by_start :=
  λ a b, decide (start a ≤ start b).

(** Modelled from the spec: the planned replacements, in ascending order
    of their ranges. *)
Definition plan (content : list ascii) (occs : list ClassOccurrence) (m : JsMap)
  : list Replacement :=
  omap (plan_one content m) (merge_sort by_start occs).

Definition splice (r : Replacement) (content : list ascii) : list ascii :=
  take (r_start r) content ++ r_text r ++ drop (r_stop r) content.

(** The plan is in ascending order and [foldr] applies its last entry first. *)
Definition apply_plan (pl : list Replacement) (content : list ascii) : list ascii :=
  foldr splice content pl.

(** A plan whose ranges follow one another, and a range inside the content. *)
Definition chained (pl : list Replacement) : Prop :=
  StronglySorted (λ r1 r2, r_stop r1 ≤ r_start r2) pl.

Definition fits (content : list ascii) (r : Replacement) : Prop :=
  r_start r ≤ r_stop r ≤ length content.

Record RewriteOutcome := {
  text : list ascii;
  replaced : nat;
  skipped : nat
}.

(** Modelled from the spec: the Rewriter of ./parser, which is not in the
    tree.  Occurrences are sorted by the start of their range; every safe
    one whose value has an entry in the mapping is replaced, over exactly
    its range, by the short name in the quoting of the original; the
    replacements are applied from the last range to the first; unsafe
    occurrences are counted as skipped. *)
Definition rewrite (content : list ascii) (occs : list ClassOccurrence) (m : JsMap)
  : RewriteOutcome :=
  let pl := plan content occs m in
  {| text := apply_plan pl content;
     replaced := length pl;
     skipped := length (filter (λ o, safe o = false) occs) |}.

(** Where the byte at offset [a] of the original is after the plan has been
    applied, when no replaced range contains it: shifted by what the
    replacements before it put in and took out. *)
Definition before (a : nat) (pl : list Replacement) : list Replacement :=
  filter (λ r, r_stop r ≤ a) pl.

Definition moved (pl : list Replacement) (a : nat) : nat :=
  a + sum_list_with (λ r, length (r_text r)) (before a pl)
    - sum_list_with (λ r, r_stop r - r_start r) (before a pl).

(** Two ranges that do not overlap. *)
Definition apart (a b : ClassOccurrence) : Prop :=
  stop a ≤ start b ∨ stop b ≤ start a.

Fixpoint all_apart (l : list ClassOccurrence) : Prop :=
  match l with
  | [] => True
  | a :: l' => Forall (apart a) l' ∧ all_apart l'
  end.

(** Modelled from the spec: the ranges of the data model.  Each is the
    half-open range of an attribute value in the content, non-empty and
    inside it.  Nothing keeps two ranges from overlapping: an attribute
    inside an expression lies in the range of the attribute that holds the
    expression. *)
Definition in_content (content : list ascii) (occs : list ClassOccurrence) : Prop :=
  Forall (λ o, start o < stop o ≤ length content) occs.

(** The occurrences the plan replaces: the safe ones whose value has an
    entry in the mapping. *)
Definition replaceable (m : JsMap) (o : ClassOccurrence) : bool :=
  safe o && bool_decide (is_Some (raw_value o ≫= lookup_ws m)).

(** Modelled from the spec: the design assumption under which a rewritten
    file is not rewritten again.  No short name of the mapping is, up to
    white space, one of its class-strings. *)
Definition distinguishable (m : JsMap) : Prop :=
  ∀ k n, (k, n) ∈ m → lookup_ws m n = None.


Definition safe_values (occs : list ClassOccurrence) : list string :=
  omap (λ o, if safe o then raw_value o else None) (merge_sort by_start occs).

(** Modelled from the spec: [FileParser.parseFile] of ./parser, which is not
    in the tree.  An unreadable or unparseable file gives a failed result
    whose reason names the file; otherwise the class-strings of the safe
    occurrences, one per occurrence, in document order. *)
Definition parseFile (w : World) (path : string) : ParseResult :=
  match files w !! path with
  | None =>
      {| filePath := path; success := false; classNames := [];
         error := Some (path +:+ ": cannot read file") |}
  | Some content =>
      match parse env (file_kind env path) content with
      | ParseErr reason =>
          {| filePath := path; success := false; classNames := [];
             error := Some (path +:+ ": " +:+ reason) |}
      | ParseOk occs =>
          {| filePath := path; success := true; classNames := safe_values occs;
             error := None |}
      end
  end.

(** Modelled from the spec: [FileParser.replaceClassNamesInFile] of ./parser,
    which is not in the tree.  The file is read and parsed again, the
    rewrite is computed, and it is written back unless [dry] is set, in
    which case the plan is only reported.  A failure to read, parse or
    write is thrown to the caller. *)
Definition replaceClassNamesInFile (path : string) (m : JsMap) (dry : bool)
    (w : World) : World * option Exn :=
  match files w !! path with
  | None => (w, Some (FileReadError path))
  | Some content =>
      match parse env (file_kind env path) content with
      | ParseErr reason => (w, Some (ParseError path reason))
      | ParseOk occs =>
          let out := rewrite content occs m in
          if dry then (emit (PlanReport path (replaced out) (skipped out)) w, None)
          else
            match write_file path (text out) w with
            | inl e => (w, Some e)
            | inr w' => (w', None)
            end
      end
  end.

(** ** Stylesheet writer (./css-generator) *)

(** Modelled from the spec: one rule, the short name as selector and the
    tokens of the class-string, joined by single spaces, applied. *)
Definition createCSSRule (cm : ClassMapping) : string :=
  "." +:+ generated cm +:+ " { @apply " +:+ squeeze (original cm) +:+ "; }"
  +:+ String "010" "".

Definition buildCSSContent (rules : list ClassMapping) : string :=
  foldr (λ cm acc, createCSSRule cm +:+ acc) "" rules.

(** Modelled from the spec: [CSSGenerator.generateCSS] of ./css-generator, of
    which only the declarations are in the tree.  One rule per entry, in
    order, through the compressor when asked, written to the destination;
    a failure to write is thrown. *)
Definition generateCSS (rules : list ClassMapping) (out : string) (compress : bool)
    (w : World) : World * option Exn :=
  let css := buildCSSContent rules in
  let css := if compress then compressor env css else css in
  let w := emit (CallGenerateCSS rules out compress) w in
  match write_file out (list_ascii_of_string css) w with
  | inl e => (w, Some e)
  | inr w' => (w', None)
  end.

(** ** The processor (src/processor.ts) *)

(** The fields of [TwmapProcessor] that change; [fileParser] and
    [cssGenerator] carry no state of their own. *)
Record TwmapProcessor := {
  config : Config;
  dryRun : bool;
  mappings : JsMap;
  classGenerator : GenState
}.

Definition new_processor (cfg : Config) (dry : bool) : TwmapProcessor :=
  {| config := cfg; dryRun := dry; mappings := []; classGenerator := gen_init |}.

Definition add_all (xs : list string) (s : list string) : list string :=
  foldl (λ acc x, set_add x acc) s xs.

(** [findFiles]: one glob per input pattern, the matches added to a set; a
    pattern whose glob throws is reported and skipped. *)
Fixpoint findFiles_from (cfg : Config) (patterns : list string)
    (allFiles : list string) (w : World) : list string * World :=
  match patterns with
  | [] => (allFiles, w)
  | pattern :: rest =>
      match glob env pattern (ignore cfg) with
      | Some matches => findFiles_from cfg rest (add_all matches allFiles) w
      | None => findFiles_from cfg rest allFiles (emit (WarnGlobFailed pattern) w)
      end
  end.

Definition findFiles (cfg : Config) (w : World) : list string * World :=
  findFiles_from cfg (input cfg) [] w.

(** What one pattern contributes: nothing when its glob throws. *)
Definition glob_matches (cfg : Config) (pattern : string) : list string :=
  default [] (glob env pattern (ignore cfg)).

(** [generateMappings], first loop: the set of all class-strings. *)
Definition collect (parseResults : list ParseResult) : list string :=
  foldl (λ acc r, add_all (classNames r) acc) [] parseResults.

(** [generateMappings], body of the second loop. *)
Definition map_one (p : TwmapProcessor) (className : string) : TwmapProcessor :=
  if map_has className (mappings p) then p
  else
    let '(generatedName, g) :=
      generateClassName (config p) (classGenerator p) className in
    {| config := config p; dryRun := dryRun p;
       mappings := map_set className generatedName (mappings p);
       classGenerator := g |}.

Definition generateMappings (p : TwmapProcessor) (parseResults : list ParseResult)
  : TwmapProcessor :=
  foldl map_one p (collect parseResults).

(** The processor's mapping and the generator's table hold the same pairs. *)
Definition proc_inv (p : TwmapProcessor) : Prop :=
  gen_inv (config p) (classGenerator p) ∧
  NoDup (mappings p).*1 ∧
  (∀ c, map_get c (mappings p) = allocated (classGenerator p) !! c) ∧
  length (mappings p) = counter (classGenerator p).

(** [updateSourceFile]: the [try]/[catch] keeps a failure inside the file.
    The call to the rewriter is not awaited, so the rewriter is synchronous
    and what it throws is caught here. *)
Definition updateSourceFile (p : TwmapProcessor) (result : ParseResult) (w : World)
  : World :=
  if bool_decide (0 < length (classNames result)) then
    match replaceClassNamesInFile (filePath result) (mappings p) (dryRun p)
            (emit (CallReplace (filePath result) (mappings p) (dryRun p)) w) with
    | (w', None) => emit (Stdout (if dryRun p then "d" else ".")) w'
    | (w', Some e) => emit (Stdout "✗") (emit (ErrorUpdateFailed (filePath result) e) w')
    end
  else w.

(** The key under which [generateCSSFile] groups the mapping's entries. *)
Definition normalized (original : string) : string :=
  join " " (js_sort (filter (λ cls, 0 < String.length (trim cls)) (split_ws original))).

Definition seen_step (seenApply : list (string * ClassMapping))
    (e : string * string) : list (string * ClassMapping) :=
  if decide (normalized e.1 ∈ seenApply.*1) then seenApply
  else seenApply ++ [(normalized e.1, {| original := e.1; generated := e.2 |})].

Definition dedupe (m : JsMap) : list ClassMapping :=
  (foldl seen_step [] m).*2.

Definition to_rule (e : string * string) : ClassMapping :=
  {| original := e.1; generated := e.2 |}.

(** The first pair of the mapping, in iteration order, with canonical form [k]. *)
Definition first_of_form (m : JsMap) (k : string) : option (string * string) :=
  snd <$> list_find (λ e, normalized e.1 = k) m.

Definition generateCSSFile (p : TwmapProcessor) (w : World) : World * option Exn :=
  if dryRun p then (emit (InfoDryRunCSS (output (config p))) w, None)
  else generateCSS (dedupe (mappings p)) (output (config p))
         (cssCompressor (config p)) w.

Definition report_failed (w : World) (result : ParseResult) : World :=
  match error result with
  | Some reason =>
      if decide (reason = "") then w
      else emit (ErrorParseFailed (filePath result) reason) w
  | None => w
  end.

(** [process] from the parse results on, without the telemetry around its
    steps, the progress lines and the line of statistics.  The lines of
    [logger.performance] are part of that telemetry, the one for the whole
    run after the completion line among them, so the trace of a run that
    returns does not end where its console output ends.  [Promise.all]
    keeps the order of its input array, and [updateSourceFile] has no
    [await], so the updates run one after the other in that order. *)
Definition process_parsed (p : TwmapProcessor) (parseResults : list ParseResult)
    (w : World) : TwmapProcessor * World * option Exn :=
  let successfulParses := filter (λ r, success r = true) parseResults in
  let failedParses := filter (λ r, success r = false) parseResults in
  let w :=
    if bool_decide (0 < length failedParses)
    then foldl report_failed (emit (WarnParseFailures (length failedParses)) w)
           failedParses
    else w in
  let p := generateMappings p successfulParses in
  let w := foldl (λ w result, updateSourceFile p result w) w successfulParses in
  match generateCSSFile p w with
  | (w, Some e) => (p, emit (ErrorProcess e) w, Some e)
  | (w, None) =>
      let w :=
        if dryRun p
        then emit (InfoDryRunSummary
                     (filePath <$> filter (λ r, 0 < length (classNames r))
                                     successfulParses)) w
        else w in
      (p, emit (InfoCompleted (output (config p))) w, None)
  end.

(** [process]: discovery, then every file parsed, then the rest. *)
Definition process (p : TwmapProcessor) (w : World)
  : TwmapProcessor * World * option Exn :=
  let '(found, w) := findFiles (config p) w in
  process_parsed p (parseFile w <$> found) w.

(** The files [process] finds and the parse results it works from. *)
Definition found_files (cfg : Config) (w : World) : list string :=
  (findFiles cfg w).1.

Definition parse_results (cfg : Config) (w : World) : list ParseResult :=
  parseFile (findFiles cfg w).2 <$> found_files cfg w.

Definition succeeded (rs : list ParseResult) : list ParseResult :=
  filter (λ r, success r = true) rs.

Definition has_classes (r : ParseResult) : Prop := 0 < length (classNames r).

(** The calls one update and the stylesheet step add to the trace. *)
Definition update_call (p : TwmapProcessor) (r : ParseResult)
  : list (string * JsMap * bool) :=
  if decide (has_classes r) then [(filePath r, mappings p, dryRun p)] else [].

Definition css_call (p : TwmapProcessor) : list (list ClassMapping * string * bool) :=
  if dryRun p then []
  else [(dedupe (mappings p), output (config p), cssCompressor (config p))].

(** [reset] *)
Definition reset (p : TwmapProcessor) : TwmapProcessor :=
  {| config := config p; dryRun := dryRun p; mappings := []; classGenerator := gen_init |}.

(** [main] of src/index.ts from the validation of the configuration on:
    the exit status is 1 when the validation or [process] throws. *)
Definition main (cfg : Config) (dry : bool) (w : World) : World * nat :=
  match validateConfig env cfg with
  | Some reason => (emit (ErrorMain (ConfigurationError reason)) w, 1)
  | None =>
      match process (new_processor cfg dry) w with
      | (_, w, Some e) => (emit (ErrorMain e) w, 1)
      | (_, w, None) => (w, 0)
      end
  end.

End Model.

(** ** [getMappings] and the identity of [Map] objects

    [Map] objects live in a store and are named by references; the
    processor owns the reference in its [mappings] field, and a caller of
    [getMappings] owns the reference it is handed and may do to it what the
    [Map] interface allows. *)
Record Store := {
  objects : gmap nat JsMap;
  next_ref : nat
}.

Definition store_ok (st : Store) : Prop :=
  ∀ l, l ∈ dom (objects st) → l < next_ref st.

Definition deref (st : Store) (l : nat) : JsMap := default [] (objects st !! l).

(** [new Map(entries)] *)
Definition new_map (entries : JsMap) (st : Store) : nat * Store :=
  (next_ref st,
   {| objects := <[next_ref st := entries]> (objects st);
      next_ref := S (next_ref st) |}).

(** A processor object: its [mappings] field holds a reference. *)
Record ProcessorObj := {
  obj_config : Config;
  obj_dryRun : bool;
  obj_mappings : nat;
  obj_classGenerator : GenState
}.

(** The processor as its own methods read it. *)
Definition load (o : ProcessorObj) (st : Store) : TwmapProcessor :=
  {| config := obj_config o; dryRun := obj_dryRun o;
     mappings := deref st (obj_mappings o);
     classGenerator := obj_classGenerator o |}.

(** [getMappings() { return new Map(this.mappings); }] *)
Definition getMappings (o : ProcessorObj) (st : Store) : nat * Store :=
  new_map (deref st (obj_mappings o)) st.

Inductive MapOp :=
| OpSet (k v : string)
| OpDelete (k : string)
| OpClear.

Definition map_delete (k : string) (m : JsMap) : JsMap :=
  filter (λ e, e.1 ≠ k) m.

Definition apply_op (op : MapOp) (m : JsMap) : JsMap :=
  match op with
  | OpSet k v => map_set k v m
  | OpDelete k => map_delete k m
  | OpClear => []
  end.

(** A caller mutating the [Map] behind reference [l]. *)
Definition mutate (l : nat) (op : MapOp) (st : Store) : Store :=
  {| objects := alter (apply_op op) l (objects st); next_ref := next_ref st |}.

Definition mutate_all (l : nat) (ops : list MapOp) (st : Store) : Store :=
  foldl (λ st op, mutate l op st) st ops.

(** ** A sample parser for markup

    The sample runs below need a parser.  This one is not the Markup
    strategy of ./parser, which is not in the tree: it knows nothing of
    elements, comments or other attributes.  The theorems about the
    rewriter hold for whatever occurrences a parser reports. *)

Definition quote : ascii := "034"%char.

Definition attr_open : list ascii := list_ascii_of_string "class=" ++ [quote].

Fixpoint find_quote (s : list ascii) : option nat :=
  match s with
  | [] => None
  | c :: s' => if decide (c = quote) then Some 0 else S <$> find_quote s'
  end.

(** The sample scanner: it reports a double-quoted value wherever the
    bytes [class=] and a double quote stand, be it in an attribute of that
    name or not, and no value quoted otherwise.  The range of an occurrence
    is the quoted value with its quotes, its class-string is what stands
    between them, and every such value is a static string.  A value whose
    closing quote is missing ends the scan without an occurrence.  [pos]
    is the offset of [s] in the file. *)
Fixpoint scan (fuel pos : nat) (s : list ascii) : list ClassOccurrence :=
  match fuel with
  | 0 => []
  | S fuel' =>
      match s with
      | [] => []
      | _ :: s' =>
          if decide (attr_open `prefix_of` s) then
            let body := drop 7 s in
            match find_quote body with
            | Some n =>
                {| file_path := ""; start := pos + 6; stop := pos + 8 + n;
                   raw_value := Some (string_of_list_ascii (take n body));
                   safe := true |}
                :: scan fuel' (pos + 8 + n) (drop (S n) body)
            | None => []
            end
          else scan fuel' (S pos) s'
      end
  end.

Definition parse_markup (content : list ascii) : ParseOutcome :=
  ParseOk (scan (length content) 0 content).

(** The quoting the sample runs keep: the short name between the first and
    the last byte of the original value, which are its quotes. *)
Definition rewrap_ends (orig : list ascii) (short : string) : list ascii :=
  take 1 orig ++ list_ascii_of_string short ++ drop (length orig - 1) orig.

Definition with_markup (env : Collaborators) : Collaborators :=
  {| digest := digest env; slug_width := slug_width env; glob := glob env;
     parse := λ _, parse_markup; file_kind := λ _, Markup;
     rewrap := rewrap_ends; compressor := compressor env;
     validateConfig := validateConfig env |}.

(** What the rewriter makes of a file read by the sample scanner. *)
Definition rewritten (env : Collaborators) (content : list ascii) (m : JsMap)
  : list ascii :=
  text (rewrite (with_markup env) content (scan (length content) 0 content) m).

(** The same rewrite in one pass over the content, rebuilding it range by
    range; the ranges of the occurrences are not needed. *)
Definition new_value (m : JsMap) (v : list ascii) : list ascii :=
  match lookup_ws m (string_of_list_ascii v) with
  | Some n => list_ascii_of_string n
  | None => v
  end.

Fixpoint one_pass (m : JsMap) (fuel : nat) (s : list ascii) : list ascii :=
  match fuel with
  | 0 => s
  | S fuel' =>
      match s with
      | [] => []
      | c :: s' =>
          if decide (attr_open `prefix_of` s) then
            let body := drop 7 s in
            match find_quote body with
            | Some n =>
                attr_open ++ new_value m (take n body) ++ [quote]
                ++ one_pass m fuel' (drop (S n) body)
            | None => s
            end
          else c :: one_pass m fuel' s'
      end
  end.

(** No short name is itself, up to white space, a class-string of the
    mapping, and none contains a double quote. *)
Definition settled (m : JsMap) : Prop :=
  ∀ k n, (k, n) ∈ m → lookup_ws m n = None ∧ quote ∉ list_ascii_of_string n.

(** ** Sample inputs *)

Definition sample_env : Collaborators :=
  {| digest := slug; slug_width := 12;
     glob := λ pattern _,
       if decide (pattern = "*.html") then Some ["a.html"; "b.html"]
       else if decide (pattern = "b*") then Some ["b.html"]
       else None;
     parse := λ _, parse_markup; file_kind := λ _, Markup;
     rewrap := rewrap_ends; compressor := λ s, s;
     validateConfig := λ _, None |}.

(** The same files, enumerated by the walker in the other order. *)
Definition sample_env_reversed : Collaborators :=
  {| digest := digest sample_env; slug_width := slug_width sample_env;
     glob := λ pattern ig, reverse <$> glob sample_env pattern ig;
     parse := parse sample_env; file_kind := file_kind sample_env;
     rewrap := rewrap sample_env; compressor := compressor sample_env;
     validateConfig := validateConfig sample_env |}.

Definition sample_config (md : Mode) : Config :=
  {| input := ["*.html"; "b*"; "["]; output := "twmap.css"; mode := md;
     prefix := "tw-"; ignore := []; cssCompressor := false |}.

Definition bytes (s : string) : list ascii := list_ascii_of_string s.

Definition sample_world : World :=
  {| files := {[ "a.html" := bytes "<p class=" ++ [quote] ++ bytes "flex p-4" ++ [quote] ++ bytes ">";
                 "b.html" := bytes "<p class=" ++ [quote] ++ bytes "p-4 flex" ++ [quote] ++ bytes ">" ]};
     unwritable := ∅; trace := [] |}.

(** Two class-strings with the same tokens in a different order. *)
Definition sample_mapping : JsMap :=
  [("flex p-4", "tw-3f9a1c"); ("p-4 flex", "tw-b20e77")].

(** Component markup with a static and a dynamic value, and the occurrences
    a parser reports for it. *)
Definition sample_component : list ascii :=
  bytes "<a class=" ++ [quote] ++ bytes "flex p-4" ++ [quote]
  ++ bytes " className={cx}>".

Definition sample_static : ClassOccurrence :=
  {| file_path := "a.jsx"; start := 9; stop := 19;
     raw_value := Some "flex p-4"; safe := true |}.

Definition sample_dynamic : ClassOccurrence :=
  {| file_path := "a.jsx"; start := 30; stop := 34;
     raw_value := None; safe := false |}.

(** Component markup in which the expression of a dynamic value holds an
    element with a static value, and the occurrences a parser reports for
    it: the range of the inner value lies in the range of the outer one. *)
Definition nested_component : list ascii :=
  bytes "<a className={f(<b class=" ++ [quote] ++ bytes "p-4" ++ [quote]
  ++ bytes "/>)}>".

Definition nested_dynamic : ClassOccurrence :=
  {| file_path := "a.jsx"; start := 13; stop := 34;
     raw_value := None; safe := false |}.

Definition nested_static : ClassOccurrence :=
  {| file_path := "a.jsx"; start := 25; stop := 30;
     raw_value := Some "p-4"; safe := true |}.

(** One static value reported twice, with its quotes and without them, and
    a dynamic value right behind it. *)
Definition doubled_component : list ascii :=
  bytes "<a class=" ++ [quote] ++ bytes "p-4 flex" ++ [quote] ++ bytes "{...x}>".

Definition doubled_occurrences : list ClassOccurrence :=
  [ {| file_path := "a.jsx"; start := 9; stop := 19;
       raw_value := Some "p-4 flex"; safe := true |};
    {| file_path := "a.jsx"; start := 10; stop := 18;
       raw_value := Some "p-4 flex"; safe := true |};
    {| file_path := "a.jsx"; start := 19; stop := 25;
       raw_value := None; safe := false |} ].

(** What a parser reports of [sample_component] once it has been rewritten
    with [flex p-4] mapped to [tw-0]. *)
Definition sample_reparsed : list ClassOccurrence :=
  [ {| file_path := "a.jsx"; start := 9; stop := 15;
       raw_value := Some "tw-0"; safe := true |};
    {| file_path := "a.jsx"; start := 26; stop := 30;
       raw_value := None; safe := false |} ].




(** A file in which a class-string has the shape of a generated name, and
    the mapping an incremental run makes for it. *)
Definition sample_chain : list ascii :=
  bytes "<a class=" ++ [quote] ++ bytes "p-4" ++ [quote]
  ++ bytes "><b class=" ++ [quote] ++ bytes "tw-0" ++ [quote] ++ bytes ">".

Definition sample_chain_mapping : JsMap := [("p-4", "tw-0"); ("tw-0", "tw-1")].

(** A short name with a double quote in it. *)
Definition sample_quoted : list ascii :=
  bytes "<p class=" ++ [quote] ++ bytes "a" ++ [quote] ++ bytes ">".

Definition sample_quoted_mapping : JsMap :=
  [("a", "x" +:+ String quote " class=" +:+ String quote "a")].

Definition sample_store : Store :=
  {| objects := {[ 0 := [("flex p-4", "tw-0")] ]}; next_ref := 1 |}.

Definition sample_object : ProcessorObj :=
  {| obj_config := sample_config incremental; obj_dryRun := false;
     obj_mappings := 0; obj_classGenerator := gen_init |}.

(** A parser that reports the two occurrences of [sample_component]. *)
Definition component_env : Collaborators :=
  {| digest := digest sample_env; slug_width := slug_width sample_env;
     glob := λ _ _, Some ["a.jsx"];
     parse := λ _ _, ParseOk [sample_dynamic; sample_static];
     file_kind := λ _, ComponentMarkup;
     rewrap := rewrap_ends; compressor := compressor sample_env;
     validateConfig := validateConfig sample_env |}.

Definition component_world : World :=
  {| files := {[ "a.jsx" := sample_component ]}; unwritable := ∅; trace := [] |}.

(** ** What the processor prints

    The lines and marks of the run, read off the trace. *)

(** The progress marks written to standard output. *)
Definition marks (tr : list Event) : list string :=
  omap (λ e, match e with Stdout m => Some m | _ => None end) tr.

(** The files whose update was reported as failed. *)
Definition failed_updates (tr : list Event) : list string :=
  omap (λ e, match e with ErrorUpdateFailed f _ => Some f | _ => None end) tr.

(** The report of the parse failures: the warning with their number and the
    line of each failed file. *)
Definition parse_reports (tr : list Event) : list Event :=
  omap (λ e, match e with
             | WarnParseFailures _ | ErrorParseFailed _ _ => Some e
             | _ => None
             end) tr.

(** The lists of files of the dry-run summaries. *)
Definition dry_summaries (tr : list Event) : list (list string) :=
  omap (λ e, match e with InfoDryRunSummary ps => Some ps | _ => None end) tr.

(** The destinations of the lines that report the run as completed. *)
Definition completions (tr : list Event) : list string :=
  omap (λ e, match e with InfoCompleted out => Some out | _ => None end) tr.

(** Events that are none of the above. *)
Definition silent (evs : list Event) : Prop :=
  marks evs = [] ∧ failed_updates evs = [] ∧ parse_reports evs = [] ∧
  dry_summaries evs = [] ∧ completions evs = [].

(** The mark of an update that went through. *)
Definition ok_mark (dry : bool) : string := if dry then "d" else ".".

(** The line [report_failed] writes for a failed result, if any: a result
    whose [error] is undefined or the empty string gets none. *)
Definition failure_line (result : ParseResult) : option Event :=
  match error result with
  | Some reason =>
      if decide (reason = "") then None
      else Some (ErrorParseFailed (filePath result) reason)
  | None => None
  end.

(** What [process] writes about the parse failures: nothing when there are
    none, otherwise the warning with their number and the lines. *)
Definition failure_report (failedParses : list ParseResult) : list Event :=
  if decide (failedParses = []) then []
  else WarnParseFailures (length failedParses) :: omap failure_line failedParses.

(** ** [reset] and the identity of [Map] objects

    [reset() { this.mappings.clear(); this.classGenerator.reset(); }]: the
    [Map] behind the processor's reference is emptied in place, the
    reference stays. *)
Definition reset_obj (o : ProcessorObj) (st : Store) : ProcessorObj * Store :=
  ({| obj_config := obj_config o; obj_dryRun := obj_dryRun o;
      obj_mappings := obj_mappings o; obj_classGenerator := gen_init |},
   mutate (obj_mappings o) OpClear st).

(** ** The command line (src/index.ts) *)

(** The options as [program.opts()] returns them, each at the type of the
    configuration field it is assigned to; an option not given is
    undefined. *)
Record Options := {
  o_config : option string;
  o_input : option (list string);
  o_output : option string;
  o_mode : option Mode;
  o_prefix : option string;
  o_dryRun : bool;
  o_init : bool
}.

(** What the command line takes from its host: the working directory,
    [path.join], and [loadConfig] of ./config, which returns a
    configuration or throws. *)
Record Host := {
  cwd : string;
  path_join : string → string → string;
  loadConfig : option string → World → Exn + Config
}.

(** [if (options.x)] on a string option: undefined and the empty string are
    both falsy. *)
Definition truthy (o : option string) : option string :=
  match o with
  | Some s => if decide (s = "") then None else Some s
  | None => None
  end.

(** The four assignments of [main] that let the command line override the
    configuration file.  An array is truthy even when empty; a mode name is
    a non-empty string. *)
Definition override (opts : Options) (cfg : Config) : Config :=
  {| input := default (input cfg) (o_input opts);
     output := default (output cfg) (truthy (o_output opts));
     mode := default (mode cfg) (o_mode opts);
     prefix := default (prefix cfg) (truthy (o_prefix opts));
     ignore := ignore cfg;
     cssCompressor := cssCompressor cfg |}.

Definition newline : string := String "010" "".

(** The text [createSampleConfig] writes. *)
Definition sampleConfig : string :=
  "module.exports = {
  // Input file patterns to scan for class names
  input: [
    './src/**/*.{tsx,jsx,html}',
    './components/**/*.{tsx,jsx}',
    './examples/**/*.{tsx,jsx,html}',
    './app/**/*.{tsx,jsx,html}',
    './pages/**/*.{tsx,jsx,html}',
    './layouts/**/*.{tsx,jsx,html}'
  ],
  
  // Output path for the generated CSS file
  output: './twmap.css',
  
  // Class name generation mode
  // 'hash' - generates short hash-based names (e.g., 'tw-a1b2c3')
  // 'incremental' - generates incremental names (e.g., 'tw-0', 'tw-1')
  // 'readable' - generates somewhat readable names (e.g., 'tw-textcenter')
  mode: 'hash',
  
  // Prefix for all generated class names
  prefix: 'tw-',
  
  // Patterns to ignore during scanning
  ignore: [
    'node_modules/**',
    'dist/**',
    'build/**',
    '**/*.test.{js,ts,jsx,tsx}',
    '**/*.spec.{js,ts,jsx,tsx}'
  ]
};
".

Section Cli.

Variable env : Collaborators.
Variable host : Host.

Definition configPath : string := path_join host (cwd host) "twmap.config.js".

(** [createSampleConfig]: an existing file is reported and left alone;
    otherwise the sample is written and two lines say so.  What
    [writeFileSync] throws goes to the caller. *)
Definition createSampleConfig (w : World) : World * option Exn :=
  if decide (is_Some (files w !! configPath)) then
    (emit (Stdout ("⚠️  Config file already exists at: " +:+ configPath +:+ newline)) w,
     None)
  else
    match write_file configPath (list_ascii_of_string sampleConfig) w with
    | inl e => (w, Some e)
    | inr w' =>
        (emit (Stdout ("📝 Edit the config file to customize settings, then run "
                       +:+ String quote "twmap" +:+ String quote " again."
                       +:+ newline))
           (emit (Stdout ("✅ Sample config file created at: " +:+ configPath
                          +:+ newline)) w'),
         None)
    end.

(** [main] of src/index.ts from the parsed options on.  With [--init] the
    sample configuration is created and nothing else is done; otherwise the
    configuration is loaded, overridden by the options, and the rest is
    [main] above.  Whatever is thrown inside the [try] ends the process
    with status 1. *)
Definition main_cli (opts : Options) (w : World) : World * nat :=
  if o_init opts then
    match createSampleConfig w with
    | (w, None) => (w, 0)
    | (w, Some e) => (emit (ErrorMain e) w, 1)
    end
  else
    match loadConfig host (o_config opts) w with
    | inl e => (emit (ErrorMain e) w, 1)
    | inr cfg => main env (override opts cfg) (o_dryRun opts) w
    end.

End Cli.

(** *** Sample inputs of the command line *)

Definition sample_host : Host :=
  {| cwd := "/app";
     path_join := λ a b, a +:+ "/" +:+ b;
     loadConfig := λ _ _, inr (sample_config incremental) |}.

Definition sample_options : Options :=
  {| o_config := None; o_input := None; o_output := None; o_mode := None;
     o_prefix := None; o_dryRun := false; o_init := false |}.

Definition init_options : Options :=
  {| o_config := None; o_input := None; o_output := None; o_mode := None;
     o_prefix := None; o_dryRun := false; o_init := true |}.

(** A mapping with two entries of one canonical form. *)
Definition sample_twins : JsMap := [("flex p-4", "tw-0"); ("p-4 flex", "tw-1")].

(** The sample files with a stylesheet that cannot be written. *)
Definition sample_world_locked : World :=
  {| files := files sample_world; unwritable := {[ "twmap.css" ]}; trace := [] |}.

(** Two files without a class attribute, and a processor that has run over
    the sample files. *)
Definition plain_world : World :=
  {| files := {[ "a.html" := bytes "<p>a</p>";
                 "b.html" := bytes "<p id=" ++ [quote] ++ bytes "b" ++ [quote] ++ bytes ">" ]};
     unwritable := ∅; trace := [] |}.

Definition seasoned_processor : TwmapProcessor :=
  generateMappings sample_env (new_processor (sample_config incremental) false)
    (parse_results sample_env (sample_config incremental) sample_world).

(** [--output] given as the empty string. *)
Definition blank_output_options : Options :=
  {| o_config := None; o_input := None; o_output := Some ""; o_mode := None;
     o_prefix := None; o_dryRun := false; o_init := false |}.

(** * Properties *)

Section Properties.

Variable env : Collaborators.

(** ** Sets and discovery *)

Lemma set_add_elem x y s : y ∈ set_add x s ↔ y = x ∨ y ∈ s.
Proof.
  unfold set_add. case_decide; [|rewrite elem_of_app, list_elem_of_singleton]; naive_solver.
Qed.

Lemma set_add_NoDup x s : NoDup s → NoDup (set_add x s).
Proof.
  unfold set_add. intros Hs. case_decide; [done|].
  apply NoDup_app. split_and!; [done| |apply NoDup_singleton].
  intros y Hy ->%list_elem_of_singleton. done.
Qed.

Lemma add_all_elem xs : ∀ s y, y ∈ add_all xs s ↔ y ∈ xs ∨ y ∈ s.
Proof.
  unfold add_all. induction xs as [|x xs IH]; intros s y; simpl.
  - rewrite elem_of_nil. naive_solver.
  - rewrite IH, set_add_elem, elem_of_cons. naive_solver.
Qed.

Lemma add_all_NoDup xs : ∀ s, NoDup s → NoDup (add_all xs s).
Proof.
  unfold add_all. induction xs as [|x xs IH]; intros s Hs; simpl; [done|].
  by apply IH, set_add_NoDup.
Qed.

Lemma set_add_prefix x s : s `prefix_of` set_add x s.
Proof. unfold set_add. case_decide; [done|]. by apply prefix_app_r. Qed.

Lemma add_all_prefix xs : ∀ s, s `prefix_of` add_all xs s.
Proof.
  unfold add_all. induction xs as [|x xs IH]; intros s; simpl; [done|].
  etrans; [apply (set_add_prefix x)|apply IH].
Qed.

Lemma add_all_fresh xs : ∀ s, NoDup (s ++ xs) → add_all xs s = s ++ xs.
Proof.
  unfold add_all. induction xs as [|x xs IH]; intros s Hnd; simpl.
  - by rewrite app_nil_r.
  - assert (x ∉ s) as Hx.
    { apply NoDup_app in Hnd as (_&Hd&_). intros Hin. apply (Hd x Hin). left. }
    unfold set_add at 2. rewrite decide_False by done.
    rewrite IH; rewrite <-app_assoc; done.
Qed.

Lemma findFiles_from_spec cfg patterns : ∀ acc w,
  NoDup acc →
  let r := findFiles_from env cfg patterns acc w in
  NoDup r.1 ∧
  (∀ f, f ∈ r.1 ↔ f ∈ acc ∨ ∃ pattern ms, pattern ∈ patterns ∧
          glob env pattern (ignore cfg) = Some ms ∧ f ∈ ms) ∧
  files r.2 = files w ∧ unwritable r.2 = unwritable w ∧
  trace r.2 = trace w ++
    (WarnGlobFailed <$> filter (λ p, glob env p (ignore cfg) = None) patterns).
Proof.
  induction patterns as [|p ps IH]; intros acc w Hacc; simpl.
  - split_and!; try done; [|by rewrite app_nil_r].
    intros f. split; [auto|]. intros [?|(?&?&[]%elem_of_nil&_)]. done.
  - destruct (glob env p (ignore cfg)) as [ms|] eqn:Hg.
    + destruct (IH (add_all ms acc) w (add_all_NoDup _ _ Hacc)) as (H1&H2&H3&H4&H5).
      split_and!; try done.
      * intros f. rewrite H2, add_all_elem. split.
        -- intros [[?|?]|(q&qs&?&?&?)]; [right; exists p, ms|by left|right; exists q, qs];
             rewrite ?elem_of_cons; naive_solver.
        -- intros [?|(q&qs&[->|?]%elem_of_cons&?&?)]; [naive_solver|naive_solver|].
           right. by exists q, qs.
      * rewrite H5. f_equal. rewrite filter_cons_False; [done|]. by rewrite Hg.
    + destruct (IH acc (emit (WarnGlobFailed p) w) Hacc) as (H1&H2&H3&H4&H5).
      split_and!; try done.
      * intros f. rewrite H2. split.
        -- intros [?|(q&qs&?&?&?)]; [by left|right; exists q, qs].
           rewrite elem_of_cons. naive_solver.
        -- intros [?|(q&qs&[->|?]%elem_of_cons&?&?)]; [by left|congruence|].
           right. by exists q, qs.
      * rewrite H5. simpl. rewrite filter_cons_True by done. simpl.
        by rewrite <-app_assoc.
Qed.

Lemma suffixed_inj base : Inj (=) (=) (suffixed base).
Proof.
  intros j k H. unfold suffixed in H.
  apply (inj (String.app base)) in H. apply (inj (String.app "-")) in H.
  by apply (inj pretty) in H.
Qed.

Lemma first_unused_fresh taken base fuel : ∀ k (V : gset string),
  size V ≤ fuel →
  (∀ j, k ≤ j → suffixed base j ∈ taken → suffixed base j ∈ V) →
  first_unused taken base k fuel ∉ taken.
Proof.
  induction fuel as [|fuel IH]; intros k V Hsz Hcov; simpl.
  - intros Hin. apply Hcov in Hin; [|lia].
    assert (V ≡ ∅) as HV by (apply size_empty_iff; lia).
    set_solver.
  - case_decide as Hk; [|done].
    apply (IH (S k) (V ∖ {[suffixed base k]})).
    + assert (suffixed base k ∈ V) as HV by (apply Hcov; [lia|done]).
      assert (size (V ∖ {[suffixed base k]}) = size V - 1) as ->.
      { rewrite size_difference by set_solver. by rewrite size_singleton. }
      assert (size V ≠ 0); [|lia].
      intros Hz%size_empty_iff. set_solver.
    + intros j Hj Hin. apply elem_of_difference. split; [apply Hcov; [lia|done]|].
      intros ->%elem_of_singleton%suffixed_inj. lia.
Qed.

Lemma disambiguate_fresh taken base : disambiguate taken base ∉ taken.
Proof.
  unfold disambiguate. case_decide; [|done].
  apply (first_unused_fresh _ _ _ _ taken); [done|auto].
Qed.


Lemma map_get_None k (m : JsMap) : map_get k m = None ↔ k ∉ m.*1.
Proof.
  induction m as [|[k' v] m IH]; simpl.
  - split; [intros _; apply not_elem_of_nil|done].
  - rewrite not_elem_of_cons. case_decide; naive_solver.
Qed.

Lemma map_get_Some_elem k n (m : JsMap) : map_get k m = Some n → (k, n) ∈ m.
Proof.
  induction m as [|[k' v] m IH]; simpl; [done|].
  case_decide; [intros [= ->]; subst; left|right; auto].
Qed.


Lemma map_has_true k (m : JsMap) : map_has k m = true ↔ k ∈ m.*1.
Proof.
  unfold map_has. rewrite bool_decide_eq_true.
  destruct (map_get k m) eqn:H.
  - split; [intros _|eauto]. destruct (decide (k ∈ m.*1)); [done|].
    apply map_get_None in n. congruence.
  - apply map_get_None in H. split; [by intros []|done].
Qed.

Lemma map_set_absent k v (m : JsMap) : k ∉ m.*1 → map_set k v m = m ++ [(k, v)].
Proof.
  induction m as [|[k' v'] m IH]; simpl; [done|].
  intros [? ?]%not_elem_of_cons. rewrite decide_False by done. by rewrite IH.
Qed.

Lemma map_get_app k (m1 m2 : JsMap) :
  map_get k (m1 ++ m2) = match map_get k m1 with Some n => Some n | None => map_get k m2 end.
Proof.
  induction m1 as [|[k' v'] m1 IH]; simpl; [done|]. by case_decide.
Qed.

(** *** The generator keeps names apart *)

Lemma gen_init_inv cfg : gen_inv cfg gen_init.
Proof.
  unfold gen_inv, gen_init; simpl. split_and!; try done.
  all: intros; set_solver.
Qed.

Lemma fresh_name_unused cfg g s :
  gen_inv cfg g → fresh_name env cfg g s ∉ used g.
Proof.
  intros (_&_&Hinc&_&_). unfold fresh_name.
  destruct (mode cfg) eqn:Hm; try apply disambiguate_fresh.
  intros (k&Hk&Heq)%Hinc; [|done].
  apply (inj (String.app (prefix cfg))) in Heq. apply (inj pretty) in Heq. lia.
Qed.

Lemma generateClassName_inv cfg g s :
  gen_inv cfg g → gen_inv cfg (generateClassName env cfg g s).2.
Proof.
  intros Hinv. unfold generateClassName.
  destruct (allocated g !! s) as [n|] eqn:Hs; [done|]. simpl.
  pose proof (fresh_name_unused cfg g s Hinv) as Hfresh.
  destruct Hinv as (Hused&Hinj&Hinc&Hsz&Hsu).
  split_and!; simpl.
  - intros s' n. rewrite lookup_insert. case_decide; [intros [= <-]|intros ?%Hused]; set_solver.
  - intros s1 s2 n. rewrite !lookup_insert.
    repeat case_decide; subst; try done.
    + intros [= <-] ?%Hused. done.
    + intros ?%Hused [= <-]. done.
    + apply Hinj.
  - intros Hm n [->%elem_of_singleton|Hn]%elem_of_union.
    + exists (counter g). split; [lia|]. unfold fresh_name. by rewrite Hm.
    + destruct (Hinc Hm n Hn) as (k&?&?). exists k. split; [lia|done].
  - rewrite map_size_insert_None by done. lia.
  - rewrite size_union by set_solver. rewrite size_singleton. lia.
Qed.

Lemma generateClassName_new cfg g s :
  allocated g !! s = None →
  generateClassName env cfg g s =
    (fresh_name env cfg g s,
     {| counter := S (counter g);
        allocated := <[s := fresh_name env cfg g s]> (allocated g);
        used := {[fresh_name env cfg g s]} ∪ used g |}).
Proof. intros H. unfold generateClassName. by rewrite H. Qed.

(** *** The processor's mapping mirrors the generator's table *)

Lemma new_processor_inv cfg dry : proc_inv (new_processor cfg dry).
Proof.
  unfold proc_inv, new_processor; simpl.
  split_and!; [apply gen_init_inv|constructor|done|done].
Qed.

Lemma reset_inv p : proc_inv (reset p).
Proof. apply (new_processor_inv (config p) (dryRun p)). Qed.

Lemma map_one_fields p c :
  config (map_one env p c) = config p ∧ dryRun (map_one env p c) = dryRun p.
Proof.
  unfold map_one. destruct (map_has c (mappings p)); [done|].
  by destruct (generateClassName env _ _ _).
Qed.

Lemma map_one_step p c :
  proc_inv p →
  (c ∈ (mappings p).*1 ∧ map_one env p c = p) ∨
  ((c ∉ (mappings p).*1) ∧
   mappings (map_one env p c) =
     mappings p ++ [(c, fresh_name env (config p) (classGenerator p) c)] ∧
   classGenerator (map_one env p c) =
     (generateClassName env (config p) (classGenerator p) c).2 ∧
   fresh_name env (config p) (classGenerator p) c ∉ used (classGenerator p)).
Proof.
  intros (Hg&Hnd&Hmir&Hlen). unfold map_one.
  destruct (map_has c (mappings p)) eqn:Hhas.
  - left. by apply map_has_true in Hhas.
  - right. assert (c ∉ (mappings p).*1) as Hc.
    { intros ?%map_has_true. congruence. }
    split; [done|].
    assert (allocated (classGenerator p) !! c = None) as Hnone.
    { rewrite <-Hmir. by apply map_get_None. }
    rewrite generateClassName_new by done. simpl.
    split_and!; [by apply map_set_absent|done|by apply fresh_name_unused].
Qed.

Lemma map_one_inv p c : proc_inv p → proc_inv (map_one env p c).
Proof.
  intros Hp. destruct (map_one_step p c Hp) as [[_ ->]|(Hc&Hm&Hgen&_)]; [done|].
  destruct (map_one_fields p c) as [Hcfg _].
  destruct Hp as (Hg&Hnd&Hmir&Hlen).
  assert (allocated (classGenerator p) !! c = None) as Hnone.
  { rewrite <-Hmir. by apply map_get_None. }
  unfold proc_inv. rewrite Hcfg, Hm, Hgen. split_and!.
  - by apply generateClassName_inv.
  - rewrite fmap_app. apply NoDup_app. split_and!; [done| |apply NoDup_singleton].
    simpl. intros x Hx ->%list_elem_of_singleton. done.
  - intros c'. rewrite generateClassName_new by done. simpl.
    rewrite map_get_app, lookup_insert. simpl.
    destruct (decide (c = c')) as [<-|Hcc].
    + by rewrite (proj2 (map_get_None c _) Hc).
    + rewrite Hmir. by destruct (allocated _ !! c').
  - rewrite generateClassName_new by done. simpl. rewrite length_app. simpl. lia.
Qed.


Lemma foldl_map_one_inv cs : ∀ p, proc_inv p → proc_inv (foldl (map_one env) p cs).
Proof. induction cs as [|c cs IH]; intros p Hp; simpl; [done|]. by apply IH, map_one_inv. Qed.

Lemma map_one_keys p c :
  proc_inv p → (mappings (map_one env p c)).*1 = set_add c (mappings p).*1.
Proof.
  intros Hp. unfold set_add.
  destruct (map_one_step p c Hp) as [[Hc ->]|(Hc&->&_)].
  - by rewrite decide_True.
  - rewrite decide_False by done. by rewrite fmap_app.
Qed.

Lemma foldl_map_one_keys cs : ∀ p,
  proc_inv p → (mappings (foldl (map_one env) p cs)).*1 = add_all cs (mappings p).*1.
Proof.
  induction cs as [|c cs IH]; intros p Hp; simpl; [done|].
  rewrite IH by by apply map_one_inv. by rewrite map_one_keys.
Qed.

Lemma map_one_keeps p c a n :
  proc_inv p → map_get a (mappings p) = Some n →
  map_get a (mappings (map_one env p c)) = Some n.
Proof.
  intros Hp Ha. destruct (map_one_step p c Hp) as [[_ ->]|(_&->&_)]; [done|].
  rewrite map_get_app. by rewrite Ha.
Qed.

Lemma foldl_map_one_keeps cs : ∀ p a n,
  proc_inv p → map_get a (mappings p) = Some n →
  map_get a (mappings (foldl (map_one env) p cs)) = Some n.
Proof.
  induction cs as [|c cs IH]; intros p a n Hp Ha; simpl; [done|].
  apply IH; [by apply map_one_inv|by apply map_one_keeps].
Qed.

Lemma collect_from_spec rs : ∀ acc,
  let s := foldl (λ acc r, add_all (classNames r) acc) acc rs in
  (NoDup acc → NoDup s) ∧ acc `prefix_of` s ∧
  (∀ c, c ∈ s ↔ c ∈ acc ∨ ∃ r, r ∈ rs ∧ c ∈ classNames r).
Proof.
  induction rs as [|r rs IH]; intros acc; simpl.
  - split_and!; [done|done|]. intros c. split; [auto|].
    intros [?|(?&[]%elem_of_nil&_)]. done.
  - destruct (IH (add_all (classNames r) acc)) as (H1&H2&H3). split_and!.
    + intros ?. by apply H1, add_all_NoDup.
    + etrans; [apply (add_all_prefix (classNames r))|done].
    + intros c. rewrite H3, add_all_elem. split.
      * intros [[?|?]|(r'&?&?)]; [right; exists r|by left|right; exists r'];
          rewrite elem_of_cons; auto.
      * intros [?|(r'&[->|?]%elem_of_cons&?)]; [auto|auto|].
        right. by exists r'.
Qed.

Lemma collect_elem rs c : c ∈ collect rs ↔ ∃ r, r ∈ rs ∧ c ∈ classNames r.
Proof.
  unfold collect. destruct (collect_from_spec rs []) as (_&_&H).
  rewrite H. split; [intros [[]%elem_of_nil|?]; done|auto].
Qed.

Lemma collect_NoDup rs : NoDup (collect rs).
Proof. apply (collect_from_spec rs []). constructor. Qed.

Lemma collect_app rs1 rs2 : ∃ more, collect (rs1 ++ rs2) = collect rs1 ++ more.
Proof.
  unfold collect. rewrite foldl_app.
  destruct (collect_from_spec rs2 (foldl (λ acc r, add_all (classNames r) acc) [] rs1))
    as (_&[more ->]&_). by exists more.
Qed.

Lemma generateMappings_inv p rs : proc_inv p → proc_inv (generateMappings env p rs).
Proof. apply foldl_map_one_inv. Qed.

Lemma proc_inv_injective p a b n :
  proc_inv p → map_get a (mappings p) = Some n → map_get b (mappings p) = Some n → a = b.
Proof.
  intros ((_&Hinj&_)&_&Hmir&_). rewrite !Hmir. apply Hinj.
Qed.

(** *** Canonical forms *)

Lemma rev_app_no_space s1 : ∀ s2,
  no_space s1 → no_space s2 → no_space (String.rev_app s1 s2).
Proof.
  induction s1 as [|c s1 IH]; intros s2; simpl; [done|].
  intros [Hc H1] H2. by apply IH.
Qed.

Lemma rev_app_length s1 : ∀ s2,
  String.length (String.rev_app s1 s2) = String.length s1 + String.length s2.
Proof.
  induction s1 as [|c s1 IH]; intros s2; simpl; [done|]. rewrite IH. simpl. lia.
Qed.

Lemma drop_space_no_space s : no_space s → drop_space s = s.
Proof. destruct s as [|c s]; simpl; [done|]. by intros [-> _]. Qed.

Lemma trim_length_no_space s : no_space s → String.length (trim s) = String.length s.
Proof.
  intros Hs. unfold trim. rewrite (drop_space_no_space s) by done.
  rewrite drop_space_no_space by by apply rev_app_no_space.
  unfold String.rev. rewrite !rev_app_length. simpl. lia.
Qed.

Lemma split_go_no_space s : ∀ cur in_run,
  no_space cur → Forall no_space (split_go cur in_run s).
Proof.
  induction s as [|c s IH]; intros cur in_run Hcur; simpl.
  - repeat constructor. by apply rev_app_no_space.
  - destruct (js_space c) eqn:Hc.
    + destruct in_run; [by apply IH|].
      constructor; [by apply rev_app_no_space|by apply IH].
    + by apply IH.
Qed.

Lemma normalized_tokens s : normalized s = join " " (js_sort (tokens s)).
Proof.
  unfold normalized, tokens. do 2 f_equal.
  assert (Forall no_space (split_ws s)) as H by by apply split_go_no_space.
  induction H as [|p ps Hp _ IH]; [done|].
  rewrite !filter_cons, IH, (trim_length_no_space p Hp). done.
Qed.

Lemma js_sort_sorted l : Sorted String.le (js_sort l) ∧ js_sort l ≡ₚ l.
Proof. split; [apply (Sorted_merge_sort _)|apply merge_sort_Permutation]. Qed.

Lemma js_sort_perm l1 l2 : l1 ≡ₚ l2 → js_sort l1 = js_sort l2.
Proof.
  intros H. apply (Sorted_unique String.le); try apply js_sort_sorted.
  by rewrite !(proj2 (js_sort_sorted _)).
Qed.

Lemma normalized_perm a b : tokens a ≡ₚ tokens b → normalized a = normalized b.
Proof. intros H. rewrite !normalized_tokens. f_equal. by apply js_sort_perm. Qed.

(** *** One rule for each canonical form *)

Lemma first_of_form_cons e (m : JsMap) k :
  first_of_form (e :: m) k =
    if decide (normalized e.1 = k) then Some e else first_of_form m k.
Proof.
  unfold first_of_form. simpl. case_decide; [done|].
  by destruct (list_find _ m) as [[??]|].
Qed.

Lemma seen_fold_spec (m : JsMap) : ∀ acc k cm,
  (k, cm) ∈ foldl seen_step acc m ↔
  (k, cm) ∈ acc ∨
  ((k ∉ acc.*1) ∧ ∃ e, first_of_form m k = Some e ∧ cm = to_rule e).
Proof.
  induction m as [|e m IH]; intros acc k cm; simpl.
  - split; [auto|]. intros [?|(_&?&He&_)]; [done|by cbv in He].
  - rewrite IH, first_of_form_cons.
    destruct (decide (normalized e.1 ∈ acc.*1)) as [Hin|Hnin].
    + replace (seen_step acc e) with acc
        by (unfold seen_step; by rewrite decide_True).
      split; (intros [?|(Hk&e'&He'&->)]; [by left|right; split; [done|]; exists e'; split; [|done]]).
      * rewrite decide_False; [done|]. intros <-. done.
      * rewrite decide_False in He'; [done|]. intros <-. done.
    + replace (seen_step acc e) with (acc ++ [(normalized e.1, to_rule e)])
        by (unfold seen_step; by rewrite decide_False).
      rewrite fmap_app. simpl. split.
      * intros [[?|[= -> ->]%list_elem_of_singleton]%elem_of_app|(Hk&e'&He'&->)].
        -- by left.
        -- right. split; [done|]. exists e. by rewrite decide_True.
        -- right. apply not_elem_of_app in Hk as [Hk1 Hk2].
           split; [done|]. exists e'. split; [|done].
           rewrite decide_False; [done|]. intros <-. apply Hk2. left.
      * intros [?|(Hk&e'&He'&->)]; [left; apply elem_of_app; by left|].
        destruct (decide (normalized e.1 = k)) as [<-|Hne].
        -- injection He' as <-. left. apply elem_of_app. right. by left.
        -- right. split; [|by exists e'].
           apply not_elem_of_app. split; [done|].
           by intros ->%list_elem_of_singleton.
Qed.

Lemma seen_fold_keys (m : JsMap) : ∀ acc,
  NoDup acc.*1 → (∀ k cm, (k, cm) ∈ acc → k = normalized (original cm)) →
  NoDup (foldl seen_step acc m).*1 ∧
  (∀ k cm, (k, cm) ∈ foldl seen_step acc m → k = normalized (original cm)) ∧
  ∃ more, foldl seen_step acc m = acc ++ more ∧ more.*2 `sublist_of` (to_rule <$> m).
Proof.
  induction m as [|e m IH]; intros acc Hnd Hk; simpl.
  - split_and!; [done|done|]. exists []. by rewrite app_nil_r.
  - destruct (decide (normalized e.1 ∈ acc.*1)) as [Hin|Hnin].
    + replace (seen_step acc e) with acc
        by (unfold seen_step; by rewrite decide_True).
      destruct (IH acc Hnd Hk) as (H1&H2&more&H3&H4). split_and!; [done|done|].
      exists more. split; [done|]. by apply sublist_cons.
    + replace (seen_step acc e) with (acc ++ [(normalized e.1, to_rule e)])
        by (unfold seen_step; by rewrite decide_False).
      destruct (IH (acc ++ [(normalized e.1, to_rule e)])) as (H1&H2&more&H3&H4).
      * rewrite fmap_app. apply NoDup_app. split_and!; [done| |apply NoDup_singleton].
        simpl. by intros x Hx ->%list_elem_of_singleton.
      * intros k cm [?|[= -> ->]%list_elem_of_singleton]%elem_of_app; [by apply Hk|done].
      * split_and!; [done|done|]. exists (((normalized e.1, to_rule e)) :: more).
        split; [by rewrite H3, <-app_assoc|]. simpl. by apply sublist_skip.
Qed.

Lemma first_of_form_Some (m : JsMap) k e :
  first_of_form m k = Some e ↔
  ∃ i, m !! i = Some e ∧ normalized e.1 = k ∧
       ∀ j e', m !! j = Some e' → j < i → normalized e'.1 ≠ k.
Proof.
  unfold first_of_form. split.
  - destruct (list_find _ m) as [[i e']|] eqn:Hf; [|done].
    intros [= ->]. apply list_find_Some in Hf. by exists i.
  - intros (i&H1&H2&H3).
    assert (list_find (λ e, normalized e.1 = k) m = Some (i, e)) as ->; [|done].
    by apply list_find_Some.
Qed.

Lemma first_of_form_is_Some (m : JsMap) a n :
  (a, n) ∈ m → is_Some (first_of_form m (normalized a)).
Proof.
  intros Hin. unfold first_of_form.
  destruct (list_find_elem_of (λ e : string * string, normalized e.1 = normalized a)
              m (a, n) Hin eq_refl) as [[i e] ->].
  by eexists.
Qed.

Lemma filter_none {A} (P : A → Prop) `{∀ x, Decision (P x)} (l : list A) :
  (∀ x, x ∈ l → ¬ P x) → filter P l = [].
Proof.
  induction l as [|y l IH]; intros Hl; [done|].
  rewrite filter_cons_False by (apply Hl; left).
  apply IH. intros x Hx. apply Hl. by right.
Qed.


Lemma dedupe_elem (m : JsMap) cm :
  cm ∈ dedupe m ↔
  first_of_form m (normalized (original cm)) = Some (original cm, generated cm).
Proof.
  unfold dedupe. rewrite list_elem_of_fmap. split.
  - intros ([k cm']&->&Hin). simpl.
    apply seen_fold_spec in Hin as [[]%elem_of_nil|(_&e&He&->)].
    destruct e as [a n]. simpl.
    pose proof He as (_&_&<-&_)%first_of_form_Some. done.
  - intros H. exists (normalized (original cm), cm). split; [done|].
    apply seen_fold_spec. right. split; [apply not_elem_of_nil|].
    eexists. split; [done|]. by destruct cm.
Qed.

Lemma dedupe_covers (m : JsMap) a :
  a ∈ m.*1 → ∃ cm, cm ∈ dedupe m ∧ normalized (original cm) = normalized a.
Proof.
  intros ([a' n]&->&Hin)%list_elem_of_fmap. simpl.
  destruct (first_of_form_is_Some m a' n Hin) as [[b nb] He].
  pose proof He as (_&_&Hb&_)%first_of_form_Some. simpl in Hb.
  exists (to_rule (b, nb)). split; [|done].
  apply dedupe_elem. simpl. by rewrite Hb.
Qed.
(** *** What each step does to the disk and to the trace *)

Lemma replace_calls_app tr1 tr2 :
  replace_calls (tr1 ++ tr2) = replace_calls tr1 ++ replace_calls tr2.
Proof. apply omap_app. Qed.

Lemma css_calls_app tr1 tr2 : css_calls (tr1 ++ tr2) = css_calls tr1 ++ css_calls tr2.
Proof. apply omap_app. Qed.

Lemma steps_refl w : steps w w [] [].
Proof. unfold steps. by rewrite !app_nil_r. Qed.

Lemma steps_trans w1 w2 w3 rc1 rc2 cc1 cc2 :
  steps w1 w2 rc1 cc1 → steps w2 w3 rc2 cc2 → steps w1 w3 (rc1 ++ rc2) (cc1 ++ cc2).
Proof.
  intros (H1&H2&H3&H4) (G1&G2&G3&G4). unfold steps.
  rewrite G1, G3, G4, H1, H3, H4, !app_assoc. split_and!; try done. by etrans.
Qed.

Lemma steps_emit e w :
  steps w (emit e w) (replace_calls [e]) (css_calls [e]).
Proof.
  unfold steps, emit; simpl. rewrite replace_calls_app, css_calls_app.
  split_and!; try done. by apply prefix_app_r.
Qed.

Lemma steps_emit_quiet e w :
  replace_calls [e] = [] → css_calls [e] = [] → steps w (emit e w) [] [].
Proof. intros H1 H2. rewrite <-H1 at 1. rewrite <-H2. apply steps_emit. Qed.

Lemma steps_then_emit e w w1 rc cc :
  replace_calls [e] = [] → css_calls [e] = [] →
  steps w w1 rc cc → steps w (emit e w1) rc cc.
Proof.
  intros H1 H2 Hs. rewrite <-(app_nil_r rc), <-(app_nil_r cc).
  eapply steps_trans; [done|]. by apply steps_emit_quiet.
Qed.

Lemma steps_after_emit e w w1 rc cc :
  steps (emit e w) w1 rc cc →
  steps w w1 (replace_calls [e] ++ rc) (css_calls [e] ++ cc).
Proof. intros Hs. eapply steps_trans; [apply steps_emit|done]. Qed.

Lemma write_file_inv path data w :
  (path ∈ unwritable w ∧ write_file path data w = inl (WriteError path)) ∨
  ((path ∉ unwritable w) ∧ ∃ w', write_file path data w = inr w' ∧
     steps w w' [] [] ∧ files w' = <[path := data]> (files w)).
Proof.
  unfold write_file. case_decide; [by left|right]. split; [done|].
  eexists. split; [done|]. split; [|done].
  unfold steps; simpl. by rewrite !app_nil_r.
Qed.

Lemma replace_spec path m dry w :
  let '(w', r) := replaceClassNamesInFile env path m dry w in
  steps w w' [] [] ∧
  (dry = true → files w' = files w) ∧
  (is_Some r → files w' = files w) ∧
  (∀ f, f ≠ path → files w' !! f = files w !! f).
Proof.
  unfold replaceClassNamesInFile.
  destruct (files w !! path) as [content|]; [|by split; [apply steps_refl|]].
  destruct (parse env _ content) as [occs|reason]; [|by split; [apply steps_refl|]].
  destruct dry.
  - split; [by apply steps_emit_quiet|done].
  - destruct (write_file_inv path (text (rewrite env content occs m)) w)
      as [[_ ->]|(_&w'&->&Hs&Hf)].
    + by split; [apply steps_refl|].
    + split; [done|]. split_and!; [done|by intros []|].
      intros f Hf'. by rewrite Hf, lookup_insert_ne.
Qed.

Lemma update_spec p r w :
  let w' := updateSourceFile env p r w in
  steps w w' (update_call p r) [] ∧
  (dryRun p = true → files w' = files w) ∧
  (∀ f, f ≠ filePath r → files w' !! f = files w !! f).
Proof.
  unfold updateSourceFile, update_call, has_classes.
  case_bool_decide as Hc.
  2:{ rewrite decide_False by done. by split; [apply steps_refl|]. }
  rewrite decide_True by done.
  pose proof (replace_spec (filePath r) (mappings p) (dryRun p)
    (emit (CallReplace (filePath r) (mappings p) (dryRun p)) w)) as H.
  destruct (replaceClassNamesInFile _ _ _ _ _) as [w1 [e|]];
    destruct H as (Hs&Hd&He&Hf); (split; [|split; [intros Hdry; by apply Hd|done]]).
  - do 2 (apply steps_then_emit; [done..|]). by apply steps_after_emit in Hs.
  - apply steps_then_emit; [done..|]. by apply steps_after_emit in Hs.
Qed.

Lemma update_all_spec p rs : ∀ w,
  let w' := foldl (λ w r, updateSourceFile env p r w) w rs in
  steps w w' (rs ≫= update_call p) [] ∧
  (dryRun p = true → files w' = files w) ∧
  (∀ f, f ∉ filePath <$> rs → files w' !! f = files w !! f).
Proof.
  induction rs as [|r rs IH]; intros w; simpl.
  - by split; [apply steps_refl|].
  - destruct (IH (updateSourceFile env p r w)) as (Hs&Hd&Hf).
    destruct (update_spec p r w) as (Hs'&Hd'&Hf').
    split_and!.
    + exact (steps_trans _ _ _ _ _ [] [] Hs' Hs).
    + intros Hdry. by rewrite Hd, Hd'.
    + intros f [Hf1 Hf2]%not_elem_of_cons. by rewrite Hf, Hf'.
Qed.

Lemma report_failed_spec w r : steps w (report_failed w r) [] [] ∧
  files (report_failed w r) = files w.
Proof.
  unfold report_failed. destruct (error r) as [reason|]; [|by split; [apply steps_refl|]].
  case_decide; (split; [|done]); [apply steps_refl|by apply steps_emit_quiet].
Qed.

Lemma report_all_spec rs : ∀ w,
  steps w (foldl report_failed w rs) [] [] ∧ files (foldl report_failed w rs) = files w.
Proof.
  induction rs as [|r rs IH]; intros w; simpl; [by split; [apply steps_refl|]|].
  destruct (IH (report_failed w r)) as [Hs Hf].
  destruct (report_failed_spec w r) as [Hs' Hf']. split.
  - exact (steps_trans _ _ _ [] [] [] [] Hs' Hs).
  - by rewrite Hf, Hf'.
Qed.

Lemma generateCSSFile_spec p w :
  let '(w', r) := generateCSSFile env p w in
  steps w w' [] (css_call p) ∧
  (dryRun p = true →
     files w' = files w ∧ r = None ∧ InfoDryRunCSS (output (config p)) ∈ trace w') ∧
  (r = None ∨ r = Some (WriteError (output (config p)))) ∧
  (is_Some r ↔ dryRun p = false ∧ output (config p) ∈ unwritable w) ∧
  (is_Some r → files w' = files w) ∧
  (∀ f, f ≠ output (config p) → files w' !! f = files w !! f).
Proof.
  unfold generateCSSFile, css_call. destruct (dryRun p) eqn:Hdry.
  - split_and!; [by apply steps_emit_quiet| |by left| |by intros []|done].
    + intros _. split_and!; [done|done|]. simpl. apply elem_of_app. right. left.
    + split; [by intros []|by intros []].
  - unfold generateCSS.
    set (css := list_ascii_of_string _).
    set (w0 := emit _ w).
    destruct (write_file_inv (output (config p)) css w0) as [[Hu ->]|(Hu&w'&->&Hs&Hf)].
    + split_and!; [apply steps_emit|done|by right| |done|done].
      split; [intros _; by split|by eexists].
    + split_and!; [|done|by left| |by intros []|].
      * apply (steps_after_emit _ _ _ [] []) in Hs. simpl in Hs. done.
      * split; [by intros []|]. intros [_ ?]. done.
      * intros f Hne. rewrite Hf. by rewrite lookup_insert_ne.
Qed.

Lemma foldl_map_one_fields cs : ∀ p,
  config (foldl (map_one env) p cs) = config p ∧
  dryRun (foldl (map_one env) p cs) = dryRun p.
Proof.
  induction cs as [|c cs IH]; intros p; simpl; [done|].
  destruct (IH (map_one env p c)) as [-> ->]. apply map_one_fields.
Qed.

Lemma generateMappings_fields p rs :
  config (generateMappings env p rs) = config p ∧
  dryRun (generateMappings env p rs) = dryRun p.
Proof. apply foldl_map_one_fields. Qed.

(** The run from the parse results on, step by step. *)
Lemma process_parsed_spec p rs w :
  let p' := generateMappings env p (succeeded rs) in
  ∃ w' r, process_parsed env p rs w = (p', w', r) ∧
  steps w w' (succeeded rs ≫= update_call p') (css_call p') ∧
  (dryRun p = true →
     files w' = files w ∧ r = None ∧ InfoDryRunCSS (output (config p)) ∈ trace w') ∧
  (r = None ∨ r = Some (WriteError (output (config p)))) ∧
  (is_Some r ↔ dryRun p = false ∧ output (config p) ∈ unwritable w) ∧
  (∀ f, f ∉ filePath <$> succeeded rs → f ≠ output (config p) →
     files w' !! f = files w !! f).
Proof.
  intros p'. unfold process_parsed. fold (succeeded rs). fold p'.
  destruct (generateMappings_fields p (succeeded rs)) as [Hcfg Hdry].
  fold p' in Hcfg, Hdry.
  set (wr := if bool_decide _ then _ else w).
  assert (steps w wr [] [] ∧ files wr = files w) as [Hwr Hfr].
  { unfold wr. case_bool_decide; [|by split; [apply steps_refl|]].
    destruct (report_all_spec (filter (λ r, success r = false) rs)
                (emit (WarnParseFailures
                   (length (filter (λ r, success r = false) rs))) w)) as [Hs ->].
    split; [|done]. by apply (steps_after_emit _ _ _ [] []) in Hs. }
  destruct (update_all_spec p' (succeeded rs) wr) as (Hu&Hud&Huf).
  set (wu := foldl _ wr (succeeded rs)) in *.
  pose proof (generateCSSFile_spec p' wu) as Hc.
  pose proof (steps_trans _ _ _ _ _ _ _ Hwr Hu) as Hwu. simpl in Hwu.
  destruct (generateCSSFile env p' wu) as [wc [e|]];
    destruct Hc as (Hs&Hcd&Hr&Hsome&Hfail&Hother).
  - eexists _, _. split; [done|].
    pose proof (steps_trans _ _ _ _ _ _ _ Hwu Hs) as Hwc.
    rewrite app_nil_r in Hwc. simpl in Hwc.
    split_and!.
    + by apply steps_then_emit.
    + intros Hd. rewrite <-Hdry in Hd. by destruct (Hcd Hd) as (_&?&_).
    + by rewrite <-Hcfg.
    + rewrite <-Hcfg, <-Hdry, Hsome. by destruct Hwu as (->&_).
    + intros f Hf1 Hf2. simpl. rewrite Hother by by rewrite Hcfg.
      by rewrite Huf, Hfr.
  - pose proof (steps_trans _ _ _ _ _ _ _ Hwu Hs) as Hwc.
    rewrite app_nil_r in Hwc. simpl in Hwc.
    eexists _, _. split; [done|]. split_and!.
    + apply steps_then_emit; [done..|]. destruct (dryRun p'); [|done].
      by apply steps_then_emit.
    + intros Hd. rewrite <-Hdry in Hd. destruct (Hcd Hd) as (Hf&_&Hin).
      rewrite Hd. simpl. split_and!; [by rewrite Hf, Hud, Hfr|done|].
      rewrite <-Hcfg. apply elem_of_app. left. apply elem_of_app. by left.
    + by left.
    + rewrite <-Hcfg, <-Hdry, Hsome. by destruct Hwu as (->&_).
    + intros f Hf1 Hf2. simpl.
      assert (files (if dryRun p' then emit (InfoDryRunSummary
         (filePath <$> filter (λ r, 0 < length (classNames r)) (succeeded rs))) wc
          else wc) = files wc) as Hfiles by by destruct (dryRun p').
      rewrite Hfiles, Hother by by rewrite Hcfg.
      by rewrite Huf, Hfr.
Qed.
(** *** The disk decides what a step does; the trace only records it *)

Lemma same_disk_emit e1 w1 w2 : same_disk w1 w2 → same_disk (emit e1 w1) w2.
Proof. done. Qed.

Lemma same_disk_sym w1 w2 : same_disk w1 w2 → same_disk w2 w1.
Proof. intros [H1 H2]. by split. Qed.

Lemma same_disk_trans w1 w2 w3 : same_disk w1 w2 → same_disk w2 w3 → same_disk w1 w3.
Proof. intros [H1 H2] [G1 G2]. split; congruence. Qed.

Lemma write_file_same_disk path data w1 w2 :
  same_disk w1 w2 →
  match write_file path data w1, write_file path data w2 with
  | inl e1, inl e2 => e1 = e2
  | inr w1', inr w2' => same_disk w1' w2'
  | _, _ => False
  end.
Proof.
  intros [Hf Hu]. unfold write_file. rewrite Hu.
  case_decide; [done|]. split; simpl; by rewrite ?Hf.
Qed.

Lemma replace_same_disk path m dry w1 w2 :
  same_disk w1 w2 →
  same_disk (replaceClassNamesInFile env path m dry w1).1
            (replaceClassNamesInFile env path m dry w2).1 ∧
  (replaceClassNamesInFile env path m dry w1).2 =
  (replaceClassNamesInFile env path m dry w2).2.
Proof.
  intros Hd. pose proof Hd as [Hf Hu]. unfold replaceClassNamesInFile. rewrite Hf.
  destruct (files w2 !! path) as [content|]; [|done].
  destruct (parse env _ content) as [occs|reason]; [|done].
  destruct dry; [done|].
  pose proof (write_file_same_disk path (text (rewrite env content occs m)) w1 w2 Hd) as H.
  destruct (write_file _ _ w1), (write_file _ _ w2); simpl; try done. by subst.
Qed.

Lemma update_same_disk p r w1 w2 :
  same_disk w1 w2 →
  same_disk (updateSourceFile env p r w1) (updateSourceFile env p r w2).
Proof.
  intros Hd. unfold updateSourceFile. case_bool_decide; [|done].
  destruct (replace_same_disk (filePath r) (mappings p) (dryRun p)
    (emit (CallReplace (filePath r) (mappings p) (dryRun p)) w1)
    (emit (CallReplace (filePath r) (mappings p) (dryRun p)) w2)) as [H1 H2]; [done|].
  destruct (replaceClassNamesInFile _ _ _ _ (emit _ w1)) as [w1' r1],
           (replaceClassNamesInFile _ _ _ _ (emit _ w2)) as [w2' r2].
  simpl in *. subst r2. by destruct r1.
Qed.

Lemma update_all_same_disk p rs : ∀ w1 w2,
  same_disk w1 w2 →
  same_disk (foldl (λ w r, updateSourceFile env p r w) w1 rs)
            (foldl (λ w r, updateSourceFile env p r w) w2 rs).
Proof.
  induction rs as [|r rs IH]; intros w1 w2 Hd; simpl; [done|].
  by apply IH, update_same_disk.
Qed.

Lemma generateCSSFile_same_disk p w1 w2 :
  same_disk w1 w2 →
  same_disk (generateCSSFile env p w1).1 (generateCSSFile env p w2).1 ∧
  (generateCSSFile env p w1).2 = (generateCSSFile env p w2).2.
Proof.
  intros Hd. unfold generateCSSFile. destruct (dryRun p); [done|]. unfold generateCSS.
  set (css := list_ascii_of_string _). set (e := CallGenerateCSS _ _ _).
  pose proof (write_file_same_disk (output (config p)) css (emit e w1) (emit e w2) Hd) as H.
  destruct (write_file _ _ (emit e w1)), (write_file _ _ (emit e w2));
    simpl; try done. by subst.
Qed.

Lemma report_all_same_disk rs w : same_disk (foldl report_failed w rs) w.
Proof. split; [apply report_all_spec|apply (report_all_spec rs w)]. Qed.

Lemma succeeded_idemp rs : succeeded (succeeded rs) = succeeded rs.
Proof.
  unfold succeeded. rewrite list_filter_filter. apply list_filter_iff. naive_solver.
Qed.

Lemma failed_of_succeeded rs : filter (λ r, success r = false) (succeeded rs) = [].
Proof.
  apply filter_none. intros r [Hs _]%list_elem_of_filter. by rewrite Hs.
Qed.

Lemma update_calls_fmap p rs :
  rs ≫= update_call p =
  (λ r, (filePath r, mappings p, dryRun p)) <$> filter has_classes rs.
Proof.
  induction rs as [|r rs IH]; [done|].
  rewrite bind_cons, filter_cons, IH. unfold update_call. by case_decide.
Qed.

Lemma process_parsed_failures_inert p rs w :
  let '(p1, w1, r1) := process_parsed env p rs w in
  let '(p2, w2, r2) := process_parsed env p (succeeded rs) w in
  p1 = p2 ∧ r1 = r2 ∧ same_disk w1 w2.
Proof.
  unfold process_parsed. fold (succeeded rs). fold (succeeded (succeeded rs)).
  rewrite succeeded_idemp, failed_of_succeeded. simpl.
  set (p' := generateMappings env p (succeeded rs)).
  set (wr := if bool_decide _ then _ else w).
  assert (same_disk wr w) as Hwr.
  { unfold wr. case_bool_decide; [|done].
    eapply same_disk_trans; [apply report_all_same_disk|done]. }
  pose proof (update_all_same_disk p' (succeeded rs) wr w Hwr) as Hu.
  destruct (generateCSSFile_same_disk p' _ _ Hu) as [Hc Hr].
  destruct (generateCSSFile env p' (foldl _ wr _)) as [w1 r1],
           (generateCSSFile env p' (foldl _ w _)) as [w2 r2].
  simpl in *. subst r2.
  destruct r1; (split_and!; [done..|]); [|destruct (dryRun p')]; exact Hc.
Qed.

Lemma glob_warnings_quiet (l : list string) :
  replace_calls (WarnGlobFailed <$> l) = [] ∧ css_calls (WarnGlobFailed <$> l) = [].
Proof. induction l as [|x l [IH1 IH2]]; [done|]. by split. Qed.

Lemma findFiles_steps cfg w :
  steps w (findFiles env cfg w).2 [] [] ∧ files (findFiles env cfg w).2 = files w.
Proof.
  destruct (findFiles_from_spec cfg (input cfg) [] w) as (_&_&Hf&Hu&Ht); [constructor|].
  unfold findFiles. split; [|done]. unfold steps. rewrite Hu, Ht.
  rewrite replace_calls_app, css_calls_app.
  destruct (glob_warnings_quiet (filter (λ p, glob env p (ignore cfg) = None)
                                   (input cfg))) as [-> ->].
  split_and!; [done|by apply prefix_app_r|done..].
Qed.

Lemma parseFile_path w f : filePath (parseFile env w f) = f.
Proof.
  unfold parseFile. destruct (files w !! f); [|done]. by destruct (parse _ _ _).
Qed.

Lemma parse_results_paths cfg w :
  filePath <$> parse_results env cfg w = found_files env cfg w.
Proof.
  unfold parse_results. rewrite <-list_fmap_compose.
  rewrite <-(list_fmap_id (found_files env cfg w)) at 2. apply list_fmap_ext.
  intros i f _. apply parseFile_path.
Qed.

Lemma process_unfold p w :
  process env p w =
  process_parsed env p (parse_results env (config p) w) (findFiles env (config p) w).2.
Proof.
  unfold process, parse_results, found_files. by destruct (findFiles env (config p) w).
Qed.

Lemma process_spec p w :
  let rs := succeeded (parse_results env (config p) w) in
  let p' := generateMappings env p rs in
  ∃ w' r, process env p w = (p', w', r) ∧
  steps w w' ((λ r, (filePath r, mappings p', dryRun p)) <$> filter has_classes rs)
    (css_call p') ∧
  (dryRun p = true →
     files w' = files w ∧ r = None ∧ InfoDryRunCSS (output (config p)) ∈ trace w') ∧
  (r = None ∨ r = Some (WriteError (output (config p)))) ∧
  (is_Some r ↔ dryRun p = false ∧ output (config p) ∈ unwritable w) ∧
  (∀ f, f ∉ filePath <$> rs → f ≠ output (config p) → files w' !! f = files w !! f).
Proof.
  intros rs p'. rewrite process_unfold.
  destruct (findFiles_steps (config p) w) as [Hs Hf].
  destruct (process_parsed_spec p (parse_results env (config p) w)
              (findFiles env (config p) w).2) as (w'&r&->&Hs'&Hd&Hr&Hsome&Hother).
  fold rs p' in Hs', Hother. exists w', r. split; [done|].
  rewrite update_calls_fmap in Hs'.
  destruct (generateMappings_fields p rs) as [_ Hdry]. fold p' in Hdry.
  rewrite Hdry in Hs'.
  pose proof (steps_trans _ _ _ _ _ _ _ Hs Hs') as Hall. simpl in Hall.
  split_and!; [done| |done| |].
  - intros Hdr. destruct (Hd Hdr) as (?&?&?). split_and!; [congruence|done|done].
  - rewrite Hsome. by destruct Hs as (->&_).
  - intros f H1 H2. by rewrite Hother, Hf.
Qed.

(** *** Each file is rewritten on its own *)

Lemma update_writes p r w content occs :
  has_classes r → dryRun p = false →
  files w !! filePath r = Some content →
  parse env (file_kind env (filePath r)) content = ParseOk occs →
  filePath r ∉ unwritable w →
  files (updateSourceFile env p r w) !! filePath r
    = Some (text (rewrite env content occs (mappings p))).
Proof.
  intros Hc Hdry Hf Hp Hu. unfold updateSourceFile.
  rewrite bool_decide_eq_true_2 by done.
  unfold replaceClassNamesInFile. simpl. rewrite Hf, Hp, Hdry.
  unfold write_file. simpl. rewrite decide_False by done. simpl.
  by rewrite lookup_insert_eq.
Qed.

Lemma update_all_writes p rs : ∀ w r content occs,
  NoDup (filePath <$> rs) → r ∈ rs →
  has_classes r → dryRun p = false →
  files w !! filePath r = Some content →
  parse env (file_kind env (filePath r)) content = ParseOk occs →
  filePath r ∉ unwritable w →
  files (foldl (λ w r, updateSourceFile env p r w) w rs) !! filePath r
    = Some (text (rewrite env content occs (mappings p))).
Proof.
  induction rs as [|r0 rs IH]; intros w r content occs Hnd Hin Hc Hdry Hf Hp Hu;
    [by apply elem_of_nil in Hin|].
  simpl in Hnd |- *. apply NoDup_cons in Hnd as [Hr0 Hnd].
  destruct (update_spec p r0 w) as ((Hun&_)&_&Hother).
  destruct (decide (filePath r = filePath r0)) as [Heq|Hne].
  - destruct (update_all_spec p rs (updateSourceFile env p r0 w)) as (_&_&Hrest).
    rewrite Hrest by by rewrite Heq.
    rewrite Heq in Hf, Hp, Hu |- *.
    assert (has_classes r0) as Hc0.
    { apply elem_of_cons in Hin as [->|Hin]; [done|].
      exfalso. apply Hr0. rewrite <-Heq. by apply list_elem_of_fmap_2. }
    by apply update_writes.
  - apply elem_of_cons in Hin as [->|Hin]; [done|].
    apply IH; [done..| |done|].
    + by rewrite Hother.
    + by rewrite Hun.
Qed.

Lemma parseFile_success w f :
  success (parseFile env w f) = true →
  ∃ content occs,
    files w !! f = Some content ∧
    parse env (file_kind env f) content = ParseOk occs ∧
    classNames (parseFile env w f) = safe_values occs.
Proof.
  unfold parseFile. destruct (files w !! f) as [content|]; [|done].
  destruct (parse env (file_kind env f) content) as [occs|] eqn:Hp; [|done].
  intros _. by exists content, occs.
Qed.

Lemma process_parsed_writes p rs w r content occs :
  NoDup (filePath <$> succeeded rs) → r ∈ succeeded rs →
  has_classes r → dryRun p = false →
  files w !! filePath r = Some content →
  parse env (file_kind env (filePath r)) content = ParseOk occs →
  filePath r ∉ unwritable w → filePath r ≠ output (config p) →
  files (process_parsed env p rs w).1.2 !! filePath r
    = Some (text (rewrite env content occs
                    (mappings (generateMappings env p (succeeded rs))))).
Proof.
  intros Hnd Hin Hc Hdry Hf Hp Hu Hout. unfold process_parsed. fold (succeeded rs).
  set (p' := generateMappings env p (succeeded rs)).
  destruct (generateMappings_fields p (succeeded rs)) as [Hcfg Hdry'].
  fold p' in Hcfg, Hdry'.
  set (wr := if bool_decide _ then _ else w).
  assert (same_disk wr w) as [Hfr Hur].
  { unfold wr. case_bool_decide; [|done].
    eapply same_disk_trans; [apply report_all_same_disk|done]. }
  pose proof (update_all_writes p' (succeeded rs) wr r content occs Hnd Hin Hc) as Hw.
  rewrite Hdry', Hfr, Hur in Hw. specialize (Hw Hdry Hf Hp Hu).
  set (wu := foldl _ wr (succeeded rs)) in *.
  pose proof (generateCSSFile_spec p' wu) as Hcss.
  destruct (generateCSSFile env p' wu) as [wc [e|]];
    destruct Hcss as (_&_&_&_&_&Hother); simpl.
  - rewrite Hother by by rewrite Hcfg. done.
  - assert (files (if dryRun p' then emit (InfoDryRunSummary
       (filePath <$> filter (λ r, 0 < length (classNames r)) (succeeded rs))) wc
        else wc) = files wc) as -> by by destruct (dryRun p').
    rewrite Hother by by rewrite Hcfg. done.
Qed.

(** In a run that writes, a file that was parsed, has class-strings and can
    be written ends up rewritten with the final mapping, whatever happened
    to the other files. *)
Lemma process_rewrites_each_file p w f :
  let r := parseFile env (findFiles env (config p) w).2 f in
  f ∈ found_files env (config p) w →
  success r = true → has_classes r → dryRun p = false →
  f ∉ unwritable w → f ≠ output (config p) →
  ∃ content occs,
    files w !! f = Some content ∧
    parse env (file_kind env f) content = ParseOk occs ∧
    files (process env p w).1.2 !! f
      = Some (text (rewrite env content occs (mappings (process env p w).1.1))).
Proof.
  intros r Hin Hs Hc Hdry Hu Hout.
  destruct (findFiles_from_spec (config p) (input (config p)) [] w)
    as (Hnd&_&Hfiles&Hunw&_); [constructor|].
  fold (findFiles env (config p) w) in Hnd, Hfiles, Hunw.
  destruct (parseFile_success _ _ Hs) as (content&occs&Hf&Hp&_).
  exists content, occs. rewrite <-Hfiles. split_and!; [done..|].
  assert (mappings (process env p w).1.1
          = mappings (generateMappings env p
                        (succeeded (parse_results env (config p) w)))) as ->.
  { by destruct (process_spec p w) as (w'&r'&->&_). }
  rewrite process_unfold.
  pose proof (process_parsed_writes p (parse_results env (config p) w)
                (findFiles env (config p) w).2 r content occs) as H.
  assert (filePath r = f) as Hr by apply parseFile_path.
  rewrite Hr in H. apply H; try done.
  - assert (filePath <$> succeeded (parse_results env (config p) w)
            `sublist_of` filePath <$> parse_results env (config p) w) as Hsub
      by apply fmap_sublist, sublist_filter.
    rewrite parse_results_paths in Hsub. by eapply sublist_NoDup.
  - unfold succeeded. apply list_elem_of_filter. split; [done|].
    unfold parse_results. by apply list_elem_of_fmap_2.
  - by rewrite Hunw.
Qed.

Lemma omap_cons_case {A B} (f : A → option B) x l :
  omap f (x :: l) = match f x with Some y => y :: omap f l | None => omap f l end.
Proof. done. Qed.

Lemma plan_nothing content m (l : list ClassOccurrence) :
  omap (λ o, if safe o then raw_value o else None) l = [] →
  omap (plan_one env content m) l = [].
Proof.
  induction l as [|o l IH]; [done|]. rewrite !omap_cons_case. unfold plan_one at 1.
  destruct (safe o); [|by apply IH].
  destruct (raw_value o) as [v|]; [done|]. by apply IH.
Qed.

(** *** Discovery *)


(** C10. [findFiles] returns every path matched by a pattern whose glob
    succeeded, each once, whatever the overlap between patterns; a pattern
    whose glob throws adds a warning and takes nothing away.  Hence the
    parse results are one per discovered file, and the rewriter is called
    at most once per file. *)
Theorem findFiles_no_duplicates p w :
  let cfg := config p in
  let found := found_files env cfg w in
  let w0 := (findFiles env cfg w).2 in
  NoDup found ∧
  (∀ f, f ∈ found ↔
     ∃ pattern ms, pattern ∈ input cfg ∧
       glob env pattern (ignore cfg) = Some ms ∧ f ∈ ms) ∧
  trace w0 = trace w ++
    (WarnGlobFailed <$> filter (λ pat, glob env pat (ignore cfg) = None) (input cfg)) ∧
  files w0 = files w ∧
  filePath <$> parse_results env cfg w = found ∧
  ∃ p' w' r calls,
    process env p w = (p', w', r) ∧
    replace_calls (trace w') = replace_calls (trace w) ++ calls ∧
    NoDup calls.*1.*1 ∧ calls.*1.*1 `sublist_of` found.
Proof.
  intros cfg found w0.
  destruct (findFiles_from_spec cfg (input cfg) [] w) as (Hnd&Hin&Hf&_&Ht);
    [constructor|].
  pose proof (parse_results_paths cfg w) as Hpaths. fold found in Hpaths.
  split_and!; [done| |done|done|done|].
  - intros f. unfold found, found_files, findFiles. rewrite (Hin f). split; [|auto].
    by intros [[]%elem_of_nil|?].
  - destruct (process_spec p w) as (w'&r&Hp&(_&_&Hrc&_)&_).
    eexists _, _, _, _. split; [done|]. split; [done|].
    rewrite <-!list_fmap_compose.
    assert ((fst ∘ fst ∘ λ r0 : ParseResult,
              (filePath r0, mappings (generateMappings env p
                 (succeeded (parse_results env (config p) w))), dryRun p))
              <$> filter has_classes (succeeded (parse_results env (config p) w))
            `sublist_of` found) as Hsub.
    { rewrite <-Hpaths. fold cfg.
      change (fst ∘ fst ∘ _) with filePath.
      apply fmap_sublist. unfold succeeded. etrans; apply sublist_filter. }
    split; [|done]. by eapply sublist_NoDup.
Qed.

(** *** Dry run *)

(** C5. With the dry-run flag set the run writes nothing: the files are as
    they were, the stylesheet writer is never called and the step returns
    after reporting the destination, and every call to the rewriter carries
    the flag, under which the rewriter changes no file. *)
Theorem dry_run_writes_nothing p w :
  dryRun p = true →
  ∃ p' w',
    process env p w = (p', w', None) ∧
    files w' = files w ∧
    css_calls (trace w') = css_calls (trace w) ∧
    InfoDryRunCSS (output (config p)) ∈ trace w' ∧
    replace_calls (trace w') =
      replace_calls (trace w) ++
      ((λ r, (filePath r, mappings p', true)) <$>
         filter has_classes (succeeded (parse_results env (config p) w))) ∧
    (∀ path m w0, files (replaceClassNamesInFile env path m true w0).1 = files w0) ∧
    (∀ w0, generateCSSFile env p w0 = (emit (InfoDryRunCSS (output (config p))) w0, None)).
Proof.
  intros Hdry. destruct (process_spec p w) as (w'&r&Hp&(_&_&Hrc&Hcc)&Hd&_).
  destruct (Hd Hdry) as (Hf&->&Hin). eexists _, _. split; [done|].
  destruct (generateMappings_fields p (succeeded (parse_results env (config p) w)))
    as [_ Hdry'].
  split_and!; [done| |done| | |].
  - rewrite Hcc. unfold css_call. rewrite Hdry', Hdry. apply app_nil_r.
  - by rewrite Hrc, Hdry.
  - intros path m w0.
    pose proof (replace_spec path m true w0) as H.
    destruct (replaceClassNamesInFile _ _ _ _ _) as [w1 r1]. simpl.
    destruct H as (_&H&_). by apply H.
  - intros w0. unfold generateCSSFile. by rewrite Hdry.
Qed.

(** *** Failures *)

Lemma main_spec cfg dry w :
  ((main env cfg dry w).2 = 1 ↔
     is_Some (validateConfig env cfg) ∨ (dry = false ∧ output cfg ∈ unwritable w)) ∧
  ((main env cfg dry w).2 = 0 ∨ (main env cfg dry w).2 = 1) ∧
  (is_Some (validateConfig env cfg) →
     files (main env cfg dry w).1 = files w ∧
     replace_calls (trace (main env cfg dry w).1) = replace_calls (trace w) ∧
     css_calls (trace (main env cfg dry w).1) = css_calls (trace w)).
Proof.
  unfold main. destruct (validateConfig env cfg) as [reason|] eqn:Hv.
  - simpl. split_and!; [split; [intros _; left; by eexists|done]|by right|].
    intros _. unfold emit; simpl.
    by rewrite replace_calls_app, css_calls_app, !app_nil_r.
  - destruct (process_spec (new_processor cfg dry) w) as (w'&r&->&_&_&_&Hsome&_).
    simpl in Hsome. destruct r as [e|]; simpl.
    + split_and!; [|by right|by intros []].
      split; [intros _; right; apply Hsome; by eexists|done].
    + split_and!; [|by left|by intros []].
      split; [done|]. intros [[]|H%Hsome]; [done|by destruct H].
Qed.

(** C6. A failure inside one file stays in that file: [updateSourceFile]
    catches what the rewriter throws, reports it and returns, so the
    rewriter is still called for every other file and the stylesheet step
    is still reached; in a run that writes, every file that was parsed, has
    class-strings and can be written ends up rewritten with the final
    mapping, whichever other files failed.  [process] throws only when the stylesheet cannot be
    written, and then with that write error; [main] exits with status 1
    only for an invalid configuration, before any processing, or for that
    write error. *)
Theorem per_file_errors_do_not_abort p w :
  (∃ p' w' r,
     process env p w = (p', w', r) ∧
     replace_calls (trace w') =
       replace_calls (trace w) ++
       ((λ r, (filePath r, mappings p', dryRun p)) <$>
          filter has_classes (succeeded (parse_results env (config p) w))) ∧
     css_calls (trace w') =
       css_calls (trace w) ++
       (if dryRun p then []
        else [(dedupe (mappings p'), output (config p), cssCompressor (config p))]) ∧
     (r = None ∨ r = Some (WriteError (output (config p)))) ∧
     (is_Some r ↔ dryRun p = false ∧ output (config p) ∈ unwritable w) ∧
     (∀ f, f ∈ found_files env (config p) w →
        success (parseFile env (findFiles env (config p) w).2 f) = true →
        has_classes (parseFile env (findFiles env (config p) w).2 f) →
        dryRun p = false → f ∉ unwritable w → f ≠ output (config p) →
        ∃ content occs,
          files w !! f = Some content ∧
          parse env (file_kind env f) content = ParseOk occs ∧
          files w' !! f = Some (text (rewrite env content occs (mappings p'))))) ∧
  (∀ r0 w0 w1 e,
     has_classes r0 →
     replaceClassNamesInFile env (filePath r0) (mappings p) (dryRun p)
       (emit (CallReplace (filePath r0) (mappings p) (dryRun p)) w0) = (w1, Some e) →
     updateSourceFile env p r0 w0 =
       emit (Stdout "✗") (emit (ErrorUpdateFailed (filePath r0) e) w1) ∧
     files (updateSourceFile env p r0 w0) = files w0) ∧
  (∀ cfg dry w0,
     ((main env cfg dry w0).2 = 1 ↔
        is_Some (validateConfig env cfg) ∨
        (dry = false ∧ output cfg ∈ unwritable w0)) ∧
     ((main env cfg dry w0).2 = 0 ∨ (main env cfg dry w0).2 = 1) ∧
     (is_Some (validateConfig env cfg) →
        files (main env cfg dry w0).1 = files w0 ∧
        replace_calls (trace (main env cfg dry w0).1) = replace_calls (trace w0) ∧
        css_calls (trace (main env cfg dry w0).1) = css_calls (trace w0))).
Proof.
  split_and!.
  - destruct (process_spec p w) as (w'&r&Hp&(_&_&Hrc&Hcc)&_&Hr&Hsome&_).
    eexists _, _, _. split; [done|]. split_and!; [done| |done|done|].
    + rewrite Hcc. unfold css_call.
      by destruct (generateMappings_fields p
                     (succeeded (parse_results env (config p) w))) as [-> ->].
    + intros f Hin Hs Hc Hdry Hu Hout.
      pose proof (process_rewrites_each_file p w f Hin Hs Hc Hdry Hu Hout) as H.
      by rewrite Hp in H.
  - intros r0 w0 w1 e Hc Hfail. unfold updateSourceFile.
    rewrite bool_decide_eq_true_2 by done. rewrite Hfail. split; [done|].
    pose proof (replace_spec (filePath r0) (mappings p) (dryRun p)
      (emit (CallReplace (filePath r0) (mappings p) (dryRun p)) w0)) as H.
    rewrite Hfail in H. destruct H as (_&_&H&_). simpl. by rewrite H.
  - apply main_spec.
Qed.

Lemma map_set_keys k v (m : JsMap) c : c ∈ (map_set k v m).*1 ↔ c = k ∨ c ∈ m.*1.
Proof.
  induction m as [|[k' v'] m IH]; simpl.
  - rewrite list_elem_of_singleton, elem_of_nil. naive_solver.
  - case_decide; simpl; rewrite !elem_of_cons, ?IH; naive_solver.
Qed.

Lemma map_one_key_elem p c k :
  k ∈ (mappings (map_one env p c)).*1 ↔ k = c ∨ k ∈ (mappings p).*1.
Proof.
  unfold map_one. destruct (map_has c (mappings p)) eqn:Hhas.
  - apply map_has_true in Hhas. naive_solver.
  - destruct (generateClassName _ _ _ _) as [n g]. simpl. apply map_set_keys.
Qed.

Lemma generateMappings_key_elem p rs k :
  k ∈ (mappings (generateMappings env p rs)).*1 ↔
  k ∈ (mappings p).*1 ∨ ∃ r, r ∈ rs ∧ k ∈ classNames r.
Proof.
  unfold generateMappings. rewrite <-collect_elem.
  generalize (collect rs) as cs. intros cs. revert p.
  induction cs as [|c cs IH]; intros p; simpl.
  - rewrite elem_of_nil. naive_solver.
  - rewrite IH, map_one_key_elem, elem_of_cons. naive_solver.
Qed.

(** C7. A failed parse result takes no part in the run: whatever it carries,
    the processor, the outcome, the disk and the calls to the rewriter and
    to the stylesheet writer are those of the run on the successful results
    alone.  The mapping gains the class-strings of the successful results
    and no others, and every successful result with class-strings reaches
    the rewriter; for one without class-strings there is nothing to
    rewrite.  In a run that writes, each class-string of a successful
    result has a rule of its canonical form among those handed to the
    stylesheet writer, and each file that was parsed, has class-strings and
    can be written holds its rewritten content afterwards.  A file that cannot be read or parsed gives a failed result
    with no class-strings. *)
Theorem parse_failures_are_isolated p rs w :
  (let '(p1, w1, r1) := process_parsed env p rs w in
   let '(p2, w2, r2) := process_parsed env p (succeeded rs) w in
   p1 = generateMappings env p (succeeded rs) ∧
   p1 = p2 ∧ r1 = r2 ∧ files w1 = files w2 ∧
   replace_calls (trace w1) = replace_calls (trace w2) ∧
   css_calls (trace w1) = css_calls (trace w2) ∧
   replace_calls (trace w1) =
     replace_calls (trace w) ++
     ((λ r, (filePath r, mappings p1, dryRun p)) <$> filter has_classes (succeeded rs)) ∧
   (∀ c, c ∈ (mappings p1).*1 ↔
      c ∈ (mappings p).*1 ∨ ∃ r, r ∈ rs ∧ success r = true ∧ c ∈ classNames r) ∧
   (dryRun p = false →
      css_calls (trace w1) =
        css_calls (trace w) ++
        [(dedupe (mappings p1), output (config p), cssCompressor (config p))]) ∧
   (∀ r c, r ∈ rs → success r = true → c ∈ classNames r →
      ∃ cm, cm ∈ dedupe (mappings p1) ∧
            normalized (original cm) = normalized c)) ∧
  (∀ f, f ∈ found_files env (config p) w →
     success (parseFile env (findFiles env (config p) w).2 f) = true →
     has_classes (parseFile env (findFiles env (config p) w).2 f) →
     dryRun p = false → f ∉ unwritable w → f ≠ output (config p) →
     ∃ content occs,
       files w !! f = Some content ∧
       parse env (file_kind env f) content = ParseOk occs ∧
       files (process env p w).1.2 !! f
         = Some (text (rewrite env content occs (mappings (process env p w).1.1)))) ∧
  process env p w =
    process_parsed env p (parse_results env (config p) w)
      (findFiles env (config p) w).2 ∧
  (∀ content occs m,
     safe_values occs = [] → text (rewrite env content occs m) = content) ∧
  (∀ w0 f, success (parseFile env w0 f) = false → classNames (parseFile env w0 f) = []) ∧
  (∀ w0 f, success (parseFile env w0 f) = false ↔
     files w0 !! f = None ∨
     ∃ content reason, files w0 !! f = Some content ∧
       parse env (file_kind env f) content = ParseErr reason).
Proof.
  split_and!.
  - pose proof (process_parsed_failures_inert p rs w) as Hinert.
    destruct (process_parsed_spec p rs w) as (w1&r1&H1&(_&_&Hrc1&Hcc1)&_).
    destruct (process_parsed_spec p (succeeded rs) w) as (w2&r2&H2&(_&_&Hrc2&Hcc2)&_).
    rewrite succeeded_idemp in H2, Hrc2, Hcc2.
    rewrite H1, H2 in Hinert. rewrite H1, H2.
    destruct Hinert as (_&->&[Hf _]).
    destruct (generateMappings_fields p (succeeded rs)) as [Hcfg Hdry].
    split_and!; try done; try congruence.
    + by rewrite Hrc1, update_calls_fmap, Hdry.
    + intros c. rewrite generateMappings_key_elem. unfold succeeded.
      split; (intros [?|(r&Hr&?)]; [by left|right; exists r]).
      * apply list_elem_of_filter in Hr. naive_solver.
      * rewrite list_elem_of_filter. naive_solver.
    + intros Hd. rewrite Hcc1. unfold css_call. by rewrite Hdry, Hd, Hcfg.
    + intros r c Hr Hs Hc. apply dedupe_covers.
      apply generateMappings_key_elem. right. exists r. split; [|done].
      unfold succeeded. by apply list_elem_of_filter.
  - intros f. apply process_rewrites_each_file.
  - apply process_unfold.
  - intros content occs m Hnone. unfold rewrite, plan. cbn [text].
    by rewrite (plan_nothing content m _ Hnone).
  - intros w0 f. unfold parseFile.
    destruct (files w0 !! f); [|done]. by destruct (parse _ _ _).
  - intros w0 f. unfold parseFile.
    destruct (files w0 !! f) as [content|]; [|naive_solver].
    destruct (parse _ _ _) eqn:Hp; simpl; [|naive_solver].
    split; [done|]. intros [?|(?&?&[= <-]&?)]; congruence.
Qed.

(** *** One name for each class-string *)

(** C1. In a run, a class-string met in any of the parse results handed to
    [generateMappings] has exactly one entry in the mapping, the generator
    has given out exactly as many names as there are entries, two different
    class-strings never share a short name, and an entry once made is what
    every later occurrence resolves to: neither a further call nor further
    parse results change it.  The parse results handed over by [process]
    are the successful ones. *)
Theorem generateMappings_one_name_each cfg dry rs :
  let p := generateMappings env (new_processor cfg dry) rs in
  (∀ w, (process env (new_processor cfg dry) w).1.1 =
        generateMappings env (new_processor cfg dry)
          (succeeded (parse_results env cfg w))) ∧
  (∀ c, (∃ r, r ∈ rs ∧ c ∈ classNames r) ↔ is_Some (map_get c (mappings p))) ∧
  NoDup (mappings p).*1 ∧
  counter (classGenerator p) = length (mappings p) ∧
  size (used (classGenerator p)) = length (mappings p) ∧
  (∀ a b n, map_get a (mappings p) = Some n → map_get b (mappings p) = Some n → a = b) ∧
  (∀ rs' c n, map_get c (mappings p) = Some n →
     map_get c (mappings (generateMappings env p rs')) = Some n ∧
     map_get c (mappings (generateMappings env (new_processor cfg dry) (rs ++ rs')))
       = Some n).
Proof.
  intros p.
  assert (proc_inv p) as Hp by apply generateMappings_inv, new_processor_inv.
  assert ((mappings p).*1 = collect rs) as Hkeys.
  { unfold p, generateMappings. rewrite foldl_map_one_keys by apply new_processor_inv.
    simpl. apply (add_all_fresh _ []). simpl. apply collect_NoDup. }
  split_and!.
  - intros w. by destruct (process_spec (new_processor cfg dry) w) as (w'&r&->&_).
  - intros c. rewrite <-collect_elem, <-Hkeys.
    rewrite <-(map_has_true c). unfold map_has. by rewrite bool_decide_eq_true.
  - apply Hp.
  - destruct Hp as (?&?&?&?). done.
  - destruct Hp as ((?&?&?&?&?)&?&?&?). lia.
  - intros a b n. by apply proc_inv_injective.
  - intros rs' c n Hc. split.
    + by apply foldl_map_one_keeps.
    + unfold generateMappings. destruct (collect_app rs rs') as [more ->].
      rewrite foldl_app. apply foldl_map_one_keeps; [|done].
      apply foldl_map_one_inv, new_processor_inv.
Qed.

(** *** One stylesheet rule for each canonical form *)



(** *** Order of discovery, order of numbering *)

Lemma add_all_app xs ys s : add_all (xs ++ ys) s = add_all ys (add_all xs s).
Proof. unfold add_all. apply foldl_app. Qed.

Lemma filter_all {A} (P : A → Prop) `{∀ x, Decision (P x)} (l : list A) :
  (∀ x, x ∈ l → P x) → filter P l = l.
Proof.
  induction l as [|y l IH]; intros Hl; [done|].
  rewrite filter_cons_True by (apply Hl; left). f_equal.
  apply IH. intros x Hx. apply Hl. by right.
Qed.

Lemma add_all_first_seen xs : ∀ s,
  add_all xs s = s ++ filter (λ y, y ∉ s) (first_seen xs).
Proof.
  induction xs as [|x xs IH]; intros s; simpl.
  - by rewrite app_nil_r.
  - change (add_all (x :: xs) s) with (add_all xs (set_add x s)).
    rewrite IH. unfold set_add. case_decide as Hx.
    + rewrite filter_cons_False by naive_solver. f_equal.
      rewrite list_filter_filter. apply list_filter_iff. intros y. naive_solver.
    + rewrite filter_cons_True by done. rewrite <-app_assoc. simpl. do 2 f_equal.
      rewrite list_filter_filter. apply list_filter_iff. intros y.
      rewrite not_elem_of_app, list_elem_of_singleton. naive_solver.
Qed.

Lemma collect_first_seen rs : collect rs = first_seen (mjoin (classNames <$> rs)).
Proof.
  unfold collect.
  assert (∀ acc, foldl (λ acc r, add_all (classNames r) acc) acc rs
                 = add_all (mjoin (classNames <$> rs)) acc) as H.
  { induction rs as [|r rs IH]; intros acc; simpl; [done|].
    by rewrite IH, add_all_app. }
  rewrite H, add_all_first_seen. simpl.
  apply filter_all. intros ? _. apply not_elem_of_nil.
Qed.

Lemma found_files_first_seen cfg w :
  found_files env cfg w = first_seen (mjoin (glob_matches env cfg <$> input cfg)).
Proof.
  unfold found_files, findFiles.
  assert (∀ pats acc w, (findFiles_from env cfg pats acc w).1
            = add_all (mjoin (glob_matches env cfg <$> pats)) acc) as H.
  { induction pats as [|pat pats IH]; intros acc w0; simpl; [done|].
    unfold glob_matches at 1.
    destruct (glob env pat (ignore cfg)) as [ms|]; simpl; rewrite IH.
    - by rewrite add_all_app.
    - done. }
  rewrite H, add_all_first_seen. simpl.
  apply filter_all. intros ? _. apply not_elem_of_nil.
Qed.

Lemma foldl_map_one_incremental cs : ∀ p,
  proc_inv p → mode (config p) = incremental →
  NoDup cs → (∀ c, c ∈ cs → c ∉ (mappings p).*1) →
  mappings (foldl (map_one env) p cs) =
    mappings p ++
    imap (λ k c, (c, prefix (config p) +:+ pretty (length (mappings p) + k))) cs.
Proof.
  induction cs as [|c cs IH]; intros p Hp Hm Hnd Hnew; simpl.
  - by rewrite app_nil_r.
  - apply NoDup_cons in Hnd as [Hc Hnd].
    destruct (map_one_step p c Hp) as [[Hin _]|(_&Hmap&_)].
    { exfalso. apply (Hnew c); [left|done]. }
    destruct (map_one_fields p c) as [Hcfg _].
    rewrite IH; [|by apply map_one_inv|by rewrite Hcfg|done|].
    + rewrite Hmap, Hcfg, <-app_assoc. f_equal. simpl. f_equal.
      * unfold fresh_name. rewrite Hm. destruct Hp as (_&_&_&->).
        by rewrite Nat.add_0_r.
      * apply imap_ext. intros k c' _. simpl. rewrite length_app. simpl.
        do 3 f_equal. lia.
    + intros c' Hc'. rewrite Hmap, fmap_app. simpl.
      rewrite not_elem_of_app, list_elem_of_singleton. split.
      * apply Hnew. by right.
      * intros ->. done.
Qed.

(** C4, amended. Nothing sorts: the files found are the glob matches in the
    order of the patterns and of each glob's answer, the class-strings are
    merged in the order of the parse results and of each file's
    occurrences, each where it is first met, and in incremental mode the
    k-th of them is numbered k.  The mapping of a run is this function of
    the order of discovery. *)
Theorem incremental_numbering_follows_discovery_order cfg dry w :
  mode cfg = incremental →
  let rs := succeeded (parse_results env cfg w) in
  found_files env cfg w = first_seen (mjoin (glob_matches env cfg <$> input cfg)) ∧
  filePath <$> parse_results env cfg w = found_files env cfg w ∧
  (∀ rs', collect rs' = first_seen (mjoin (classNames <$> rs'))) ∧
  mappings (process env (new_processor cfg dry) w).1.1 =
    imap (λ k c, (c, prefix cfg +:+ pretty k))
         (first_seen (mjoin (classNames <$> rs))).
Proof.
  intros Hm rs. split_and!.
  - apply found_files_first_seen.
  - apply parse_results_paths.
  - apply collect_first_seen.
  - destruct (process_spec (new_processor cfg dry) w) as (w'&r&->&_). simpl.
    fold rs. unfold generateMappings.
    rewrite foldl_map_one_incremental;
      [|apply new_processor_inv|done|apply collect_NoDup|intros ??; apply not_elem_of_nil].
    simpl. by rewrite collect_first_seen.
Qed.

(** *** [getMappings] hands out a copy *)

Lemma mutate_other l op st l' :
  l' ≠ l → objects (mutate l op st) !! l' = objects st !! l'.
Proof. intros Hne. unfold mutate; simpl. by rewrite lookup_alter_ne. Qed.

Lemma mutate_all_other l ops : ∀ st l',
  l' ≠ l → objects (mutate_all l ops st) !! l' = objects st !! l'.
Proof.
  unfold mutate_all. induction ops as [|op ops IH]; intros st l' Hne; simpl; [done|].
  by rewrite IH, mutate_other.
Qed.

Lemma mutate_all_ok l ops : ∀ st, store_ok st → store_ok (mutate_all l ops st).
Proof.
  unfold mutate_all. induction ops as [|op ops IH]; intros st Hok; simpl; [done|].
  apply IH. intros l'. unfold mutate; simpl. rewrite dom_alter_L. apply Hok.
Qed.

Lemma load_ext o st1 st2 :
  objects st1 !! obj_mappings o = objects st2 !! obj_mappings o →
  load o st1 = load o st2.
Proof. intros H. unfold load, deref. by rewrite H. Qed.

Lemma getMappings_content o st :
  deref (getMappings o st).2 (getMappings o st).1 = deref st (obj_mappings o).
Proof.
  unfold getMappings, new_map. simpl. unfold deref at 1. simpl.
  by rewrite lookup_insert_eq.
Qed.

(** C9. [getMappings] allocates a new [Map] with the entries the
    processor's own map has at the call.  Its reference is not the
    processor's, so whatever the caller does to the returned map, the
    processor reads the same mapping as before: the later updates of source
    files, the stylesheet step and later calls of [getMappings] see what
    they would have seen. *)
Theorem getMappings_returns_copy o st ops :
  store_ok st → obj_mappings o ∈ dom (objects st) →
  let '(l, st1) := getMappings o st in
  let st2 := mutate_all l ops st1 in
  l ≠ obj_mappings o ∧ (l ∉ dom (objects st)) ∧
  deref st1 l = deref st (obj_mappings o) ∧
  load o st1 = load o st ∧
  load o st2 = load o st ∧
  (∀ r w, updateSourceFile env (load o st2) r w = updateSourceFile env (load o st) r w) ∧
  (∀ w, generateCSSFile env (load o st2) w = generateCSSFile env (load o st) w) ∧
  deref (getMappings o st2).2 (getMappings o st2).1 = deref st (obj_mappings o) ∧
  store_ok st2.
Proof.
  intros Hok Hin. destruct (getMappings o st) as [l st1] eqn:Hg.
  unfold getMappings, new_map in Hg. injection Hg as <- <-.
  assert (next_ref st ≠ obj_mappings o) as Hne.
  { intros Heq. apply Hok in Hin. lia. }
  assert (objects (mutate_all (next_ref st) ops
            {| objects := <[next_ref st := deref st (obj_mappings o)]> (objects st);
               next_ref := S (next_ref st) |}) !! obj_mappings o
          = objects st !! obj_mappings o) as Hsame.
  { rewrite mutate_all_other by done. simpl. by rewrite lookup_insert_ne. }
  assert (load o (mutate_all (next_ref st) ops
            {| objects := <[next_ref st := deref st (obj_mappings o)]> (objects st);
               next_ref := S (next_ref st) |}) = load o st) as Hload
    by by apply load_ext.
  split_and!.
  - done.
  - intros Hl%Hok. lia.
  - unfold deref at 1. simpl. by rewrite lookup_insert_eq.
  - apply load_ext. simpl. by rewrite lookup_insert_ne.
  - done.
  - intros r w. by rewrite Hload.
  - intros w. by rewrite Hload.
  - rewrite getMappings_content. exact (f_equal mappings Hload).
  - apply mutate_all_ok. intros l. simpl. rewrite dom_insert_L.
    intros [->%elem_of_singleton|Hl%Hok]%elem_of_union; lia.
Qed.

(** *** Splicing a plan into the content *)

Lemma take_take_app {A} k s (c x : list A) :
  k ≤ s → s ≤ length c → take k (take s c ++ x) = take k c.
Proof.
  intros Hk Hs. rewrite take_app_le by (rewrite length_take; lia).
  rewrite take_take. f_equal. lia.
Qed.

Lemma apply_plan_prefix pl : ∀ content k,
  chained pl → Forall (fits content) pl → Forall (λ r, k ≤ r_start r) pl →
  take k (apply_plan pl content) = take k content.
Proof.
  induction pl as [|r pl IH]; intros content k Hch Hfit Hk; simpl; [done|].
  apply StronglySorted_inv in Hch as [Hch Hr].
  apply Forall_cons in Hfit as [[Hr1 Hr2] Hfit].
  apply Forall_cons in Hk as [Hkr Hk].
  unfold splice. rewrite (IH content (r_start r)); [|done|done|].
  - by apply take_take_app; [|lia].
  - eapply Forall_impl; [exact Hr|]. simpl. lia.
Qed.

Lemma before_cons a r pl :
  before a (r :: pl) = if decide (r_stop r ≤ a) then r :: before a pl else before a pl.
Proof. unfold before. by rewrite filter_cons. Qed.

Lemma before_none a pl : Forall (λ r, a < r_stop r) pl → before a pl = [].
Proof.
  intros H. apply filter_none. intros r Hr.
  rewrite Forall_forall in H. specialize (H r Hr). simpl in *. lia.
Qed.

Lemma moved_none a pl : Forall (λ r, a < r_stop r) pl → moved pl a = a.
Proof. intros H. unfold moved. rewrite before_none by done. simpl. lia. Qed.

(** The ranges before [a] take out no more than lies between [lo] and [a]. *)
Lemma shrunk_bound pl : ∀ lo a b,
  chained pl → Forall (λ r, lo ≤ r_start r ≤ r_stop r) pl →
  Forall (λ r, r_stop r ≤ a ∨ b ≤ r_start r) pl → a < b → lo ≤ a →
  lo + sum_list_with (λ r, r_stop r - r_start r) (before a pl) ≤ a.
Proof.
  induction pl as [|r pl IH]; intros lo a b Hch Hlo Hap Hab Hle; simpl.
  - unfold before. simpl. lia.
  - apply StronglySorted_inv in Hch as [Hch Hr].
    apply Forall_cons in Hlo as [Hlo1 Hlo].
    apply Forall_cons in Hap as [Hap1 Hap].
    rewrite before_cons. case_decide as Hd.
    + simpl. specialize (IH (r_stop r) a b Hch).
      assert (r_stop r + sum_list_with (λ r, r_stop r - r_start r) (before a pl) ≤ a)
        as Hih; [|simpl in *; lia].
      apply IH; [|done|done|done].
      rewrite Forall_forall in Hr, Hlo |- *. intros r' Hr'.
      specialize (Hr r' Hr'). specialize (Hlo r' Hr'). simpl in *. lia.
    + rewrite before_none; [simpl in *; lia|].
      rewrite Forall_forall in Hr, Hlo |- *. intros r' Hr'.
      specialize (Hr r' Hr'). specialize (Hlo r' Hr'). simpl in *. lia.
Qed.

Lemma drop_splice {A} s (t y : list A) k (c : list A) :
  s ≤ length c → drop (s + length t + k) (take s c ++ t ++ y) = drop k y.
Proof.
  intros Hs. rewrite drop_app_ge by (rewrite length_take; lia).
  rewrite length_take, Nat.min_l by done.
  rewrite drop_app_ge by lia. f_equal. lia.
Qed.

Lemma take_drop_before {A} a n s (c x : list A) :
  a + n ≤ s → s ≤ length c →
  take n (drop a (take s c ++ x)) = take n (drop a c).
Proof.
  intros Han Hs.
  rewrite !take_drop_commute. by rewrite take_take_app by lia.
Qed.

(** A range that no replacement overlaps keeps its bytes, at the offset
    [moved] gives. *)
Lemma apply_plan_keeps pl : ∀ content a b,
  chained pl → Forall (fits content) pl →
  Forall (λ r, r_stop r ≤ a ∨ b ≤ r_start r) pl → a < b →
  slice (moved pl a) (moved pl a + (b - a)) (apply_plan pl content) = slice a b content.
Proof.
  unfold slice.
  induction pl as [|r pl IH]; intros content a b Hch Hfit Hap Hab.
  { unfold moved, before. simpl. do 2 f_equal; lia. }
  simpl. pose proof Hch as Hch0. pose proof Hfit as Hfit0.
  apply StronglySorted_inv in Hch as [Hch Hr].
  apply Forall_cons in Hfit as [[Hr1 Hr2] Hfit].
  apply Forall_cons in Hap as [Hap1 Hap].
  unfold splice.
  rewrite (apply_plan_prefix pl content (r_start r)); [|done|done|].
  2:{ eapply Forall_impl; [exact Hr|]. simpl. lia. }
  replace (moved (r :: pl) a + (b - a) - moved (r :: pl) a) with (b - a) by lia.
  destruct Hap1 as [Hbefore|Hafter].
  - (* the replacement lies before the range *)
    specialize (IH content a b Hch Hfit Hap Hab).
    replace (moved pl a + (b - a) - moved pl a) with (b - a) in IH by lia.
    assert (r_stop r + sum_list_with (λ r, r_stop r - r_start r) (before a pl) ≤ a)
      as Hsh.
    { apply (shrunk_bound pl (r_stop r) a b); [done| |done|done|done].
      rewrite Forall_forall in Hr, Hfit |- *. intros r' Hr'.
      specialize (Hr r' Hr'). destruct (Hfit r' Hr'). simpl in *. lia. }
    assert (moved (r :: pl) a =
            r_start r + length (r_text r) + (moved pl a - r_stop r)) as ->.
    { unfold moved. rewrite before_cons, decide_True by done. simpl. lia. }
    assert (r_start r ≤ length content) by lia.
    rewrite drop_splice by done. rewrite drop_drop.
    replace (r_stop r + (moved pl a - r_stop r)) with (moved pl a); [done|].
    unfold moved. lia.
  - (* the replacement, and every later one, lies after the range *)
    rewrite moved_none.
    + apply take_drop_before; lia.
    + constructor; [lia|].
      rewrite Forall_forall in Hr, Hfit |- *. intros r' Hr'.
      specialize (Hr r' Hr'). destruct (Hfit r' Hr'). simpl in *. lia.
Qed.

(** *** The plan and the ranges it leaves alone *)

Lemma apart_sym a b : apart a b → apart b a.
Proof. unfold apart. lia. Qed.

Lemma all_apart_perm l1 l2 : l1 ≡ₚ l2 → all_apart l1 → all_apart l2.
Proof.
  induction 1 as [|x l1 l2 Hp IH|x y l|l1 l2 l3 _ IH1 _ IH2]; simpl.
  - done.
  - intros [Hx Hl]. split; [by rewrite <-Hp|auto].
  - intros [[Hyx Hy]%Forall_cons [Hx Hl]]. split_and!; [|done..].
    constructor; [by apply apart_sym|done].
  - auto.
Qed.

Lemma all_apart_elem l a b :
  all_apart l → a ∈ l → b ∈ l → a ≠ b → apart a b.
Proof.
  induction l as [|x l IH]; simpl; [by intros _ ?%elem_of_nil|].
  intros [Hx Hl] [->|Ha]%elem_of_cons [->|Hb]%elem_of_cons Hne.
  - done.
  - rewrite Forall_forall in Hx. by apply Hx.
  - rewrite Forall_forall in Hx. by apply apart_sym, Hx.
  - by apply IH.
Qed.

#[global] Instance by_start_total : Total by_start.
Proof. intros a b. unfold by_start. lia. Qed.

#[global] Instance by_start_trans : Transitive by_start.
Proof. intros a b c. unfold by_start. lia. Qed.

Lemma sorted_by_stops l :
  StronglySorted by_start l → all_apart l → Forall (λ o, start o < stop o) l →
  StronglySorted (λ a b, stop a ≤ start b) l.
Proof.
  induction 1 as [|a l Hs IH Ha]; intros Hap Hne; [constructor|].
  destruct Hap as [Haa Hap]. apply Forall_cons in Hne as [Hna Hne].
  constructor; [by apply IH|].
  rewrite Forall_forall in Ha, Haa, Hne |- *. intros b Hb.
  specialize (Ha b Hb). specialize (Haa b Hb). specialize (Hne b Hb).
  unfold by_start, apart in *. simpl in *. lia.
Qed.

Lemma StronglySorted_filter {A} (R : relation A) (P : A → Prop)
    `{∀ x, Decision (P x)} (l : list A) :
  StronglySorted R l → StronglySorted R (filter P l).
Proof.
  induction 1 as [|x l Hs IH Hx]; [constructor|].
  rewrite filter_cons. case_decide; [|done].
  constructor; [done|]. apply Forall_forall.
  intros y [_ Hy]%list_elem_of_filter. by apply (proj1 (Forall_forall _ _) Hx).
Qed.

(** The replaced occurrences, in the order of the plan, follow one another. *)
Lemma sorted_occurrences content occs m :
  in_content content occs →
  all_apart (filter (λ o, replaceable m o = true) occs) →
  StronglySorted (λ a b, stop a ≤ start b)
    (filter (λ o, replaceable m o = true) (merge_sort by_start occs)).
Proof.
  intros Hin Hap. pose proof (merge_sort_Permutation by_start occs) as Hp.
  apply sorted_by_stops.
  - apply StronglySorted_filter, (StronglySorted_merge_sort _).
  - eapply all_apart_perm; [|exact Hap]. by rewrite Hp.
  - apply Forall_forall. intros o [_ Ho]%list_elem_of_filter.
    rewrite Hp in Ho. apply (proj1 (Forall_forall _ _) Hin) in Ho. simpl in Ho. lia.
Qed.

Lemma plan_one_Some content m o r :
  plan_one env content m o = Some r →
  safe o = true ∧ r_start r = start o ∧ r_stop r = stop o.
Proof.
  unfold plan_one. destruct (safe o); [|done].
  destruct (raw_value o) as [v|]; [|done]. simpl.
  destruct (lookup_ws m v) as [n|]; [|done]. simpl. by intros [= <-].
Qed.

Lemma plan_one_replaceable content m o :
  is_Some (plan_one env content m o) ↔ replaceable m o = true.
Proof.
  unfold plan_one, replaceable. destruct (safe o); simpl.
  - rewrite bool_decide_eq_true. destruct (raw_value o) as [v|]; simpl.
    + destruct (lookup_ws m v); simpl; [split; intros _; by eexists|].
      split; intros [? [=]].
    + split; intros [? [=]].
  - split; [intros [? [=]]|done].
Qed.

Lemma plan_elem content occs m r :
  r ∈ plan env content occs m →
  ∃ o, o ∈ occs ∧ replaceable m o = true ∧ safe o = true ∧
       r_start r = start o ∧ r_stop r = stop o.
Proof.
  unfold plan. rewrite list_elem_of_omap. intros (o&Ho&Hr).
  exists o. split; [by rewrite <-(merge_sort_Permutation by_start occs)|].
  split; [apply (plan_one_replaceable content); by eexists|].
  by eapply plan_one_Some.
Qed.

Lemma omap_replaceable content m (l : list ClassOccurrence) :
  omap (plan_one env content m) (filter (λ o, replaceable m o = true) l)
  = omap (plan_one env content m) l.
Proof.
  induction l as [|o l IH]; [done|]. rewrite filter_cons, omap_cons_case.
  case_decide as Hr.
  - by rewrite omap_cons_case, IH.
  - destruct (plan_one env content m o) eqn:Hp; [|done].
    exfalso. apply Hr, (plan_one_replaceable content). by eexists.
Qed.

Lemma omap_chained content m l :
  StronglySorted (λ a b, stop a ≤ start b) l → chained (omap (plan_one env content m) l).
Proof.
  induction 1 as [|a l' Hs IH Ha]; simpl; [constructor|].
  destruct (plan_one env content m a) as [r|] eqn:Hr; [|done].
  apply plan_one_Some in Hr as (_&Hr1&Hr2).
  constructor; [done|]. apply Forall_forall.
  intros r' (o'&Ho'&(_&H1&H2)%plan_one_Some)%list_elem_of_omap.
  apply (proj1 (Forall_forall _ _) Ha) in Ho'. lia.
Qed.

Lemma plan_chained content occs m :
  in_content content occs →
  all_apart (filter (λ o, replaceable m o = true) occs) →
  chained (plan env content occs m).
Proof.
  intros Hin Hap. unfold plan. rewrite <-omap_replaceable.
  by apply omap_chained, (sorted_occurrences content).
Qed.

Lemma plan_fits content occs m :
  in_content content occs → Forall (fits content) (plan env content occs m).
Proof.
  intros Hin. apply Forall_forall.
  intros r (o&Ho&_&_&H1&H2)%plan_elem.
  apply (proj1 (Forall_forall _ _) Hin) in Ho. unfold fits. simpl in *. lia.
Qed.

(** C2, amended. A replacement changes the bytes of its own range and no
    others, so a range keeps its bytes when no replaced range meets it.
    For ranges that are non-empty and inside the content, when the
    occurrences that are replaced do not overlap one another and none of
    them overlaps an occurrence that is not safe, that occurrence is not
    planned for replacement, no planned range meets its range, it is
    counted as skipped, and after the rewrite its bytes are the original
    ones, found at its offset shifted by what the replacements before it
    added and removed.  This holds for every content and every mapping;
    the occurrences that are not replaced may overlap as they like. *)
Theorem dynamic_occurrences_are_untouched content occs m o :
  in_content content occs →
  all_apart (filter (λ o', replaceable m o' = true) occs) →
  o ∈ occs → safe o = false →
  Forall (λ o', replaceable m o' = true → apart o o') occs →
  let out := rewrite env content occs m in
  let pl := plan env content occs m in
  slice (moved pl (start o)) (moved pl (start o) + (stop o - start o)) (text out)
    = slice (start o) (stop o) content ∧
  Forall (λ r, r_stop r ≤ start o ∨ stop o ≤ r_start r) pl ∧
  replaceable m o = false ∧
  0 < skipped out.
Proof.
  intros Hin Hap Ho Hunsafe Hclear0 out pl.
  assert (Forall (λ r, r_stop r ≤ start o ∨ stop o ≤ r_start r) pl) as Hclear.
  { rewrite Forall_forall. intros r (o'&Ho'&Hrep&_&H1&H2)%plan_elem.
    rewrite H1, H2.
    pose proof (proj1 (Forall_forall _ _) Hclear0 o' Ho' Hrep) as Hap'.
    unfold apart in Hap'. lia. }
  split_and!; [|done| |].
  - apply apply_plan_keeps; [by apply plan_chained|by apply plan_fits|done|].
    apply (proj1 (Forall_forall _ _) Hin) in Ho. simpl in Ho. lia.
  - unfold replaceable. by rewrite Hunsafe.
  - simpl. assert (o ∈ filter (λ o, safe o = false) occs) as Hino
      by by apply list_elem_of_filter.
    destruct (filter (λ o, safe o = false) occs);
      [by apply elem_of_nil in Hino|simpl; lia].
Qed.

(** *** Rewriting twice *)

Lemma lookup_ws_Some m v n : lookup_ws m v = Some n → ∃ k, (k, n) ∈ m.
Proof.
  induction m as [|[k n'] m IH]; simpl; [done|].
  case_decide.
  - intros [= ->]. exists k. left.
  - intros [k' Hk']%IH. exists k'. by right.
Qed.





(** *** The sample scanner *)


Lemma attr_open_length : length attr_open = 7.
Proof. done. Qed.

Lemma attr_open_prefix s : attr_open `prefix_of` s → s = attr_open ++ drop 7 s.
Proof. intros [t ->]. by rewrite drop_app_length'. Qed.

Lemma attr_open_prefix_take s : attr_open `prefix_of` s ↔ take 7 s = attr_open.
Proof.
  split.
  - intros [t ->]. by rewrite take_app_length'.
  - intros H. exists (drop 7 s). by rewrite <-H, take_drop.
Qed.

Lemma find_quote_Some s n :
  find_quote s = Some n →
  s = take n s ++ quote :: drop (S n) s ∧ (quote ∉ take n s) ∧ length (take n s) = n.
Proof.
  revert n. induction s as [|c s IH]; intros n; simpl; [done|].
  case_decide as Hc.
  - intros [= <-]. subst c. simpl. split_and!; [done|apply not_elem_of_nil|done].
  - destruct (find_quote s) as [k|]; [|done]. simpl. intros [= <-].
    destruct (IH k eq_refl) as (H1&H2&H3). simpl. split_and!.
    + by rewrite <-H1.
    + apply not_elem_of_cons. split; [congruence|done].
    + by rewrite H3.
Qed.

Lemma find_quote_app v rest :
  quote ∉ v → find_quote (v ++ quote :: rest) = Some (length v).
Proof.
  induction v as [|c v IH].
  - done.
  - intros [Hc Hv]%not_elem_of_cons. simpl. rewrite decide_False by congruence.
    by rewrite IH.
Qed.

Lemma find_quote_None s : find_quote s = None → quote ∉ s.
Proof.
  induction s as [|c s IH]; simpl; [intros _; apply not_elem_of_nil|].
  case_decide; [done|]. destruct (find_quote s); [done|]. intros _.
  apply not_elem_of_cons. split; [congruence|by apply IH].
Qed.

Lemma find_quote_None_2 s : quote ∉ s → find_quote s = None.
Proof.
  induction s as [|c s IH]; simpl; [done|].
  intros [Hc Hs]%not_elem_of_cons. rewrite decide_False by congruence. by rewrite IH.
Qed.

Lemma new_value_settled m v :
  settled m → quote ∉ v →
  (quote ∉ new_value m v) ∧ new_value m (new_value m v) = new_value m v.
Proof.
  intros Hm Hv. unfold new_value at 1 3 4.
  destruct (lookup_ws m (string_of_list_ascii v)) as [n|] eqn:Hl.
  - destruct (lookup_ws_Some _ _ _ Hl) as [k Hk]. destruct (Hm k n Hk) as [Hn Hq].
    split; [done|]. unfold new_value.
    by rewrite string_of_list_ascii_of_string, Hn.
  - split; [done|]. unfold new_value. by rewrite Hl.
Qed.

Lemma drop_past {A} (v : list A) q rest : drop (S (length v)) (v ++ q :: rest) = rest.
Proof.
  rewrite (cons_middle q), app_assoc.
  apply drop_app_length'. rewrite length_app. simpl. lia.
Qed.

Lemma one_pass_cons m fuel c s :
  one_pass m (S fuel) (c :: s) =
  if decide (attr_open `prefix_of` c :: s) then
    match find_quote (drop 7 (c :: s)) with
    | Some n =>
        attr_open ++ new_value m (take n (drop 7 (c :: s))) ++ [quote]
        ++ one_pass m fuel (drop (S n) (drop 7 (c :: s)))
    | None => c :: s
    end
  else c :: one_pass m fuel s.
Proof. done. Qed.

Lemma one_pass_nil m fuel : one_pass m fuel [] = [].
Proof. by destruct fuel. Qed.

Lemma one_pass_take7 m fuel : ∀ s, take 7 (one_pass m fuel s) = take 7 s.
Proof.
  induction fuel as [|fuel IH]; intros s; [done|].
  destruct s as [|c s]; [done|]. rewrite one_pass_cons.
  case_decide as Hp.
  - destruct (find_quote _) as [n|]; [|done].
    apply attr_open_prefix_take in Hp. rewrite Hp.
    by rewrite take_app_length'.
  - change (take 7 (c :: ?l)) with (c :: take 6 l).
    f_equal. rewrite <-(take_take _ 6 7), IH, take_take. done.
Qed.

(** With [settled m] a second pass finds every value as the first left it. *)
Lemma one_pass_idem m : settled m → ∀ fuel fuel' s,
  length s ≤ fuel → length (one_pass m fuel s) ≤ fuel' →
  one_pass m fuel' (one_pass m fuel s) = one_pass m fuel s.
Proof.
  intros Hm. induction fuel as [|fuel IH]; intros fuel' s Hs Hs'.
  { destruct s; [|simpl in Hs; lia]. simpl. apply one_pass_nil. }
  destruct s as [|c s]; [apply one_pass_nil|].
  rewrite one_pass_cons in Hs' |- *. simpl in Hs. case_decide as Hp.
  - pose proof (attr_open_prefix _ Hp) as Hs0.
    destruct (find_quote (drop 7 (c :: s))) as [n|] eqn:Hq.
    + destruct (find_quote_Some _ _ Hq) as (Hbody&Hv&Hn).
      set (v := take n (drop 7 (c :: s))) in *.
      set (rest := drop (S n) (drop 7 (c :: s))) in *.
      destruct (new_value_settled m v Hm Hv) as [Hv' Hfix].
      rewrite !length_app, attr_open_length in Hs'. simpl in Hs'.
      destruct fuel' as [|fuel']; [lia|].
      assert (length rest ≤ fuel) as Hrest.
      { apply (f_equal length) in Hs0. rewrite Hbody in Hs0.
        rewrite !length_app, attr_open_length in Hs0. simpl in Hs0. lia. }
      assert (∃ c' x', attr_open ++ new_value m v ++ [quote] ++ one_pass m fuel rest
                       = c' :: x') as (c'&x'&Hx) by (by eexists _, _).
      rewrite Hx, one_pass_cons, <-Hx.
      rewrite decide_True by by eexists.
      assert (drop 7 (attr_open ++ new_value m v ++ [quote] ++ one_pass m fuel rest)
              = new_value m v ++ quote :: one_pass m fuel rest) as ->
        by by rewrite drop_app_length'.
      rewrite find_quote_app by done.
      rewrite take_app_length, Hfix, drop_past.
      rewrite IH; [done|done|lia].
    + destruct fuel' as [|fuel']; [done|].
      rewrite one_pass_cons, decide_True by done. by rewrite Hq.
  - destruct fuel' as [|fuel']; [done|]. simpl in Hs'.
    rewrite one_pass_cons, decide_False.
    + f_equal. apply IH; lia.
    + rewrite attr_open_prefix_take in Hp |- *.
      change (take 7 (c :: ?l)) with (c :: take 6 l) in Hp |- *.
      by rewrite <-(take_take _ 6 7), one_pass_take7, take_take.
Qed.

Lemma scan_cons fuel pos c s :
  scan (S fuel) pos (c :: s) =
  if decide (attr_open `prefix_of` c :: s) then
    match find_quote (drop 7 (c :: s)) with
    | Some n =>
        {| file_path := ""; start := pos + 6; stop := pos + 8 + n;
           raw_value := Some (string_of_list_ascii (take n (drop 7 (c :: s))));
           safe := true |}
        :: scan fuel (pos + 8 + n) (drop (S n) (drop 7 (c :: s)))
    | None => []
    end
  else scan fuel (S pos) s.
Proof. done. Qed.

Lemma scan_sorted fuel : ∀ pos s,
  Forall (λ o, pos ≤ start o) (scan fuel pos s) ∧
  StronglySorted (λ a b, start a < start b) (scan fuel pos s).
Proof.
  induction fuel as [|fuel IH]; intros pos s; [by split; constructor|].
  destruct s as [|c s]; [by split; constructor|]. rewrite scan_cons.
  case_decide.
  - destruct (find_quote _) as [n|]; [|by split; constructor].
    destruct (IH (pos + 8 + n) (drop (S n) (drop 7 (c :: s)))) as [H1 H2].
    split.
    + constructor; [simpl; lia|]. eapply Forall_impl; [exact H1|]. simpl. lia.
    + constructor; [done|]. eapply Forall_impl; [exact H1|]. simpl. lia.
  - destruct (IH (S pos) s) as [H1 H2]. split; [|done].
    eapply Forall_impl; [exact H1|]. simpl. lia.
Qed.

Lemma strictly_sorted_start_inj l x1 x2 :
  StronglySorted (λ a b, start a < start b) l →
  x1 ∈ l → x2 ∈ l → start x1 = start x2 → x1 = x2.
Proof.
  induction 1 as [|a l' Hs IH Ha]; [by intros ?%elem_of_nil|].
  intros [->|H1]%elem_of_cons [->|H2]%elem_of_cons Heq; [done|..|by apply IH].
  - apply (proj1 (Forall_forall _ _) Ha) in H2. lia.
  - apply (proj1 (Forall_forall _ _) Ha) in H1. lia.
Qed.

Lemma merge_sort_sorted l :
  StronglySorted (λ a b, start a < start b) l → merge_sort by_start l = l.
Proof.
  intros Hs. symmetry. apply (Sorted_unique_strong by_start).
  - intros x1 x2 H1 H2 H12 H21. rewrite merge_sort_Permutation in H2.
    apply (strictly_sorted_start_inj l); [done..|].
    unfold by_start in *. lia.
  - apply StronglySorted_Sorted.
    induction Hs as [|a l' Hs IH Ha]; constructor; [done|].
    eapply Forall_impl; [exact Ha|]. unfold by_start. simpl. lia.
  - apply (Sorted_merge_sort _).
  - by rewrite merge_sort_Permutation.
Qed.

Lemma slice_middle (x y z : list ascii) :
  slice (length x) (length x + length y) (x ++ y ++ z) = y.
Proof.
  unfold slice. rewrite drop_app_length.
  replace (length x + length y - length x) with (length y) by lia.
  apply take_app_length.
Qed.

Lemma splice_middle (x y z t : list ascii) :
  splice {| r_start := length x; r_stop := length x + length y; r_text := t |}
    (x ++ y ++ z) = x ++ t ++ z.
Proof.
  unfold splice. simpl. rewrite take_app_length. do 2 f_equal.
  rewrite app_assoc. apply drop_app_length'. by rewrite length_app.
Qed.

Lemma rewrap_ends_quoted v short :
  rewrap_ends (quote :: v ++ [quote]) short
  = quote :: list_ascii_of_string short ++ [quote].
Proof.
  unfold rewrap_ends. simpl. do 2 f_equal.
  rewrite length_app. simpl. rewrite Nat.sub_0_r.
  replace (length v + 1) with (S (length v)) by lia. simpl.
  apply drop_app_length.
Qed.

Lemma plan_one_static content m a b x :
  plan_one (with_markup env) content m
    {| file_path := ""; start := a; stop := b; raw_value := Some x; safe := true |}
  = match lookup_ws m x with
    | Some n => Some {| r_start := a; r_stop := b;
                        r_text := rewrap_ends (slice a b content) n |}
    | None => None
    end.
Proof. unfold plan_one. simpl. by destruct (lookup_ws m x). Qed.

Lemma apply_plan_cons r pl content :
  apply_plan (r :: pl) content = splice r (apply_plan pl content).
Proof. done. Qed.

(** The plan of the scanned occurrences, spliced in from the last range to
    the first, builds what the single pass builds. *)
Lemma apply_plan_one_pass m fuel : ∀ content pre s,
  content = pre ++ s → length s ≤ fuel →
  apply_plan (omap (plan_one (with_markup env) content m) (scan fuel (length pre) s))
    content = pre ++ one_pass m fuel s.
Proof.
  induction fuel as [|fuel IH]; intros content pre s -> Hs; [done|].
  destruct s as [|c s]; [done|]. rewrite scan_cons, one_pass_cons. simpl in Hs.
  case_decide as Hp.
  - pose proof (attr_open_prefix _ Hp) as Hs0.
    destruct (find_quote (drop 7 (c :: s))) as [n|] eqn:Hq; [|done].
    destruct (find_quote_Some _ _ Hq) as (Hbody&Hv&Hn).
    set (v := take n (drop 7 (c :: s))) in *.
    set (rest := drop (S n) (drop 7 (c :: s))) in *.
    set (six := list_ascii_of_string "class=").
    assert (pre ++ c :: s = (pre ++ six) ++ (quote :: v ++ [quote]) ++ rest) as Hcontent.
    { rewrite Hs0, Hbody. unfold attr_open. fold six.
      rewrite <-!app_assoc. simpl. by rewrite <-!app_assoc. }
    assert (length rest ≤ fuel) as Hrest.
    { apply (f_equal length) in Hs0. rewrite Hbody in Hs0.
      rewrite !length_app, attr_open_length in Hs0. simpl in Hs0. lia. }
    specialize (IH (pre ++ c :: s) ((pre ++ six) ++ quote :: v ++ [quote]) rest).
    rewrite <-app_assoc in IH. specialize (IH Hcontent Hrest).
    assert (length ((pre ++ six) ++ quote :: v ++ [quote]) = length pre + 8 + n) as Hlen.
    { rewrite !length_app. simpl. rewrite length_app. simpl. lia. }
    rewrite Hlen in IH. rewrite omap_cons_case, plan_one_static.
    unfold new_value. fold v.
    destruct (lookup_ws m (string_of_list_ascii v)) as [short|].
    + rewrite apply_plan_cons, IH.
      assert (length pre + 6 = length (pre ++ six)) as -> by by rewrite length_app.
      assert (length pre + 8 + n
              = length (pre ++ six) + length (quote :: v ++ [quote])) as ->.
      { rewrite length_app. simpl. rewrite length_app. simpl. lia. }
      rewrite Hcontent at 1. rewrite slice_middle, rewrap_ends_quoted.
      rewrite <-(app_assoc (pre ++ six)), splice_middle.
      unfold attr_open. fold six. rewrite <-!app_assoc. simpl.
      by rewrite <-!app_assoc.
    + rewrite IH. unfold attr_open. fold six. rewrite <-!app_assoc. simpl.
      by rewrite <-!app_assoc.
  - specialize (IH (pre ++ c :: s) (pre ++ [c]) s).
    rewrite <-app_assoc, length_app in IH. simpl in IH.
    replace (length pre + 1) with (S (length pre)) in IH by lia.
    rewrite IH; [by rewrite <-app_assoc|done|lia].
Qed.

Lemma rewritten_one_pass content m :
  rewritten env content m = one_pass m (length content) content.
Proof.
  pose proof (apply_plan_one_pass m (length content) content [] content
                eq_refl (le_n _)) as H.
  unfold rewritten, rewrite, plan. cbn [text].
  rewrite merge_sort_sorted by apply scan_sorted. exact H.
Qed.

(** With the sample scanner for a parser, and when moreover no short name
    contains a double quote, the second parse is as assumed above: the
    file read again and rewritten again is the file of the first
    rewrite. *)
Lemma scanner_rewriting_is_idempotent content m :
  settled m →
  rewritten env (rewritten env content m) m = rewritten env content m.
Proof.
  intros Hm. rewrite (rewritten_one_pass (rewritten env content m)).
  rewrite rewritten_one_pass. by apply one_pass_idem.
Qed.

(** ** Further properties of the processor *)

(** *** [generateMappings] only appends *)

Lemma map_one_grows p c :
  ∃ more, mappings (map_one env p c) = mappings p ++ more ∧
          more.*1 = (if decide (c ∈ (mappings p).*1) then [] else [c]).
Proof.
  unfold map_one. destruct (map_has c (mappings p)) eqn:Hhas.
  - apply map_has_true in Hhas. exists []. rewrite app_nil_r.
    by rewrite decide_True.
  - assert (c ∉ (mappings p).*1) as Hc by (intros ?%map_has_true; congruence).
    destruct (generateClassName env _ _ _) as [n g]. simpl.
    exists [(c, n)]. rewrite decide_False by done. by rewrite map_set_absent.
Qed.

Lemma foldl_map_one_grows cs : ∀ p,
  ∃ more, mappings (foldl (map_one env) p cs) = mappings p ++ more ∧
          (mappings p).*1 ++ more.*1 = add_all cs (mappings p).*1.
Proof.
  induction cs as [|c cs IH]; intros p; simpl.
  - exists []. by rewrite !app_nil_r.
  - destruct (map_one_grows p c) as (m1&H1&K1).
    destruct (IH (map_one env p c)) as (m2&H2&K2).
    exists (m1 ++ m2). rewrite H2, H1, <-app_assoc. split; [done|].
    rewrite fmap_app, app_assoc. rewrite H1, fmap_app in K2. rewrite K2.
    unfold add_all. simpl. do 2 f_equal. unfold set_add. rewrite K1.
    case_decide; [by rewrite app_nil_r|done].
Qed.

Lemma map_one_known p c : c ∈ (mappings p).*1 → map_one env p c = p.
Proof.
  intros Hc%map_has_true. unfold map_one. by rewrite Hc.
Qed.

Lemma foldl_map_one_known cs : ∀ p,
  Forall (λ c, c ∈ (mappings p).*1) cs → foldl (map_one env) p cs = p.
Proof.
  induction cs as [|c cs IH]; intros p Hcs; simpl; [done|].
  apply Forall_cons in Hcs as [Hc Hcs]. rewrite map_one_known by done. by apply IH.
Qed.

Lemma first_seen_NoDup l : NoDup l → first_seen l = l.
Proof.
  induction 1 as [|x l Hx Hl IH]; simpl; [done|]. rewrite IH. f_equal.
  apply filter_all. intros y Hy ->. done.
Qed.

(** X1. In every mode, and whatever the processor holds already, a call of
    [generateMappings] leaves the entries of the mapping where they are and
    appends one entry for each class-string of the parse results that has
    none yet, in the order in which these are first met.  An entry that
    was there is what its class-string still resolves to. *)
Theorem generateMappings_appends_in_order p rs :
  ∃ more,
    mappings (generateMappings env p rs) = mappings p ++ more ∧
    more.*1 = filter (λ c, c ∉ (mappings p).*1)
                (first_seen (mjoin (classNames <$> rs))) ∧
    (∀ c n, map_get c (mappings p) = Some n →
       map_get c (mappings (generateMappings env p rs)) = Some n).
Proof.
  unfold generateMappings.
  destruct (foldl_map_one_grows (collect rs) p) as (more&Hm&Hk).
  exists more. split; [done|]. split.
  - rewrite add_all_first_seen in Hk. apply app_inv_head in Hk.
    by rewrite first_seen_NoDup, collect_first_seen in Hk by apply collect_NoDup.
  - intros c n Hc. by rewrite Hm, map_get_app, Hc.
Qed.

(** *** A second call with nothing new *)

Lemma generateMappings_known p rs :
  (∀ r c, r ∈ rs → c ∈ classNames r → c ∈ (mappings p).*1) →
  generateMappings env p rs = p.
Proof.
  intros Hknown. unfold generateMappings. apply foldl_map_one_known.
  apply Forall_forall. intros c (r&Hr&Hc)%collect_elem. by apply (Hknown r).
Qed.

(** X2. When every class-string of the parse results handed over has an entry
    already, be it from before or from an earlier call, [generateMappings]
    changes nothing: the mapping is the same, no name is asked of the
    generator and its counter stays. *)
Theorem generateMappings_nothing_new p rs rs' :
  (∀ r' c, r' ∈ rs' → c ∈ classNames r' →
     c ∈ (mappings p).*1 ∨ ∃ r, r ∈ rs ∧ c ∈ classNames r) →
  generateMappings env (generateMappings env p rs) rs' = generateMappings env p rs.
Proof.
  intros Hsub. apply generateMappings_known. intros r' c Hr' Hc.
  apply generateMappings_key_elem. by apply (Hsub r').
Qed.

(** *** The canonical form of a class-string *)

Lemma append_cons c s t : String c s +:+ t = String c (s +:+ t).
Proof. done. Qed.

Lemma append_empty_r s : s +:+ "" = s.
Proof. induction s as [|c s IH]; [done|]. by rewrite append_cons, IH. Qed.

Lemma rev_app_rev_app t : ∀ cur acc,
  String.rev_app (String.rev_app t cur) acc = String.rev_app cur (t +:+ acc).
Proof.
  induction t as [|c t IH]; intros cur acc; [done|].
  rewrite append_cons. simpl. by rewrite IH.
Qed.

Lemma rev_rev_app t : String.rev (String.rev_app t "") = t.
Proof. unfold String.rev. rewrite rev_app_rev_app. simpl. apply append_empty_r. Qed.

Lemma split_go_token t : ∀ cur b s,
  no_space t → t ≠ "" →
  split_go cur b (t +:+ s) = split_go (String.rev_app t cur) false s.
Proof.
  induction t as [|c t IH]; intros cur b s Ht Hne; [done|].
  destruct Ht as [Hc Ht]. rewrite append_cons. simpl. rewrite Hc.
  destruct t as [|c' t']; [done|].
  by rewrite (IH (String c cur) false s).
Qed.

(** Splitting what was joined by single spaces gives the pieces back. *)
Lemma split_go_join l : ∀ b,
  l ≠ [] → Forall (λ t, no_space t ∧ t ≠ "") l → split_go "" b (join " " l) = l.
Proof.
  induction l as [|t l IH]; intros b Hne Hl; [done|].
  apply Forall_cons in Hl as [[Ht Hte] Hl].
  destruct l as [|t2 l].
  - simpl. rewrite <-(append_empty_r t) at 1.
    rewrite split_go_token by done. simpl. by rewrite rev_rev_app.
  - change (join " " (t :: t2 :: l)) with (t +:+ String " " (join " " (t2 :: l))).
    rewrite split_go_token by done.
    change (split_go (String.rev_app t "") false (String " " (join " " (t2 :: l))))
      with (String.rev (String.rev_app t "") :: split_go "" true (join " " (t2 :: l))).
    rewrite rev_rev_app. f_equal. by apply IH.
Qed.

Lemma tokens_join l :
  Forall (λ t, no_space t ∧ t ≠ "") l → tokens (join " " l) = l.
Proof.
  intros Hl. unfold tokens, split_ws. destruct l as [|t l]; [done|].
  rewrite split_go_join by done. apply filter_all.
  intros x Hx. apply (proj1 (Forall_forall _ _) Hl) in Hx as [_ Hx].
  destruct x; [done|]. simpl. lia.
Qed.

Lemma tokens_pieces s : Forall (λ t, no_space t ∧ t ≠ "") (tokens s).
Proof.
  apply Forall_forall. intros t [Hlen Ht]%list_elem_of_filter. split.
  - assert (Forall no_space (split_ws s)) as H by by apply split_go_no_space.
    by apply (proj1 (Forall_forall _ _) H).
  - intros ->. simpl in Hlen. lia.
Qed.

Lemma tokens_normalized s : tokens (normalized s) = js_sort (tokens s).
Proof.
  rewrite normalized_tokens. apply tokens_join.
  rewrite (proj2 (js_sort_sorted _)). apply tokens_pieces.
Qed.

(** X3. The canonical form under which [generateCSSFile] groups the entries is
    a normal form: its tokens are those of the class-string, sorted, it is
    its own canonical form, and two class-strings have the same canonical
    form exactly when they have the same tokens, each as often, in whatever
    order and with whatever white space between them.  A repeated token is
    not dropped.  The canonical form is empty exactly for a class-string
    without tokens. *)
Theorem normalized_is_canonical :
  (∀ s, tokens (normalized s) = js_sort (tokens s)) ∧
  (∀ s, normalized (normalized s) = normalized s) ∧
  (∀ a b, normalized a = normalized b ↔ tokens a ≡ₚ tokens b) ∧
  (∀ s, normalized s = "" ↔ tokens s = []).
Proof.
  split_and!.
  - apply tokens_normalized.
  - intros s. rewrite (normalized_tokens (normalized s)), tokens_normalized.
    rewrite (js_sort_perm (js_sort (tokens s)) (tokens s)) by apply js_sort_sorted.
    by rewrite normalized_tokens.
  - intros a b. split; [|apply normalized_perm].
    intros H. rewrite <-(proj2 (js_sort_sorted (tokens a))).
    rewrite <-(proj2 (js_sort_sorted (tokens b))).
    by rewrite <-!tokens_normalized, H.
  - intros s. split.
    + intros H. apply Permutation_nil_r.
      rewrite <-(proj2 (js_sort_sorted (tokens s))).
      by rewrite <-tokens_normalized, H.
    + intros H. by rewrite normalized_tokens, H.
Qed.

(** *** How many rules *)

Lemma seen_fold_fresh (m : JsMap) : ∀ acc,
  NoDup (acc.*1 ++ (normalized <$> m.*1)) →
  foldl seen_step acc m = acc ++ ((λ e, (normalized e.1, to_rule e)) <$> m).
Proof.
  induction m as [|e m IH]; intros acc Hnd; simpl; [by rewrite app_nil_r|].
  simpl in Hnd.
  assert (normalized e.1 ∉ acc.*1) as Hnew.
  { apply NoDup_app in Hnd as (_&Hd&_). intros Hin. apply (Hd _ Hin). left. }
  replace (seen_step acc e) with (acc ++ [(normalized e.1, to_rule e)])
    by (unfold seen_step; by rewrite decide_False).
  rewrite IH; [by rewrite <-app_assoc|].
  rewrite fmap_app, <-app_assoc. done.
Qed.

Lemma dedupe_forms (m : JsMap) :
  NoDup ((λ cm, normalized (original cm)) <$> dedupe m) ∧
  dedupe m `sublist_of` (to_rule <$> m).
Proof.
  destruct (seen_fold_keys m []) as (Hkeys&Hform&more&Hmore&Hsub);
    [constructor|by intros ?? ?%elem_of_nil|].
  split; [|unfold dedupe; by rewrite Hmore].
  unfold dedupe.
  replace ((λ cm, normalized (original cm)) <$> (foldl seen_step [] m).*2)
    with (foldl seen_step [] m).*1; [done|].
  rewrite <-list_fmap_compose. apply list_fmap_ext.
  intros i [k cm] Hin%list_elem_of_lookup_2. simpl. by apply Hform.
Qed.

Lemma forms_of_rules (m : JsMap) :
  (λ cm, normalized (original cm)) <$> (to_rule <$> m) = normalized <$> m.*1.
Proof. rewrite <-!list_fmap_compose. by apply list_fmap_ext. Qed.

Lemma sublist_full {A} (l1 l2 : list A) :
  l1 `sublist_of` l2 → length l2 ≤ length l1 → l1 = l2.
Proof.
  induction 1 as [|x l1 l2 _ IH|x l1 l2 Hs _]; simpl; intros Hlen; [done| |].
  - f_equal. apply IH. lia.
  - apply sublist_length in Hs. lia.
Qed.

(** X4. The stylesheet has as many rules as the mapping has canonical forms.
    It has a rule for every entry, in the order of the mapping, exactly
    when no two entries share a canonical form; otherwise it has fewer
    rules than the mapping has entries. *)
Theorem dedupe_counts_canonical_forms (m : JsMap) :
  length (dedupe m) = length (remove_dups (normalized <$> m.*1)) ∧
  (dedupe m = to_rule <$> m ↔ NoDup (normalized <$> m.*1)) ∧
  (¬ NoDup (normalized <$> m.*1) → length (dedupe m) < length m).
Proof.
  destruct (dedupe_forms m) as [Hnd Hsub].
  assert (dedupe m = to_rule <$> m ↔ NoDup (normalized <$> m.*1)) as Hiff.
  { split.
    - intros Heq. rewrite Heq, forms_of_rules in Hnd. done.
    - intros H. unfold dedupe. rewrite seen_fold_fresh by done. simpl.
      rewrite <-list_fmap_compose. by apply list_fmap_ext. }
  split_and!; [|done|].
  - rewrite <-(length_fmap (λ cm, normalized (original cm)) (dedupe m)).
    apply Permutation_length, NoDup_Permutation; [done|apply NoDup_remove_dups|].
    intros k. rewrite elem_of_remove_dups. split.
    + intros (cm&->&Hcm)%list_elem_of_fmap.
      rewrite <-forms_of_rules.
      apply (list_elem_of_fmap_2 (λ cm, normalized (original cm))).
      by eapply elem_of_sublist.
    + intros (a&->&Ha)%list_elem_of_fmap.
      destruct (dedupe_covers m a Ha) as (cm&Hcm&<-).
      by apply (list_elem_of_fmap_2 (λ cm, normalized (original cm))).
  - intros Hdup. apply sublist_length in Hsub as Hle.
    rewrite length_fmap in Hle.
    destruct (decide (length (dedupe m) = length m)) as [Heq|]; [|lia].
    exfalso. apply Hdup, Hiff. apply sublist_full; [done|].
    rewrite length_fmap. lia.
Qed.

(** *** A short name without a rule *)

(** X5. The rewriter is handed the whole mapping, the stylesheet writer only
    the first entry of each canonical form.  So when two class-strings with
    the same tokens in a different order both have an entry, and the short
    names of the mapping are distinct, the stylesheet has a rule for the
    canonical form under the short name of the earlier entry, and the short
    name of the later one is the selector of no rule. *)
Theorem later_entry_has_no_rule (m : JsMap) i j a na b nb :
  NoDup m.*2 →
  m !! i = Some (a, na) → m !! j = Some (b, nb) → i < j →
  tokens a ≡ₚ tokens b →
  (nb ∉ generated <$> dedupe m) ∧
  ∃ cm, cm ∈ dedupe m ∧ normalized (original cm) = normalized b ∧
        generated cm ≠ nb.
Proof.
  intros Hnd Hi Hj Hij Hperm.
  assert (nb ∉ generated <$> dedupe m) as Hno.
  { intros (cm&Hg&Hcm)%list_elem_of_fmap.
    apply dedupe_elem in Hcm. apply first_of_form_Some in Hcm as (i0&Hi0&_&Hfirst).
    assert (i0 = j) as ->.
    { apply (NoDup_lookup m.*2 i0 j nb); [done|..]; rewrite list_lookup_fmap.
      - by rewrite Hi0, Hg.
      - by rewrite Hj. }
    rewrite Hj in Hi0. injection Hi0 as Hb _.
    apply (Hfirst i (a, na) Hi Hij). simpl. rewrite <-Hb. by apply normalized_perm. }
  split; [done|].
  destruct (dedupe_covers m b) as (cm&Hcm&Hform).
  { apply list_elem_of_fmap. exists (b, nb). split; [done|].
    by eapply list_elem_of_lookup_2. }
  exists cm. split_and!; [done..|]. intros Heq. apply Hno.
  rewrite <-Heq. by apply list_elem_of_fmap_2.
Qed.

(** *** What a run prints *)

Lemma marks_app tr1 tr2 : marks (tr1 ++ tr2) = marks tr1 ++ marks tr2.
Proof. apply omap_app. Qed.

Lemma failed_updates_app tr1 tr2 :
  failed_updates (tr1 ++ tr2) = failed_updates tr1 ++ failed_updates tr2.
Proof. apply omap_app. Qed.

Lemma parse_reports_app tr1 tr2 :
  parse_reports (tr1 ++ tr2) = parse_reports tr1 ++ parse_reports tr2.
Proof. apply omap_app. Qed.

Lemma dry_summaries_app tr1 tr2 :
  dry_summaries (tr1 ++ tr2) = dry_summaries tr1 ++ dry_summaries tr2.
Proof. apply omap_app. Qed.

Lemma completions_app tr1 tr2 :
  completions (tr1 ++ tr2) = completions tr1 ++ completions tr2.
Proof. apply omap_app. Qed.

Lemma silent_app evs1 evs2 : silent evs1 → silent evs2 → silent (evs1 ++ evs2).
Proof.
  intros (H1&H2&H3&H4&H5) (G1&G2&G3&G4&G5). unfold silent.
  rewrite marks_app, failed_updates_app, parse_reports_app, dry_summaries_app,
    completions_app.
  by rewrite H1, H2, H3, H4, H5, G1, G2, G3, G4, G5.
Qed.

Lemma glob_warnings_silent (l : list string) : silent (WarnGlobFailed <$> l).
Proof.
  induction l as [|x l IH]; [done|].
  apply (silent_app [WarnGlobFailed x] _); [done|exact IH].
Qed.

(** The rewriter adds at most its plan report to the trace. *)
Lemma replace_events path m dry w :
  ∃ evs, trace (replaceClassNamesInFile env path m dry w).1 = trace w ++ evs ∧
         silent evs ∧ replace_calls evs = [] ∧ css_calls evs = [].
Proof.
  unfold replaceClassNamesInFile.
  destruct (files w !! path) as [content|];
    [|exists []; by rewrite app_nil_r].
  destruct (parse env _ content) as [occs|reason];
    [|exists []; by rewrite app_nil_r].
  destruct dry; [by eexists [_]|].
  unfold write_file. case_decide; simpl; exists []; by rewrite app_nil_r.
Qed.

Lemma update_events p r w :
  ∃ evs, trace (updateSourceFile env p r w) = trace w ++ evs ∧
    parse_reports evs = [] ∧ dry_summaries evs = [] ∧ completions evs = [] ∧
    ((¬ has_classes r ∧ evs = []) ∨
     (has_classes r ∧ marks evs = [ok_mark (dryRun p)] ∧ failed_updates evs = []) ∨
     (has_classes r ∧ marks evs = ["✗"] ∧ failed_updates evs = [filePath r])).
Proof.
  unfold updateSourceFile, has_classes. case_bool_decide as Hc.
  2:{ exists []. rewrite app_nil_r. split_and!; [done..|]. by left. }
  destruct (replace_events (filePath r) (mappings p) (dryRun p)
    (emit (CallReplace (filePath r) (mappings p) (dryRun p)) w))
    as (evs&Ht&(S1&S2&S3&S4&S5)&_).
  destruct (replaceClassNamesInFile _ _ _ _ _) as [w1 [e|]]; simpl in Ht.
  - exists (CallReplace (filePath r) (mappings p) (dryRun p) :: evs
            ++ [ErrorUpdateFailed (filePath r) e; Stdout "✗"]).
    simpl. rewrite Ht, <-!app_assoc. split; [done|].
    change (CallReplace (filePath r) (mappings p) (dryRun p) :: evs ++ ?l)
      with ([CallReplace (filePath r) (mappings p) (dryRun p)] ++ evs ++ l).
    rewrite !parse_reports_app, !dry_summaries_app, !completions_app,
      !marks_app, !failed_updates_app, S1, S2, S3, S4, S5.
    split_and!; [done..|]. right; right. by split_and!.
  - exists (CallReplace (filePath r) (mappings p) (dryRun p) :: evs
            ++ [Stdout (ok_mark (dryRun p))]).
    simpl. rewrite Ht, <-!app_assoc. split; [done|].
    change (CallReplace (filePath r) (mappings p) (dryRun p) :: evs ++ ?l)
      with ([CallReplace (filePath r) (mappings p) (dryRun p)] ++ evs ++ l).
    rewrite !parse_reports_app, !dry_summaries_app, !completions_app,
      !marks_app, !failed_updates_app, S1, S2, S3, S4, S5.
    split_and!; [done..|]. right; left. by split_and!.
Qed.

Lemma update_all_events p rs : ∀ w,
  ∃ evs, trace (foldl (λ w r, updateSourceFile env p r w) w rs) = trace w ++ evs ∧
    parse_reports evs = [] ∧ dry_summaries evs = [] ∧ completions evs = [] ∧
    Forall2 (λ r m, m = ok_mark (dryRun p) ∨ m = "✗")
      (filter has_classes rs) (marks evs) ∧
    failed_updates evs =
      (filter (λ x, x.2 = "✗")
         (zip (filePath <$> filter has_classes rs) (marks evs))).*1.
Proof.
  assert (ok_mark (dryRun p) ≠ "✗") as Hok by by destruct (dryRun p).
  induction rs as [|r rs IH]; intros w; cbn [foldl].
  - exists []. rewrite app_nil_r. split_and!; [done..|constructor|done].
  - destruct (update_events p r w) as (evs1&Ht1&P1&D1&C1&Hcase).
    destruct (IH (updateSourceFile env p r w)) as (evs2&Ht2&P2&D2&C2&Hm&Hf).
    exists (evs1 ++ evs2). rewrite Ht2, Ht1, <-app_assoc.
    rewrite parse_reports_app, dry_summaries_app, completions_app, marks_app,
      failed_updates_app, P1, P2, D1, D2, C1, C2.
    split_and!; [done..| |].
    + destruct Hcase as [[Hc ->]|[(Hc&->&_)|(Hc&->&_)]].
      * by rewrite filter_cons_False.
      * rewrite filter_cons_True by done. constructor; [by left|done].
      * rewrite filter_cons_True by done. constructor; [by right|done].
    + destruct Hcase as [[Hc ->]|[(Hc&->&->)|(Hc&->&->)]].
      * by rewrite filter_cons_False.
      * rewrite filter_cons_True by done. rewrite fmap_cons.
        change (zip (?a :: ?l) ([?b] ++ ?k)) with ((a, b) :: zip l k).
        by rewrite filter_cons_False.
      * rewrite filter_cons_True by done. rewrite fmap_cons.
        change (zip (?a :: ?l) ([?b] ++ ?k)) with ((a, b) :: zip l k).
        rewrite filter_cons_True by done. rewrite fmap_cons. simpl. by f_equal.
Qed.

Lemma omap_shorter {A B} (f : A → option B) l : length (omap f l) ≤ length l.
Proof.
  induction l as [|x l IH]; [done|]. rewrite omap_cons_case.
  destruct (f x); simpl; lia.
Qed.

Lemma report_all_trace rs : ∀ w,
  trace (foldl report_failed w rs) = trace w ++ omap failure_line rs.
Proof.
  induction rs as [|r rs IH]; intros w; cbn [foldl]; [by rewrite app_nil_r|].
  rewrite IH, omap_cons_case.
  assert (trace (report_failed w r) = trace w ++ option_list (failure_line r)) as ->.
  { unfold report_failed, failure_line.
    destruct (error r) as [reason|]; [|by rewrite app_nil_r].
    case_decide; simpl; [by rewrite app_nil_r|done]. }
  destruct (failure_line r); simpl; by rewrite <-?app_assoc, ?app_nil_r.
Qed.

Lemma failure_lines_reports rs :
  parse_reports (omap failure_line rs) = omap failure_line rs ∧
  marks (omap failure_line rs) = [] ∧ failed_updates (omap failure_line rs) = [] ∧
  dry_summaries (omap failure_line rs) = [] ∧ completions (omap failure_line rs) = [].
Proof.
  induction rs as [|r rs (IH1&IH2&IH3&IH4&IH5)]; [done|].
  rewrite omap_cons_case.
  assert (failure_line r = None ∨
          ∃ reason, failure_line r = Some (ErrorParseFailed (filePath r) reason))
    as [->|[reason ->]]; [|done|].
  { unfold failure_line. destruct (error r) as [reason|]; [|by left].
    case_decide; [by left|right; by exists reason]. }
  change (?e :: omap failure_line rs) with ([e] ++ omap failure_line rs).
  rewrite parse_reports_app, marks_app, failed_updates_app, dry_summaries_app,
    completions_app, IH1, IH2, IH3, IH4, IH5. done.
Qed.

Lemma failure_report_reports rs :
  parse_reports (failure_report rs) = failure_report rs ∧
  marks (failure_report rs) = [] ∧ failed_updates (failure_report rs) = [] ∧
  dry_summaries (failure_report rs) = [] ∧ completions (failure_report rs) = [].
Proof.
  unfold failure_report. case_decide; [done|].
  destruct (failure_lines_reports rs) as (H1&H2&H3&H4&H5).
  change (?e :: omap failure_line rs) with ([e] ++ omap failure_line rs).
  rewrite parse_reports_app, marks_app, failed_updates_app, dry_summaries_app,
    completions_app, H1, H2, H3, H4, H5. done.
Qed.

(** The trace of a run from the parse results on: the report of the parse
    failures, the updates [U], and the stylesheet step with the closing
    lines [Z].  The last event of [Z] is the last one recorded here; on the
    console of a run that returns, the line of [logger.performance] for the
    whole run follows the completion line. *)
Lemma process_parsed_trace p rs w :
  let failed := filter (λ r, success r = false) rs in
  let touched := filter has_classes (succeeded rs) in
  let p' := generateMappings env p (succeeded rs) in
  ∃ w' r U Z,
    process_parsed env p rs w = (p', w', r) ∧
    trace w' = trace w ++ failure_report failed ++ U ++ Z ∧
    (parse_reports U = [] ∧ dry_summaries U = [] ∧ completions U = [] ∧
     Forall2 (λ r m, m = ok_mark (dryRun p) ∨ m = "✗") touched (marks U) ∧
     failed_updates U =
       (filter (λ x, x.2 = "✗") (zip (filePath <$> touched) (marks U))).*1) ∧
    (marks Z = [] ∧ failed_updates Z = [] ∧ parse_reports Z = [] ∧
     dry_summaries Z = (if dryRun p then [filePath <$> touched] else []) ∧
     completions Z = (if r is None then [output (config p)] else []) ∧
     last Z = Some (match r with
                    | Some e => ErrorProcess e
                    | None => InfoCompleted (output (config p))
                    end)) ∧
    (replace_calls U = (succeeded rs ≫= update_call p') ∧ css_calls U = [] ∧
     replace_calls Z = [] ∧ css_calls Z = css_call p').
Proof.
  intros failed touched p'. unfold process_parsed.
  fold (succeeded rs). fold failed. fold p'.
  destruct (generateMappings_fields p (succeeded rs)) as [Hcfg Hdry].
  fold p' in Hcfg, Hdry.
  set (wr := if bool_decide _ then _ else w).
  assert (trace wr = trace w ++ failure_report failed) as Hwr.
  { unfold wr, failure_report. destruct failed as [|r0 failed0] eqn:Hfailed.
    - simpl. by rewrite app_nil_r.
    - rewrite bool_decide_eq_true_2 by (simpl; lia).
      rewrite decide_False by done. rewrite report_all_trace. simpl.
      by rewrite <-app_assoc. }
  destruct (update_all_events p' (succeeded rs) wr) as (U&HU&P&D&C&Hm&Hf).
  rewrite Hdry in Hm. fold touched in Hm, Hf.
  assert (replace_calls U = (succeeded rs ≫= update_call p') ∧ css_calls U = [])
    as [HrcU HccU].
  { destruct (update_all_spec p' (succeeded rs) wr) as ((_&_&Hrc&Hcc)&_).
    rewrite HU, replace_calls_app in Hrc. rewrite HU, css_calls_app in Hcc.
    by apply app_inv_head in Hrc, Hcc. }
  set (wu := foldl _ wr (succeeded rs)) in *.
  unfold css_call. rewrite Hdry, Hcfg.
  unfold generateCSSFile. rewrite Hdry, Hcfg.
  destruct (dryRun p) eqn:Hd.
  - eexists _, None, U, [_; _; _]. split; [done|].
    split; [simpl; by rewrite HU, Hwr, <-!app_assoc|done].
  - unfold generateCSS, write_file. simpl.
    destruct (decide (output (config p) ∈ unwritable wu)) as [Hu|Hu].
    + eexists _, (Some _), U, [_; _]. split; [done|].
      split; [simpl; by rewrite HU, Hwr, <-!app_assoc|done].
    + eexists _, None, U, [_; _]. split; [done|].
      split; [simpl; by rewrite HU, Hwr, <-!app_assoc|done].
Qed.

(** X6. The parse failures are reported once the files are parsed: nothing when
    every parse succeeded, otherwise one warning with the number of failed
    results, then one line for each failed result that carries a reason,
    in the order of the results.  A failed result whose reason is undefined
    or the empty string is counted in the warning and gets no line. *)
Theorem parse_failures_are_reported_once p rs w :
  let failed := filter (λ r, success r = false) rs in
  parse_reports (trace (process_parsed env p rs w).1.2) =
    parse_reports (trace w) ++
    (if decide (failed = []) then []
     else WarnParseFailures (length failed) :: omap failure_line failed) ∧
  length (omap failure_line failed) ≤ length failed ∧
  (∀ r reason, r ∈ failed → error r = Some reason → reason ≠ "" →
     ErrorParseFailed (filePath r) reason ∈ omap failure_line failed) ∧
  (∀ f reason, ErrorParseFailed f reason ∈ omap failure_line failed →
     reason ≠ "" ∧ ∃ r, r ∈ rs ∧ success r = false ∧ filePath r = f ∧
                        error r = Some reason).
Proof.
  intros failed.
  destruct (process_parsed_trace p rs w)
    as (w'&r&U&Z&Hp&Ht&(P&_)&(_&_&PZ&_)&_).
  fold failed in Ht. rewrite Hp. simpl. split_and!.
  - rewrite Ht, !parse_reports_app, P, PZ, !app_nil_r.
    by rewrite (proj1 (failure_report_reports failed)).
  - apply omap_shorter.
  - intros r0 reason Hin He Hne. apply list_elem_of_omap. exists r0.
    split; [done|]. unfold failure_line. rewrite He. by rewrite decide_False.
  - intros f reason (r0&Hin&Hline)%list_elem_of_omap.
    unfold failure_line in Hline. destruct (error r0) as [reason0|] eqn:He; [|done].
    case_decide; [done|]. injection Hline as <- <-.
    apply list_elem_of_filter in Hin as [Hs Hin]. split; [done|]. by exists r0.
Qed.


(** X8. A dry run closes with one summary, and the files it lists are the files
    the rewriter was called for in this run, in the order of the calls; a
    run that writes has no summary. *)
Theorem dry_run_summary_lists_the_updates p rs w :
  let w' := (process_parsed env p rs w).1.2 in
  ∃ calls,
    replace_calls (trace w') = replace_calls (trace w) ++ calls ∧
    dry_summaries (trace w') =
      dry_summaries (trace w) ++ (if dryRun p then [calls.*1.*1] else []).
Proof.
  intros w'. unfold w'.
  destruct (process_parsed_trace p rs w)
    as (w1&r&U&Z&Hp&Ht&(_&DU&_)&(_&_&_&DZ&_)&_).
  destruct (process_parsed_spec p rs w) as (w2&r2&Hp2&(_&_&Hrc&_)&_).
  rewrite Hp in Hp2. injection Hp2 as <- <-.
  rewrite Hp. simpl. eexists. split; [exact Hrc|].
  destruct (failure_report_reports (filter (λ r, success r = false) rs))
    as (_&_&_&DR&_).
  rewrite Ht, !dry_summaries_app, DR, DU, DZ. simpl.
  destruct (dryRun p); [|done]. do 2 f_equal.
  rewrite update_calls_fmap, <-!list_fmap_compose. by apply list_fmap_ext.
Qed.



(** *** The whole run *)

Lemma findFiles_from_found cfg patterns : ∀ acc w1 w2,
  (findFiles_from env cfg patterns acc w1).1 = (findFiles_from env cfg patterns acc w2).1.
Proof.
  induction patterns as [|pat ps IH]; intros acc w1 w2; simpl; [done|].
  destruct (glob env pat (ignore cfg)); apply IH.
Qed.

Lemma parseFile_ext w1 w2 f : files w1 = files w2 → parseFile env w1 f = parseFile env w2 f.
Proof. intros H. unfold parseFile. by rewrite H. Qed.

(** What is found and parsed depends on the files only. *)
Lemma parse_results_ext cfg w1 w2 :
  files w1 = files w2 → parse_results env cfg w1 = parse_results env cfg w2.
Proof.
  intros H. unfold parse_results, found_files, findFiles.
  rewrite (findFiles_from_found cfg (input cfg) [] w1 w2).
  apply list_fmap_ext. intros i f _. apply parseFile_ext.
  destruct (findFiles_steps cfg w1) as [_ H1].
  destruct (findFiles_steps cfg w2) as [_ H2].
  unfold findFiles in H1, H2. by rewrite H1, H2.
Qed.

Lemma update_without_classes p r w : ¬ has_classes r → updateSourceFile env p r w = w.
Proof.
  intros Hc. unfold updateSourceFile. by rewrite bool_decide_eq_false_2.
Qed.

Lemma update_all_filter p rs : ∀ w,
  foldl (λ w r, updateSourceFile env p r w) w rs =
  foldl (λ w r, updateSourceFile env p r w) w (filter has_classes rs).
Proof.
  induction rs as [|r rs IH]; intros w; [done|].
  destruct (decide (has_classes r)) as [Hc|Hc].
  - rewrite filter_cons_True by done. simpl. apply IH.
  - rewrite filter_cons_False by done. simpl.
    rewrite update_without_classes by done. apply IH.
Qed.

Lemma process_parsed_untouched p rs w f :
  f ∉ filePath <$> filter has_classes (succeeded rs) → f ≠ output (config p) →
  files (process_parsed env p rs w).1.2 !! f = files w !! f.
Proof.
  intros Hf Hout. unfold process_parsed. fold (succeeded rs).
  set (p' := generateMappings env p (succeeded rs)).
  destruct (generateMappings_fields p (succeeded rs)) as [Hcfg Hdry'].
  fold p' in Hcfg, Hdry'.
  set (wr := if bool_decide _ then _ else w).
  assert (same_disk wr w) as [Hfr Hur].
  { unfold wr. case_bool_decide; [|done].
    eapply same_disk_trans; [apply report_all_same_disk|done]. }
  rewrite update_all_filter.
  destruct (update_all_spec p' (filter has_classes (succeeded rs)) wr) as (_&_&Hkeep).
  specialize (Hkeep f Hf).
  set (wu := foldl _ wr (filter has_classes (succeeded rs))) in *.
  pose proof (generateCSSFile_spec p' wu) as Hcss.
  destruct (generateCSSFile env p' wu) as [wc [e|]];
    destruct Hcss as (_&_&_&_&_&Hother); simpl.
  - rewrite Hother by by rewrite Hcfg. by rewrite Hkeep, Hfr.
  - assert (files (if dryRun p' then emit (InfoDryRunSummary
       (filePath <$> filter (λ r, 0 < length (classNames r)) (succeeded rs))) wc
        else wc) = files wc) as -> by by destruct (dryRun p').
    rewrite Hother by by rewrite Hcfg. by rewrite Hkeep, Hfr.
Qed.

(** The trace of a whole run: the warnings of the discovery, then the trace
    of the run from the parse results on. *)
Lemma process_trace p w :
  let rs := parse_results env (config p) w in
  let touched := filter has_classes (succeeded rs) in
  ∃ w' r G U Z,
    process env p w = (generateMappings env p (succeeded rs), w', r) ∧
    trace w' = trace w ++ G
      ++ failure_report (filter (λ r, success r = false) rs) ++ U ++ Z ∧
    silent G ∧
    completions U = [] ∧
    completions Z = (if r is None then [output (config p)] else []) ∧
    last Z = Some (match r with
                   | Some e => ErrorProcess e
                   | None => InfoCompleted (output (config p))
                   end).
Proof.
  intros rs touched. rewrite process_unfold. fold rs.
  destruct (findFiles_from_spec (config p) (input (config p)) [] w)
    as (_&_&_&_&Ht0); [constructor|].
  fold (findFiles env (config p) w) in Ht0.
  destruct (process_parsed_trace p rs (findFiles env (config p) w).2)
    as (w'&r&U&Z&Hp&Ht&(_&_&CU&_)&(_&_&_&_&CZ&HZ)&_).
  exists w', r, (WarnGlobFailed <$>
     filter (λ pat, glob env pat (ignore (config p)) = None) (input (config p))), U, Z.
  split; [done|].
  split; [by rewrite Ht, Ht0, <-!app_assoc|].
  split; [apply glob_warnings_silent|done].
Qed.

(** X10. A run changes no file but the files it updates and the stylesheet: a
    file that was not found, one whose parse failed, and one without
    class-strings are after the run what they were before, and so is the
    set of paths that cannot be written. *)
Theorem process_leaves_other_files p w :
  let touched := filter has_classes (succeeded (parse_results env (config p) w)) in
  unwritable (process env p w).1.2 = unwritable w ∧
  (∀ f, f ∉ filePath <$> touched → f ≠ output (config p) →
     files (process env p w).1.2 !! f = files w !! f) ∧
  filePath <$> touched `sublist_of` found_files env (config p) w.
Proof.
  intros touched. split_and!.
  - destruct (process_spec p w) as (w'&r&->&(Hu&_)&_). done.
  - intros f Hf Hout. rewrite process_unfold.
    rewrite process_parsed_untouched by done.
    by destruct (findFiles_steps (config p) w) as [_ ->].
  - rewrite <-parse_results_paths. apply fmap_sublist.
    unfold touched, succeeded. etrans; apply sublist_filter.
Qed.

(** X11. When the stylesheet cannot be written, [process] throws the write
    error after the source files have been updated, and nothing is undone:
    every file that was parsed, has class-strings and can be written holds
    its rewritten content.  The run ends with the error line, and the line
    that reports completion is not written. *)
Theorem stylesheet_failure_keeps_rewrites p w :
  dryRun p = false → output (config p) ∈ unwritable w →
  ∃ p' w',
    process env p w = (p', w', Some (WriteError (output (config p)))) ∧
    last (trace w') = Some (ErrorProcess (WriteError (output (config p)))) ∧
    completions (trace w') = completions (trace w) ∧
    (∀ f, f ∈ found_files env (config p) w →
       success (parseFile env (findFiles env (config p) w).2 f) = true →
       has_classes (parseFile env (findFiles env (config p) w).2 f) →
       f ∉ unwritable w →
       ∃ content occs,
         files w !! f = Some content ∧
         parse env (file_kind env f) content = ParseOk occs ∧
         files w' !! f = Some (text (rewrite env content occs (mappings p')))).
Proof.
  intros Hdry Hout.
  destruct (process_trace p w) as (w'&r&G&U&Z&Hp&Ht&(_&_&_&_&CG)&CU&CZ&HZ).
  destruct (process_spec p w) as (w2&r2&Hp2&_&_&Hr&Hsome&_).
  rewrite Hp in Hp2. injection Hp2 as <- <-.
  assert (r = Some (WriteError (output (config p)))) as ->.
  { destruct Hr as [-> | ->]; [|done]. exfalso.
    assert (is_Some (@None Exn)) as [e He] by (apply Hsome; by split). done. }
  eexists _, _. split; [exact Hp|]. split_and!.
  - rewrite Ht, !app_assoc. destruct Z as [|z Z] using rev_ind; [done|].
    rewrite last_snoc in HZ. rewrite app_assoc. by rewrite last_snoc.
  - rewrite Ht, !completions_app, CG, CU, CZ.
    destruct (failure_report_reports
                (filter (λ r, success r = false) (parse_results env (config p) w)))
      as (_&_&_&_&->).
    by rewrite !app_nil_r.
  - intros f Hin Hs Hc Hu.
    assert (f ≠ output (config p)) as Hne by (intros ->; done).
    pose proof (process_rewrites_each_file p w f Hin Hs Hc Hdry Hu Hne) as H.
    by rewrite Hp in H.
Qed.

(** X12. When no file that was parsed has a class-string, and so too when no
    file is found, the run leaves the processor as it was, calls the
    rewriter for no file and prints no mark; the stylesheet step runs all
    the same, with the rules of the mapping the processor had, and no file
    but the stylesheet changes. *)
Theorem run_without_class_strings p w :
  (∀ r, r ∈ succeeded (parse_results env (config p) w) → classNames r = []) →
  ∃ w' r,
    process env p w = (p, w', r) ∧
    replace_calls (trace w') = replace_calls (trace w) ∧
    marks (trace w') = marks (trace w) ∧
    css_calls (trace w') = css_calls (trace w) ++ css_call p ∧
    (∀ f, f ≠ output (config p) → files w' !! f = files w !! f).
Proof.
  intros Hnone.
  set (rs := parse_results env (config p) w) in *.
  assert (filter has_classes (succeeded rs) = []) as Htouched.
  { apply filter_none. intros r Hr. unfold has_classes. rewrite (Hnone r Hr).
    simpl. lia. }
  assert (generateMappings env p (succeeded rs) = p) as Hsame.
  { apply generateMappings_known. intros r c Hr Hc. rewrite (Hnone r Hr) in Hc.
    by apply elem_of_nil in Hc. }
  destruct (process_spec p w) as (w'&r&Hp&(_&_&Hrc&Hcc)&_).
  fold rs in Hp, Hrc, Hcc. rewrite Hsame in Hp, Hcc. rewrite Htouched in Hrc.
  exists w', r. split; [done|]. split_and!.
  - by rewrite Hrc, app_nil_r.
  - rewrite process_unfold in Hp. fold rs in Hp.
    destruct (process_parsed_trace p rs (findFiles env (config p) w).2)
      as (w1&r1&U&Z&Hp1&Ht&(_&_&_&Hm&_)&(MZ&_)&_).
    rewrite Hp1 in Hp. injection Hp as _ <- <-.
    rewrite Htouched in Hm. apply Forall2_nil_inv_l in Hm.
    destruct (findFiles_from_spec (config p) (input (config p)) [] w)
      as (_&_&_&_&Ht0); [constructor|].
    fold (findFiles env (config p) w) in Ht0.
    destruct (failure_report_reports (filter (λ r, success r = false) rs))
      as (_&MR&_).
    destruct (glob_warnings_silent
                (filter (λ pat, glob env pat (ignore (config p)) = None)
                   (input (config p)))) as (MG&_).
    rewrite Ht, Ht0, !marks_app, MG, MR, Hm, MZ. by rewrite !app_nil_r.
  - done.
  - intros f Hf. rewrite process_unfold in Hp. fold rs in Hp.
    pose proof (process_parsed_untouched p rs (findFiles env (config p) w).2 f) as H.
    rewrite Htouched, Hp in H. simpl in H. rewrite H; [|apply not_elem_of_nil|done].
    by destruct (findFiles_steps (config p) w) as [_ ->].
Qed.

(** X13. A dry run leaves the files as they are, so a second dry run on the same
    processor finds the same class-strings: it changes nothing in the
    processor, asks the generator for no name, and calls the rewriter for
    the same files with the same mapping. *)
Theorem second_dry_run_changes_nothing p w :
  dryRun p = true →
  ∃ p1 w1 w2 calls,
    process env p w = (p1, w1, None) ∧
    process env p1 w1 = (p1, w2, None) ∧
    files w2 = files w ∧
    replace_calls (trace w1) = replace_calls (trace w) ++ calls ∧
    replace_calls (trace w2) = replace_calls (trace w1) ++ calls.
Proof.
  intros Hdry.
  destruct (process_spec p w) as (w1&r1&Hp1&(_&_&Hrc1&_)&Hd1&_).
  destruct (Hd1 Hdry) as (Hf1&->&_).
  set (rs := succeeded (parse_results env (config p) w)) in *.
  set (p1 := generateMappings env p rs) in *.
  destruct (generateMappings_fields p rs) as [Hcfg Hdry1]. fold p1 in Hcfg, Hdry1.
  destruct (process_spec p1 w1) as (w2&r2&Hp2&(_&_&Hrc2&_)&Hd2&_).
  rewrite Hcfg, (parse_results_ext (config p) w1 w) in Hp2, Hrc2 by done.
  fold rs in Hp2, Hrc2.
  assert (generateMappings env p1 rs = p1) as Hsame.
  { apply generateMappings_known. intros r c Hr Hc.
    apply generateMappings_key_elem. right. by exists r. }
  rewrite Hsame in Hp2, Hrc2.
  destruct Hd2 as (Hf2&->&_); [by rewrite Hdry1|].
  exists p1, w1, w2,
    ((λ r, (filePath r, mappings p1, dryRun p)) <$> filter has_classes rs).
  split_and!; [done|done|congruence|exact Hrc1|].
  by rewrite Hrc2, Hdry1.
Qed.

(** *** [reset] empties the processor's own map *)

(** X14. [reset] clears the [Map] the processor holds and keeps the reference:
    the processor then reads as a new one with the same configuration, and
    a further [getMappings] returns an empty map.  A map that
    [getMappings] returned before the reset is another object and keeps
    its entries. *)
Theorem reset_clears_in_place o st :
  store_ok st → obj_mappings o ∈ dom (objects st) →
  let '(l, st1) := getMappings o st in
  let '(o', st2) := reset_obj o st1 in
  obj_mappings o' = obj_mappings o ∧
  load o' st2 = reset (load o st) ∧
  load o' st2 = new_processor (obj_config o) (obj_dryRun o) ∧
  deref st2 l = deref st (obj_mappings o) ∧
  deref (getMappings o' st2).2 (getMappings o' st2).1 = [] ∧
  load (reset_obj o' st2).1 (reset_obj o' st2).2 = load o' st2 ∧
  store_ok st2.
Proof.
  intros Hok Hin. unfold getMappings, new_map, reset_obj.
  assert (next_ref st ≠ obj_mappings o) as Hne.
  { intros Heq. apply Hok in Hin. lia. }
  assert (∀ st0, deref (mutate (obj_mappings o) OpClear st0) (obj_mappings o) = [])
    as Hclear.
  { intros st0. unfold deref, mutate. simpl. rewrite lookup_alter_eq.
    by destruct (objects st0 !! obj_mappings o). }
  split_and!.
  - done.
  - unfold load, reset. simpl. by rewrite Hclear.
  - unfold load, new_processor. simpl. by rewrite Hclear.
  - unfold deref. rewrite mutate_other by done. simpl.
    by rewrite lookup_insert_eq.
  - unfold deref at 1. simpl. rewrite lookup_insert_eq. simpl. apply Hclear.
  - unfold load. simpl. by rewrite !Hclear.
  - intros l. unfold mutate. simpl. rewrite dom_alter_L, dom_insert_L.
    intros [->%elem_of_singleton|Hl%Hok]%elem_of_union; lia.
Qed.

End Properties.

(** * Properties of the command line *)

Section CliProperties.

Variable env : Collaborators.
Variable host : Host.

Lemma createSampleConfig_cases w :
  (is_Some (files w !! configPath host) ∧
   (createSampleConfig host w).2 = None ∧
   files (createSampleConfig host w).1 = files w ∧
   ∃ line, (createSampleConfig host w).1 = emit (Stdout line) w) ∨
  (files w !! configPath host = None ∧ configPath host ∈ unwritable w ∧
   createSampleConfig host w = (w, Some (WriteError (configPath host)))) ∨
  (files w !! configPath host = None ∧ (configPath host ∉ unwritable w) ∧
   (createSampleConfig host w).2 = None ∧
   files (createSampleConfig host w).1
     = <[configPath host := list_ascii_of_string sampleConfig]> (files w) ∧
   ∃ line1 line2,
     trace (createSampleConfig host w).1 = trace w ++ [Stdout line1; Stdout line2]).
Proof.
  unfold createSampleConfig. case_decide as Hex.
  - left. split_and!; [done..|]. by eexists.
  - right. assert (files w !! configPath host = None) as Hnone.
    { destruct (files w !! configPath host) eqn:E; [|done].
      exfalso. apply Hex. by eexists. }
    unfold write_file. case_decide as Hun.
    + left. by split_and!.
    + right. split_and!; [done..|]. eexists _, _. simpl.
      by rewrite <-app_assoc.
Qed.

Lemma createSampleConfig_steps w :
  unwritable (createSampleConfig host w).1 = unwritable w ∧
  replace_calls (trace (createSampleConfig host w).1) = replace_calls (trace w) ∧
  css_calls (trace (createSampleConfig host w).1) = css_calls (trace w).
Proof.
  unfold createSampleConfig. case_decide.
  - simpl. by rewrite replace_calls_app, css_calls_app, !app_nil_r.
  - unfold write_file. case_decide; [done|]. simpl.
    rewrite <-app_assoc. by rewrite replace_calls_app, css_calls_app, !app_nil_r.
Qed.

(** X15. [createSampleConfig] never overwrites: a configuration file that exists
    is left with its content.  It changes no other file, it fails only
    when the file is absent and cannot be written, and when it returns the
    file exists, so a second call changes nothing on the disk. *)
Theorem createSampleConfig_never_overwrites w :
  let w1 := (createSampleConfig host w).1 in
  let r := (createSampleConfig host w).2 in
  (∀ content, files w !! configPath host = Some content → files w1 = files w) ∧
  (∀ f, f ≠ configPath host → files w1 !! f = files w !! f) ∧
  (r = None → is_Some (files w1 !! configPath host)) ∧
  (is_Some r ↔ files w !! configPath host = None ∧ configPath host ∈ unwritable w) ∧
  (r = None ∨ r = Some (WriteError (configPath host))) ∧
  files (createSampleConfig host w1).1 = files w1.
Proof.
  intros w1 r. unfold w1, r.
  destruct (createSampleConfig_cases w)
    as [(Hex&Hr&Hf&_)|[(Hnone&Hun&Heq)|(Hnone&Hun&Hr&Hf&_)]].
  - rewrite Hr, Hf. split_and!; [done|done|done| |by left|].
    + split; [by intros [? [=]]|]. intros [Hnone _]. rewrite Hnone in Hex.
      by destruct Hex.
    + destruct (createSampleConfig_cases (createSampleConfig host w).1)
        as [(_&_&->&_)|[(Hnone&_)|(Hnone&_)]]; [done|..];
        rewrite Hf in Hnone; rewrite Hnone in Hex; by destruct Hex.
  - rewrite Heq. simpl. split_and!; [done|done|done| |by right|by rewrite Heq].
    split; [done|]. intros _. by eexists.
  - rewrite Hr, Hf. split_and!.
    + intros content Hc. congruence.
    + intros f Hne. by rewrite lookup_insert_ne.
    + intros _. rewrite lookup_insert_eq. by eexists.
    + split; [by intros [? [=]]|]. by intros [_ ?].
    + by left.
    + destruct (createSampleConfig_cases (createSampleConfig host w).1)
        as [(_&_&->&_)|[(Hnone'&_)|(Hnone'&_)]]; [done|..];
        rewrite Hf, lookup_insert_eq in Hnone'; done.
Qed.

(** X16. The exit status of the command line is 0 or 1.  With [--init] it is 1
    exactly when the configuration file is absent and cannot be written.
    Otherwise it is 1 exactly when the configuration cannot be loaded, or
    the configuration as overridden by the options is invalid, or the run
    is not a dry run and the stylesheet, at the overriding destination if
    one is given, cannot be written. *)
Theorem main_cli_exit_status opts w :
  ((main_cli env host opts w).2 = 0 ∨ (main_cli env host opts w).2 = 1) ∧
  ((main_cli env host opts w).2 = 1 ↔
     if o_init opts
     then files w !! configPath host = None ∧ configPath host ∈ unwritable w
     else match loadConfig host (o_config opts) w with
          | inl _ => True
          | inr cfg =>
              is_Some (validateConfig env (override opts cfg)) ∨
              (o_dryRun opts = false ∧ output (override opts cfg) ∈ unwritable w)
          end).
Proof.
  unfold main_cli. destruct (o_init opts).
  - destruct (createSampleConfig_cases w)
      as [(Hex&Hr&_)|[(Hnone&Hun&Heq)|(Hnone&Hun&Hr&_)]].
    + destruct (createSampleConfig host w) as [w1 r]. simpl in Hr. subst r. simpl.
      split; [by left|]. split; [done|]. intros [Hnone _]. rewrite Hnone in Hex.
      by destruct Hex.
    + rewrite Heq. simpl. split; [by right|done].
    + destruct (createSampleConfig host w) as [w1 r]. simpl in Hr. subst r. simpl.
      split; [by left|]. split; [done|]. by intros [_ ?].
  - destruct (loadConfig host (o_config opts) w) as [e|cfg]; simpl.
    + split; [by right|done].
    + destruct (main_spec env (override opts cfg) (o_dryRun opts) w) as (H1&H2&_).
      split; [exact H2|exact H1].
Qed.

(** X17. With [--init] nothing but the sample configuration is done: the
    configuration is not loaded, no file is parsed or rewritten and no
    stylesheet is written, whatever the other options are, the dry-run
    flag among them. *)
Theorem init_does_nothing_else opts w :
  o_init opts = true →
  let w' := (main_cli env host opts w).1 in
  replace_calls (trace w') = replace_calls (trace w) ∧
  css_calls (trace w') = css_calls (trace w) ∧
  (∀ f, f ≠ configPath host → files w' !! f = files w !! f) ∧
  (∀ content, files w !! configPath host = Some content →
     files w' !! configPath host = Some content) ∧
  (∀ opts', o_init opts' = true →
     main_cli env host opts' w = main_cli env host opts w).
Proof.
  intros Hinit w'. unfold w', main_cli. rewrite Hinit.
  destruct (createSampleConfig_steps w) as (_&Hrc&Hcc).
  destruct (createSampleConfig_cases w)
    as [(Hex&_&Hf&_)|[(Hnone&_&Heq)|(Hnone&_&_&Hf&_)]].
  - destruct (createSampleConfig host w) as [w1 [e|]]; simpl in *.
    + rewrite replace_calls_app, css_calls_app, Hrc, Hcc, !app_nil_r, Hf.
      split_and!; [done..|]. intros opts' ->. done.
    + rewrite Hrc, Hcc, Hf. split_and!; [done..|]. intros opts' ->. done.
  - rewrite Heq. simpl. rewrite replace_calls_app, css_calls_app, !app_nil_r.
    split_and!; [done..|]. intros opts' ->. done.
  - destruct (createSampleConfig host w) as [w1 [e|]]; simpl in *.
    + rewrite replace_calls_app, css_calls_app, Hrc, Hcc, !app_nil_r, Hf.
      split_and!; [done|done| | |].
      * intros f Hne. by rewrite lookup_insert_ne.
      * intros content Hc. congruence.
      * intros opts' ->. done.
    + rewrite Hrc, Hcc, Hf. split_and!; [done|done| | |].
      * intros f Hne. by rewrite lookup_insert_ne.
      * intros content Hc. congruence.
      * intros opts' ->. done.
Qed.

(** X18. The options win over the configuration file, but an option given as
    the empty string is as good as not given: a run that writes hands its
    rules to the stylesheet writer for the destination of [--output] when
    that is a non-empty string, and for the destination of the
    configuration file otherwise.  The compressor flag is always that of
    the file. *)
Theorem stylesheet_goes_to_the_overriding_output opts cfg w :
  o_init opts = false → o_dryRun opts = false →
  loadConfig host (o_config opts) w = inr cfg →
  validateConfig env (override opts cfg) = None →
  ∃ rules,
    css_calls (trace (main_cli env host opts w).1) =
      css_calls (trace w) ++
      [(rules,
        match o_output opts with
        | Some out => if decide (out = "") then output cfg else out
        | None => output cfg
        end,
        cssCompressor cfg)].
Proof.
  intros Hinit Hdry Hload Hvalid. unfold main_cli. rewrite Hinit, Hload.
  unfold main. rewrite Hvalid, Hdry.
  destruct (process_spec env (new_processor (override opts cfg) false) w)
    as (w'&r&Hp&(_&_&_&Hcc)&_).
  rewrite Hp. unfold css_call in Hcc.
  destruct (generateMappings_fields env (new_processor (override opts cfg) false)
              (succeeded (parse_results env
                 (config (new_processor (override opts cfg) false)) w)))
    as [Hcfg Hd].
  rewrite Hd, Hcfg in Hcc. simpl in Hcc.
  eexists.
  assert (css_calls (trace (match r with
                            | Some e => (emit (ErrorMain e) w', 1)
                            | None => (w', 0)
                            end).1) = css_calls (trace w')) as ->.
  { destruct r; simpl; [|done]. by rewrite css_calls_app, app_nil_r. }
  rewrite Hcc. do 3 f_equal.
  unfold truthy. destruct (o_output opts) as [out|]; [|done].
  by case_decide.
Qed.

End CliProperties.

(** ** The theorems at work on the sample inputs *)

Lemma generateMappings_sample :
  mappings (generateMappings sample_env (new_processor (sample_config incremental) false)
              (parse_results sample_env (sample_config incremental) sample_world))
  = [("flex p-4", "tw-0"); ("p-4 flex", "tw-1")].
Proof. vm_compute. reflexivity. Qed.

Lemma dynamic_occurrences_are_untouched_witness :
  in_content sample_component [sample_dynamic; sample_static] ∧
  all_apart (filter (λ o', replaceable [("flex p-4", "tw-0")] o' = true)
               [sample_dynamic; sample_static]) ∧
  sample_dynamic ∈ [sample_dynamic; sample_static] ∧
  safe sample_dynamic = false ∧
  Forall (λ o', replaceable [("flex p-4", "tw-0")] o' = true → apart sample_dynamic o')
    [sample_dynamic; sample_static] ∧
  slice 26 30
    (text (rewrite sample_env sample_component [sample_dynamic; sample_static]
             [("flex p-4", "tw-0")]))
  = slice 30 34 sample_component.
Proof.
  assert (in_content sample_component [sample_dynamic; sample_static]) as H1.
  { repeat constructor; simpl; lia. }
  assert (all_apart (filter (λ o', replaceable [("flex p-4", "tw-0")] o' = true)
                       [sample_dynamic; sample_static])) as H2.
  { vm_compute. split; constructor. }
  assert (sample_dynamic ∈ [sample_dynamic; sample_static]) as H3 by left.
  assert (Forall (λ o', replaceable [("flex p-4", "tw-0")] o' = true
                        → apart sample_dynamic o')
            [sample_dynamic; sample_static]) as H4.
  { constructor; [intros H; vm_compute in H; discriminate H|].
    constructor; [|constructor]. intros _. right. simpl. lia. }
  split_and!; [exact H1|exact H2|exact H3|reflexivity|exact H4|].
  exact (proj1 (dynamic_occurrences_are_untouched sample_env sample_component
                  [sample_dynamic; sample_static] [("flex p-4", "tw-0")]
                  sample_dynamic H1 H2 H3 eq_refl H4)).
Defined.

(** C2, as stated, fails: the static value of an element inside the
    expression of a dynamic value is replaced, and its bytes are part of
    the range of the dynamic value.  The ranges are those of the two
    attribute values, the only mapped class-string is that of the inner
    one.  After the rewrite the bytes of the dynamic range are neither at
    its offset nor anywhere else in the file. *)
Lemma nested_static_alters_dynamic :
  let out := rewrite sample_env nested_component [nested_dynamic; nested_static]
               [("p-4", "tw-0")] in
  in_content nested_component [nested_dynamic; nested_static] ∧
  nested_dynamic ∈ [nested_dynamic; nested_static] ∧
  safe nested_dynamic = false ∧
  string_of_list_ascii (slice 13 34 nested_component)
    = "{f(<b class=" +:+ String quote "p-4" +:+ String quote "/>)}" ∧
  string_of_list_ascii (text out)
    = "<a className={f(<b class=" +:+ String quote "tw-0" +:+ String quote "/>)}>" ∧
  slice 13 34 (text out) ≠ slice 13 34 nested_component ∧
  (∀ a, slice a (a + 21) (text out) ≠ slice 13 34 nested_component).
Proof.
  intros out.
  assert (length (text out) = 36) as Hout by (vm_compute; reflexivity).
  assert (length nested_component = 35) as Hlen by (vm_compute; reflexivity).
  split_and!.
  - repeat constructor; simpl; lia.
  - left.
  - reflexivity.
  - vm_compute. reflexivity.
  - vm_compute. reflexivity.
  - vm_compute. intros H. discriminate H.
  - intros a H.
    assert (a ≤ 15) as Ha.
    { apply (f_equal length) in H. unfold slice in H.
      rewrite !length_take, !length_drop, Hout, Hlen in H. lia. }
    do 16 (destruct a as [|a]; [vm_compute in H; discriminate H|]). lia.
Qed.

(** The replaced ranges must not overlap one another either: when a value
    is reported twice, with its quotes and without them, the second splice
    works on offsets the first one has moved, and bytes behind both ranges
    are lost. *)
Example overlapping_replacements_reach_further :
  string_of_list_ascii
    (text (rewrite sample_env doubled_component doubled_occurrences
             [("p-4 flex", "tw-0")]))
  = "<a class=" +:+ String quote "tw-0" +:+ String quote "..x}>".
Proof. vm_compute. reflexivity. Qed.


Lemma incremental_numbering_follows_discovery_order_witness :
  mode (sample_config incremental) = incremental ∧
  mappings (process sample_env (new_processor (sample_config incremental) false)
              sample_world).1.1
  = [("flex p-4", "tw-0"); ("p-4 flex", "tw-1")].
Proof.
  split; [reflexivity|].
  etrans;
    [exact (proj2 (proj2 (proj2
       (incremental_numbering_follows_discovery_order sample_env
          (sample_config incremental) false sample_world eq_refl))))|].
  vm_compute. reflexivity.
Defined.

(** C4, as stated, fails: the same files enumerated by the walker in the
    other order give the class-strings the other numbers. *)
Lemma file_order_changes_numbering :
  found_files sample_env (sample_config incremental) sample_world ≡ₚ
    found_files sample_env_reversed (sample_config incremental) sample_world ∧
  map_get "flex p-4"
    (mappings (process sample_env (new_processor (sample_config incremental) false)
                 sample_world).1.1) = Some "tw-0" ∧
  map_get "flex p-4"
    (mappings (process sample_env_reversed
                 (new_processor (sample_config incremental) false)
                 sample_world).1.1) = Some "tw-1".
Proof.
  split_and!.
  - change (["a.html"; "b.html"] ≡ₚ ["b.html"; "a.html"]). apply perm_swap.
  - vm_compute. reflexivity.
  - vm_compute. reflexivity.
Qed.

Lemma dry_run_writes_nothing_witness :
  dryRun (new_processor (sample_config hash) true) = true ∧
  files (process sample_env (new_processor (sample_config hash) true) sample_world).1.2
  = files sample_world.
Proof.
  split; [reflexivity|].
  destruct (dry_run_writes_nothing sample_env (new_processor (sample_config hash) true)
              sample_world eq_refl) as (p'&w'&Hp&Hf&_).
  rewrite Hp. exact Hf.
Defined.


(** The same for component markup with a dynamic value, from the
    occurrences a parser reports. *)
Example component_rewritten_twice :
  string_of_list_ascii
    (text (rewrite sample_env
             (text (rewrite sample_env sample_component [sample_dynamic; sample_static]
                      [("flex p-4", "tw-0")]))
             sample_reparsed [("flex p-4", "tw-0")]))
  = "<a class=" +:+ String quote "tw-0" +:+ String quote " className={cx}>".
Proof. vm_compute. reflexivity. Qed.

(** The assumption on the short names is needed.  In incremental mode a
    file that holds the class-string [tw-0] gets a mapping in which one
    short name is another entry's class-string; the sample scanner reports
    the short name, and the second rewrite moves the value again.  So it is
    for a short name with a double quote in it, which the scanner reads as
    the end of the value. *)
Example short_name_that_is_a_class_string :
  mappings (generateMappings sample_env (new_processor (sample_config incremental) false)
              [parseFile sample_env
                 {| files := {[ "c.html" := sample_chain ]}; unwritable := ∅;
                    trace := [] |} "c.html"])
  = sample_chain_mapping ∧
  ¬ distinguishable sample_chain_mapping ∧
  string_of_list_ascii (rewritten sample_env sample_chain sample_chain_mapping)
  = "<a class=" +:+ String quote "tw-0" +:+ String quote "><b class="
    +:+ String quote "tw-1" +:+ String quote ">" ∧
  rewritten sample_env (rewritten sample_env sample_chain sample_chain_mapping)
    sample_chain_mapping
  ≠ rewritten sample_env sample_chain sample_chain_mapping ∧
  rewritten sample_env (rewritten sample_env sample_quoted sample_quoted_mapping)
    sample_quoted_mapping
  ≠ rewritten sample_env sample_quoted sample_quoted_mapping.
Proof.
  split_and!.
  - vm_compute. reflexivity.
  - intros H. specialize (H "p-4" "tw-0"). vm_compute in H.
    assert (Some "tw-1" = None) as Hn; [|discriminate Hn].
    apply H. left.
  - vm_compute. reflexivity.
  - vm_compute. intros H. discriminate H.
  - vm_compute. intros H. discriminate H.
Qed.

Lemma getMappings_returns_copy_witness :
  store_ok sample_store ∧
  obj_mappings sample_object ∈ dom (objects sample_store) ∧
  load sample_object
    (mutate_all (getMappings sample_object sample_store).1
       [OpSet "flex p-4" "x"; OpClear]
       (getMappings sample_object sample_store).2)
  = load sample_object sample_store.
Proof.
  assert (store_ok sample_store) as H1.
  { intros l Hl. simpl in Hl. rewrite dom_singleton_L in Hl.
    apply elem_of_singleton in Hl. subst l. simpl. lia. }
  assert (obj_mappings sample_object ∈ dom (objects sample_store)) as H2.
  { simpl. rewrite dom_singleton_L. by apply elem_of_singleton. }
  split_and!; [exact H1|exact H2|].
  pose proof (getMappings_returns_copy sample_env sample_object sample_store
                [OpSet "flex p-4" "x"; OpClear] H1 H2) as H.
  destruct (getMappings sample_object sample_store) as [l st1].
  exact (proj1 (proj2 (proj2 (proj2 (proj2 H))))).
Defined.

(** ** Checks on small inputs *)

Example split_ws_ends : split_ws "  a  b " = [""; "a"; "b"; ""].
Proof. reflexivity. Qed.

Example normalized_sorts : normalized " p-4   flex  a" = "a flex p-4".
Proof. reflexivity. Qed.

Example hash_names_differ_but_one_rule :
  let p := generateMappings sample_env (new_processor (sample_config hash) false)
             (parse_results sample_env (sample_config hash) sample_world) in
  mappings p = [("flex p-4", "tw-flexp4"); ("p-4 flex", "tw-p4flex")] ∧
  dedupe (mappings p) = [to_rule ("flex p-4", "tw-flexp4")].
Proof. split; vm_compute; reflexivity. Qed.

Example sample_run_trace :
  trace (process sample_env (new_processor (sample_config incremental) false)
           sample_world).1.2
  = [WarnGlobFailed "[";
     CallReplace "a.html" [("flex p-4", "tw-0"); ("p-4 flex", "tw-1")] false;
     Stdout ".";
     CallReplace "b.html" [("flex p-4", "tw-0"); ("p-4 flex", "tw-1")] false;
     Stdout ".";
     CallGenerateCSS [to_rule ("flex p-4", "tw-0")] "twmap.css" false;
     InfoCompleted "twmap.css"].
Proof. vm_compute. reflexivity. Qed.

Example sample_stylesheet :
  buildCSSContent [to_rule ("flex p-4", "tw-0")]
  = ".tw-0 { @apply flex p-4; }" +:+ String "010" "".
Proof. reflexivity. Qed.

(** A dry run over one static and one dynamic occurrence: nothing is
    written, and the plan counts one replacement and one skip. *)
Example dry_run_plan :
  let '(_, w, r) := process component_env (new_processor (sample_config hash) true)
                      component_world in
  files w = files component_world ∧ r = None ∧
  PlanReport "a.jsx" 1 1 ∈ trace w.
Proof.
  vm_compute. split_and!; [reflexivity|reflexivity|].
  right. left.
Qed.

(** A file that cannot be written does not stop the others. *)
Example unwritable_file_is_reported :
  let w0 := {| files := files sample_world; unwritable := {["a.html"]}; trace := [] |} in
  let '(_, w, r) := process sample_env (new_processor (sample_config incremental) false)
                      w0 in
  r = None ∧
  ErrorUpdateFailed "a.html" (WriteError "a.html") ∈ trace w ∧
  files w !! "a.html" = files sample_world !! "a.html" ∧
  string_of_list_ascii <$> files w !! "b.html"
    = Some ("<p class=" +:+ String quote "tw-1" +:+ String quote ">") ∧
  is_Some (files w !! "twmap.css").
Proof.
  vm_compute. split_and!; [reflexivity| |reflexivity|reflexivity|by eexists].
  do 2 right. left.
Qed.

(** ** The further properties at work on the sample inputs *)

Lemma generateMappings_nothing_new_witness :
  (∀ r' c,
     r' ∈ parse_results sample_env (sample_config incremental) sample_world →
     c ∈ classNames r' →
     c ∈ (mappings (new_processor (sample_config incremental) false)).*1 ∨
     ∃ r, r ∈ parse_results sample_env (sample_config incremental) sample_world ∧
          c ∈ classNames r) ∧
  generateMappings sample_env
    (generateMappings sample_env (new_processor (sample_config incremental) false)
       (parse_results sample_env (sample_config incremental) sample_world))
    (parse_results sample_env (sample_config incremental) sample_world)
  = generateMappings sample_env (new_processor (sample_config incremental) false)
      (parse_results sample_env (sample_config incremental) sample_world).
Proof.
  assert (∀ r' c,
     r' ∈ parse_results sample_env (sample_config incremental) sample_world →
     c ∈ classNames r' →
     c ∈ (mappings (new_processor (sample_config incremental) false)).*1 ∨
     ∃ r, r ∈ parse_results sample_env (sample_config incremental) sample_world ∧
          c ∈ classNames r) as H.
  { intros r' c Hr' Hc. right. exists r'. split; assumption. }
  split; [exact H|].
  exact (generateMappings_nothing_new sample_env
           (new_processor (sample_config incremental) false) _ _ H).
Defined.

Lemma later_entry_has_no_rule_witness :
  NoDup sample_twins.*2 ∧
  ("tw-1" ∉ generated <$> dedupe sample_twins).
Proof.
  assert (NoDup sample_twins.*2) as H by compute_done.
  split; [exact H|].
  refine (proj1 (later_entry_has_no_rule sample_twins 0 1
                   "flex p-4" "tw-0" "p-4 flex" "tw-1" H eq_refl eq_refl _ _)).
  - lia.
  - apply perm_swap.
Defined.

Lemma stylesheet_failure_keeps_rewrites_witness :
  dryRun (new_processor (sample_config incremental) false) = false ∧
  output (config (new_processor (sample_config incremental) false))
    ∈ unwritable sample_world_locked ∧
  (process sample_env (new_processor (sample_config incremental) false)
     sample_world_locked).2 = Some (WriteError "twmap.css").
Proof.
  assert (output (config (new_processor (sample_config incremental) false))
            ∈ unwritable sample_world_locked) as H.
  { exact (proj2 (elem_of_singleton (C:=gset string) "twmap.css" "twmap.css")
             eq_refl). }
  split_and!; [reflexivity|exact H|].
  destruct (stylesheet_failure_keeps_rewrites sample_env
              (new_processor (sample_config incremental) false)
              sample_world_locked eq_refl H) as (p'&w'&Hp&_).
  rewrite Hp. reflexivity.
Defined.

(** A processor that holds the mapping of an earlier run, run over two
    files that parse and have no class-string. *)
Lemma run_without_class_strings_witness :
  mappings seasoned_processor = [("flex p-4", "tw-0"); ("p-4 flex", "tw-1")] ∧
  filePath <$> succeeded (parse_results sample_env (config seasoned_processor)
                            plain_world) = ["a.html"; "b.html"] ∧
  (∀ r, r ∈ succeeded (parse_results sample_env (config seasoned_processor)
                         plain_world) →
        classNames r = []) ∧
  (process sample_env seasoned_processor plain_world).1.1 = seasoned_processor ∧
  replace_calls (trace (process sample_env seasoned_processor plain_world).1.2) = [] ∧
  css_calls (trace (process sample_env seasoned_processor plain_world).1.2)
    = [([to_rule ("flex p-4", "tw-0")], "twmap.css", false)].
Proof.
  assert (succeeded (parse_results sample_env (config seasoned_processor) plain_world)
          = [ {| filePath := "a.html"; success := true; classNames := [];
                 error := None |};
              {| filePath := "b.html"; success := true; classNames := [];
                 error := None |} ]) as Hrs by (vm_compute; reflexivity).
  assert (∀ r, r ∈ succeeded (parse_results sample_env (config seasoned_processor)
                               plain_world) →
               classNames r = []) as H.
  { intros r Hr. rewrite Hrs in Hr.
    apply elem_of_cons in Hr as [->|Hr]; [reflexivity|].
    apply elem_of_cons in Hr as [->|Hr]; [reflexivity|].
    exfalso. exact (proj1 (elem_of_nil r) Hr). }
  destruct (run_without_class_strings sample_env seasoned_processor plain_world H)
    as (w'&r&Hp&Hrc&_&Hcc&_).
  rewrite Hp. cbn [fst snd].
  split_and!; [vm_compute; reflexivity|by rewrite Hrs|exact H|reflexivity| |].
  - rewrite Hrc. reflexivity.
  - rewrite Hcc. vm_compute. reflexivity.
Defined.

Lemma second_dry_run_changes_nothing_witness :
  dryRun (new_processor (sample_config hash) true) = true ∧
  ∃ p1 w1 w2,
    process sample_env (new_processor (sample_config hash) true) sample_world
      = (p1, w1, None) ∧
    process sample_env p1 w1 = (p1, w2, None).
Proof.
  split; [reflexivity|].
  destruct (second_dry_run_changes_nothing sample_env
              (new_processor (sample_config hash) true) sample_world eq_refl)
    as (p1&w1&w2&calls&H1&H2&_).
  exists p1, w1, w2. split; [exact H1|exact H2].
Defined.

Lemma sample_store_ok : store_ok sample_store.
Proof.
  intros l Hl. simpl in Hl. rewrite dom_singleton_L in Hl.
  apply elem_of_singleton in Hl. subst l. simpl. lia.
Defined.

Lemma sample_object_stored : obj_mappings sample_object ∈ dom (objects sample_store).
Proof. simpl. rewrite dom_singleton_L. by apply elem_of_singleton. Defined.

Lemma reset_clears_in_place_witness :
  store_ok sample_store ∧
  obj_mappings sample_object ∈ dom (objects sample_store) ∧
  deref (reset_obj sample_object (getMappings sample_object sample_store).2).2
        (getMappings sample_object sample_store).1
  = deref sample_store (obj_mappings sample_object) ∧
  mappings (load (reset_obj sample_object (getMappings sample_object sample_store).2).1
                 (reset_obj sample_object (getMappings sample_object sample_store).2).2)
  = [].
Proof.
  split_and!; [exact sample_store_ok|exact sample_object_stored| |].
  - pose proof (reset_clears_in_place sample_object sample_store
                  sample_store_ok sample_object_stored) as H.
    destruct (getMappings sample_object sample_store) as [l st1]. cbn [fst snd].
    destruct (reset_obj sample_object st1) as [o' st2]. cbn [snd].
    exact (proj1 (proj2 (proj2 (proj2 H)))).
  - reflexivity.
Defined.

Lemma init_does_nothing_else_witness :
  o_init init_options = true ∧
  css_calls (trace (main_cli sample_env sample_host init_options sample_world).1)
  = css_calls (trace sample_world).
Proof.
  split; [reflexivity|].
  exact (proj1 (proj2 (init_does_nothing_else sample_env sample_host init_options
                         sample_world eq_refl))).
Defined.

Lemma stylesheet_goes_to_the_overriding_output_witness :
  o_init blank_output_options = false ∧
  o_dryRun blank_output_options = false ∧
  loadConfig sample_host (o_config blank_output_options) sample_world
    = inr (sample_config incremental) ∧
  validateConfig sample_env (override blank_output_options (sample_config incremental))
    = None ∧
  ∃ rules,
    css_calls (trace (main_cli sample_env sample_host blank_output_options
                        sample_world).1)
    = css_calls (trace sample_world) ++ [(rules, "twmap.css", false)].
Proof.
  split_and!; [reflexivity..|].
  exact (stylesheet_goes_to_the_overriding_output sample_env sample_host
           blank_output_options (sample_config incremental) sample_world
           eq_refl eq_refl eq_refl eq_refl).
Defined.

(** *** Checks of the further properties on small inputs *)

Example normalized_keeps_repeats :
  normalized "a  a b" = "a a b" ∧ normalized "b a" = normalized " a   b ".
Proof. split; reflexivity. Qed.

Example twins_have_one_rule :
  dedupe sample_twins = [to_rule ("flex p-4", "tw-0")].
Proof. reflexivity. Qed.

Example failed_result_without_reason :
  failure_report
    [{| filePath := "a.html"; success := false; classNames := []; error := None |};
     {| filePath := "b.html"; success := false; classNames := [];
        error := Some "b.html: unexpected end" |}]
  = [WarnParseFailures 2; ErrorParseFailed "b.html" "b.html: unexpected end"].
Proof. reflexivity. Qed.

Example init_writes_the_sample :
  files (main_cli sample_env sample_host init_options sample_world).1
    !! "/app/twmap.config.js"
  = Some (list_ascii_of_string sampleConfig) ∧
  (main_cli sample_env sample_host init_options sample_world).2 = 0.
Proof. split; vm_compute; reflexivity. Qed.
